(** * Mailcam: detection pipeline, daily tracker and sidecar reconciler

    A shallow embedding of the numeric core of
    [detector/mailcam_detector_onnx.py], [detector/twostage.py] and
    [mailcam_bundle/mailcam_sidecar.py].

    Conventions of the embedding:
    - numpy / Python floats are modelled by exact rationals [Q]; comparisons
      are the boolean tests the code performs; rounding error, NaN and
      infinities are outside the model;
    - Python dicts and sets are stdpp [gmap] / [gset];
    - a Python exception is a [None] result;
    - the wall clock and the neural network are explicit inputs, and so is
      the range of timestamps [datetime.fromtimestamp] accepts, which is
      the platform's. *)

From Stdlib Require Import Ascii String QArith Qminmax Qround Lqa.
From stdpp Require Import gmap strings list sorting pretty.
From Equations Require Import Equations.

Local Open Scope Q_scope.

(** ** Python and numpy helpers *)

(** [a < b] on floats, as a boolean. *)
Definition Qltb (a b : Q) : bool := negb (Qle_bool b a).

(** [a >= b] on floats, as a boolean. *)
Definition Qgeb (a b : Q) : bool := Qle_bool b a.

(** [a > b] on floats, as a boolean. *)
Definition Qgtb (a b : Q) : bool := negb (Qle_bool a b).

(** Python's [int(x)] on a float: truncation towards zero. *)
Definition py_int (x : Q) : Z :=
  if Qltb x 0 then Qceiling x else Qfloor x.

(** Python's [round(x)] on a float: to the nearest integer, ties to even. *)
Definition round_half_even (x : Q) : Z :=
  let f := Qfloor x in
  let r := x - inject_Z f in
  match Qcompare r (1 # 2) with
  | Lt => f
  | Gt => (f + 1)%Z
  | Eq => if Z.even f then f else (f + 1)%Z
  end.

(** Python's [round(x, ndigits)] on a float. *)
Definition py_round (x : Q) (ndigits : nat) : Q :=
  inject_Z (round_half_even (x * inject_Z (10 ^ Z.of_nat ndigits)))
  / inject_Z (10 ^ Z.of_nat ndigits).

(** ASCII lower-casing, the part of [str.lower] that matters for carrier
    and class names. *)
Definition lower_ascii (c : ascii) : ascii :=
  let n := nat_of_ascii c in
  if ((65 <=? n) && (n <=? 90))%nat then ascii_of_nat (n + 32) else c.

Fixpoint lower (s : string) : string :=
  match s with
  | EmptyString => EmptyString
  | String c s' => String (lower_ascii c) (lower s')
  end.

(** numpy boolean-mask indexing [a[mask]]: the entries of [a] at the
    positions where [mask] is true. *)
Fixpoint mask_select {A} (a : list A) (mask : list bool) : list A :=
  match a, mask with
  | x :: a', m :: mask' =>
      if m then x :: mask_select a' mask' else mask_select a' mask'
  | _, _ => []
  end.

Lemma length_mask_select {A} (a : list A) (mask : list bool) :
  (length (mask_select a mask) <= length a)%nat.
Proof.
  revert mask. induction a as [|x a IH]; intros [|[] m]; simpl; try lia.
  - specialize (IH m). lia.
  - specialize (IH m). lia.
Qed.

(** ** Suppressor: [nms] *)

Module Suppressor.

(** A row of the [xyxy] array. *)
Record Box := mkBox { bx1 : Q; by1 : Q; bx2 : Q; by2 : Q }.

(** The stabiliser [1e-6] of the IoU denominator. *)
Definition eps : Q := 1 # 1000000.

(** [(xyxy[k,2] - xyxy[k,0]) * (xyxy[k,3] - xyxy[k,1])]. *)
Definition area (b : Box) : Q := (bx2 b - bx1 b) * (by2 b - by1 b).

(** One entry of the [iou] vector of the loop body: the box [bi] kept in
    this round against one pending box [br]. *)
Definition iou (bi br : Box) : Q :=
  let xx1 := Qmax (bx1 bi) (bx1 br) in
  let yy1 := Qmax (by1 bi) (by1 br) in
  let xx2 := Qmin (bx2 bi) (bx2 br) in
  let yy2 := Qmin (by2 bi) (by2 br) in
  let inter := Qmax 0 (xx2 - xx1) * Qmax 0 (yy2 - yy1) in
  let a_i := area bi in
  let a_r := area br in
  inter / (a_i + a_r - inter + eps).

(** Ordering used by [np.argsort]: index [i] goes before [j] when
    [a[i] <= a[j]].  An index past the end reads as 0; [argsort] only
    sorts valid indices. *)
Definition key_le (a : list Q) (i j : nat) : Prop :=
  Is_true (Qle_bool (nth i a 0) (nth j a 0)).

(** [np.argsort(a)]: the indices of [a] in ascending order of value.
    numpy's default sort does not promise an order among equal values; a
    merge sort is taken here. *)
Definition argsort (a : list Q) : list nat :=
  merge_sort (key_le a) (seq 0 (length a)).

(** The [while idx.size] loop.  [keep.append(i)] followed by the rest of
    the loop is the cons of [i] onto what the rest of the loop appends.
    [xyxy[i]] or [xyxy[rest]] out of range raises (IndexError): [None]. *)
Equations? nms_loop (xyxy : list Box) (iou_threshold : Q) (idx : list nat)
  : option (list nat) by wf (length idx) lt :=
nms_loop xyxy iou_threshold [] := Some [];
nms_loop xyxy iou_threshold [i] := Some [i];
nms_loop xyxy iou_threshold (i :: rest) with xyxy !! i, mapM (λ r, xyxy !! r) rest := {
  | Some bi, Some brs =>
      let iou_v := map (iou bi) brs in
      let mask := map (λ v, Qltb v iou_threshold) iou_v in
      option_map (cons i) (nms_loop xyxy iou_threshold (mask_select rest mask));
  | _, _ => None }.
Proof.
  change (length (mask_select rest mask0) < S (length rest))%nat.
  pose proof (length_mask_select rest mask0). lia.
Qed.

(** [nms(xyxy, scores, iou_threshold)]. *)
Definition nms (xyxy : list Box) (scores : list Q) (iou_threshold : Q)
  : option (list nat) :=
  let idx := argsort (map Qopp scores) in
  nms_loop xyxy iou_threshold idx.

(** Two indices whose boxes the loop has compared and found below the
    threshold. *)
Definition below (xyxy : list Box) (thr : Q) (i j : nat) : Prop :=
  ∃ bi bj, xyxy !! i = Some bi ∧ xyxy !! j = Some bj ∧ iou bi bj < thr.

(** The specification's terms, for comparison with [iou]: the area two
    boxes share, the area they cover together, and their intersection
    over union, without the stabiliser.  Where the boxes cover no area
    the quotient reads 0. *)
Definition inter_area (bi br : Box) : Q :=
  Qmax 0 (Qmin (bx2 bi) (bx2 br) - Qmax (bx1 bi) (bx1 br)) *
  Qmax 0 (Qmin (by2 bi) (by2 br) - Qmax (by1 bi) (by1 br)).

Definition union_area (bi br : Box) : Q :=
  area bi + area br - inter_area bi br.

Definition IoU (bi br : Box) : Q := inter_area bi br / union_area bi br.

End Suppressor.

(** ** TensorDecoder: [sigmoid], [ensure_probs], [decode_yolo_output] *)

Module TensorDecoder.
Import Suppressor.

(** A 2-D ndarray: its shape and its rows.  A well-formed array has
    [shape0] rows of [shape1] entries each. *)
Record ndarray2 := mkArr { shape0 : nat; shape1 : nat; rows : list (list Q) }.

Definition wf_ndarray2 (o : ndarray2) : Prop :=
  length (rows o) = shape0 o ∧ Forall (λ r, length r = shape1 o) (rows o).

(** What [SESSION.run] hands back in each slot of its result list: a 2-D
    array, or a 3-D one given as the list of its 2-D slices along axis 0. *)
Inductive tensor :=
  | T2 (o : ndarray2)
  | T3 (batch : list ndarray2).

(** [o.T] *)
Definition transpose (o : ndarray2) : ndarray2 :=
  mkArr (shape1 o) (shape0 o)
        (map (λ j, map (λ r, nth j r 0) (rows o)) (seq 0 (shape1 o))).

(** The entry [o[i, j]]. *)
Definition entry (o : ndarray2) (i j : nat) : Q := nth j (nth i (rows o) []) 0.

(** The range [-0.5, 1.5] inside which [ensure_probs] reads a value as a
    probability, and the unit interval. *)
Definition in_slack (x : Q) : Prop := - (1 # 2) <= x ∧ x <= 3 # 2.
Definition in_unit (x : Q) : Prop := 0 <= x ∧ x <= 1.

(** [np.max] / [np.min] of a flat array; an empty array raises. *)
Definition np_max (a : list Q) : option Q :=
  match a with [] => None | x :: a' => Some (foldl Qmax x a') end.

Definition np_min (a : list Q) : option Q :=
  match a with [] => None | x :: a' => Some (foldl Qmin x a') end.

(** [np.argmax] of one row: the first position of the largest entry. *)
Fixpoint argmax_from (best : Q) (besti : nat) (k : nat) (a : list Q) : nat :=
  match a with
  | [] => besti
  | x :: a' =>
      if Qgtb x best then argmax_from x k (S k) a'
      else argmax_from best besti (S k) a'
  end.

Definition argmax (a : list Q) : option nat :=
  match a with [] => None | x :: a' => Some (argmax_from x 0%nat 1%nat a') end.

(** [np.clip(v, lo, hi)] *)
Definition clip (v lo hi : Q) : Q := Qmin (Qmax v lo) hi.

(** The three arrays [decode_yolo_output] returns. *)
Record decoded := mkDecoded {
  d_xyxy : list Box;
  d_cls_ids : list nat;
  d_conf : list Q }.

(** [np.zeros((0, 4)), np.zeros(0, dtype=int), np.zeros(0)] *)
Definition empty_result : decoded := mkDecoded [] [] [].

Section WithExp.

(** [np.exp], the one transcendental function of the pipeline. *)
Variable np_exp : Q → Q.

(** [1.0 / (1.0 + np.exp(-x))] *)
Definition sigmoid (x : Q) : Q := 1 / (1 + np_exp (- x)).

(** [ensure_probs(obj, cls)]: [obj] is a vector, [cls] a 2-D array given by
    its rows; [np.max] and [np.min] range over all entries.  The four
    tests are joined by [or]: a reduction is evaluated only when the
    tests before it are false. *)
Definition ensure_probs (obj : list Q) (cls : list (list Q))
  : option (list Q * list (list Q)) :=
  let probs := Some (map sigmoid obj, map (map sigmoid) cls) in
  max_obj ← np_max obj;
  if Qgtb max_obj (3 # 2) then probs else
  min_obj ← np_min obj;
  if Qltb min_obj (- (1 # 2)) then probs else
  max_cls ← np_max (concat cls);
  if Qgtb max_cls (3 # 2) then probs else
  min_cls ← np_min (concat cls);
  if Qltb min_cls (- (1 # 2)) then probs else
  Some (obj, cls).

(** Lines 261-269: pick the 2-D array and put the anchors on axis 0. *)
Definition select_output (output : list tensor) : option ndarray2 :=
  match output with
  | [] => None
  | T2 o :: _ => Some o
  | T3 batch :: _ => head batch
  end.

Definition normalize (o : ndarray2) : ndarray2 :=
  if (shape0 o <? shape1 o)%nat then transpose o else o.

(** [xywh] row to [xyxy] row in letterbox space, then back to the original
    image: subtract the padding, divide by the scale, clip. *)
Definition to_xyxy (scale pad_x pad_y : Q) (img_width img_height : Z)
    (xywh : list Q) : Box :=
  let x_center := nth 0 xywh 0 in
  let y_center := nth 1 xywh 0 in
  let w := nth 2 xywh 0 in
  let h := nth 3 xywh 0 in
  let x1 := x_center - w / 2 in
  let y1 := y_center - h / 2 in
  let x2 := x_center + w / 2 in
  let y2 := y_center + h / 2 in
  mkBox (clip ((x1 - pad_x) / scale) 0 (inject_Z img_width))
        (clip ((y1 - pad_y) / scale) 0 (inject_Z img_height))
        (clip ((x2 - pad_x) / scale) 0 (inject_Z img_width))
        (clip ((y2 - pad_y) / scale) 0 (inject_Z img_height)).

(** [decode_yolo_output(output, conf_threshold, img_width, img_height,
    imgsz)].  [imgsz / img_width] is a division of Python ints and raises
    on zero. *)
Definition decode_yolo_output (output : list tensor) (conf_threshold : Q)
    (img_width img_height imgsz : Z) : option decoded :=
  o ← select_output output;
  let o := normalize o in
  if (shape1 o <? 6)%nat then Some empty_result else
  let xywh := map (take 4) (rows o) in
  let obj := map (λ r, nth 4 r 0) (rows o) in
  let cls_probs := map (drop 5) (rows o) in
  '(obj, cls_probs) ← ensure_probs obj cls_probs;
  cls_ids ← mapM argmax cls_probs;
  let cls_max := zip_with (λ r k, nth k r 0) cls_probs cls_ids in
  let conf := zip_with Qmult obj cls_max in
  let mask := map (λ c, Qgeb c conf_threshold) conf in
  if negb (existsb id mask) then Some empty_result else
  let xywh := mask_select xywh mask in
  let cls_ids := mask_select cls_ids mask in
  let conf := mask_select conf mask in
  if ((img_width =? 0) || (img_height =? 0))%Z then None else
  let scale := Qmin (inject_Z imgsz / inject_Z img_width)
                    (inject_Z imgsz / inject_Z img_height) in
  let pad_x := (inject_Z imgsz - inject_Z img_width * scale) / 2 in
  let pad_y := (inject_Z imgsz - inject_Z img_height * scale) / 2 in
  Some (mkDecoded (map (to_xyxy scale pad_x pad_y img_width img_height) xywh)
                  cls_ids conf).

End WithExp.

(** A sample output of shape [1, 8, 6] (eight anchors, one class): the
    first anchor has objectness 1.5 and class score 1.5, the others 0. *)
Definition hot_row : list Q := [320; 320; 100; 100; 3 # 2; 3 # 2].
Definition cold_row : list Q := [0; 0; 0; 0; 0; 0].
Definition hot_output : list tensor :=
  [T3 [mkArr 8 6 (hot_row :: replicate 7 cold_row)]].

End TensorDecoder.

(** ** SingleStageDetector: [run_detection] *)

Module SingleStage.
Import Suppressor TensorDecoder.

(** One entry of the hit list. *)
Record Hit := mkHit {
  label : string;
  conf : Q;
  bbox : Box;
  area_frac : Q }.

Section WithConfig.

Variable np_exp : Q → Q.

(** Module-level configuration read from [mailcam.yml]. *)
Variable IMGSZ : Z.
Variable CONF_MIN : Q.
Variable AREA_MIN_FRAC : Q.
Variable ALLOW_LABELS : gset string.
Variable LABELS : gmap nat string.

(** [LABELS.get(class_id, str(class_id))] *)
Definition get_label_name (class_id : nat) : string :=
  default (pretty class_id) (LABELS !! class_id).

(** [a[keep_idx]]: numpy indexing by a list of positions. *)
Definition take_idx {A} (a : list A) (keep_idx : list nat) : option (list A) :=
  mapM (λ k, a !! k) keep_idx.

(** The "Apply NMS" step. *)
Definition apply_nms (d : decoded) : option decoded :=
  if (0 <? length (d_xyxy d))%nat then
    keep_idx ← nms (d_xyxy d) (d_conf d) (45 # 100);
    xyxy ← take_idx (d_xyxy d) keep_idx;
    cls_ids ← take_idx (d_cls_ids d) keep_idx;
    confs ← take_idx (d_conf d) keep_idx;
    Some (mkDecoded xyxy cls_ids confs)
  else Some d.

(** The area fraction of a box in an image of [img_area] pixels. *)
Definition box_area_frac (img_area : Z) (b : Box) : Q :=
  let box_area := (bx2 b - bx1 b) * (by2 b - by1 b) in
  box_area / inject_Z (Z.max 1 img_area).

(** The body of the final [for i in range(len(xyxy))] loop for one [i]:
    the hit appended, if any.  [cls_ids[i]] or [confs[i]] out of range
    raises. *)
Definition filter_one (img_area : Z) (d : decoded) (i : nat)
  : option (option Hit) :=
  cls ← d_cls_ids d !! i;
  c ← d_conf d !! i;
  b ← d_xyxy d !! i;
  let label := get_label_name cls in
  let area_frac := box_area_frac img_area b in
  if bool_decide (label ∈ ALLOW_LABELS) && Qgeb area_frac AREA_MIN_FRAC
  then Some (Some (mkHit label (py_round c 3) b (py_round area_frac 6)))
  else Some None.

Definition filter_hits (img_area : Z) (d : decoded) : option (list Hit) :=
  l ← mapM (filter_one img_area d) (seq 0 (length (d_xyxy d)));
  Some (omap id l).

(** [run_detection(img)].  [img.size] is [(img_width, img_height)].
    [preprocess_image] and [SESSION.run] are external; [inference] is what
    they deliver: the output list, or [None] when either raises. *)
Definition run_detection (img_width img_height : Z)
    (inference : option (list tensor)) : option (list Hit) :=
  let img_area := (img_width * img_height)%Z in
  output ← inference;
  d ← decode_yolo_output np_exp output CONF_MIN img_width img_height IMGSZ;
  d ← apply_nms d;
  filter_hits img_area d.

End WithConfig.

End SingleStage.

(** ** ProposalCascade: [_collect_proposals], [two_stage_hits] *)

Module ProposalCascade.

(** Python's [l[:n]] for an int [n]. *)
Definition slice_to {A} (l : list A) (n : Z) : list A :=
  if (n <? 0)%Z then take (Z.to_nat (Z.of_nat (length l) + n)) l
  else take (Z.to_nat n) l.

(** The bounds Python gives the slice [lo:hi] of an axis of length [len]. *)
Definition slice_bound (len i : Z) : Z :=
  if (i <? 0)%Z then Z.max 0 (i + len) else Z.min i len.

(** One box of a YOLO result, read the way both stages read it: the label
    [names.get(cls, f"cls-{cls}")], the confidence, and the corners after
    [map(int, ...)]. *)
Record RawDet := mkRawDet {
  r_lbl : string; r_conf : Q; r_x1 : Z; r_y1 : Z; r_x2 : Z; r_y2 : Z }.

(** A proposal tuple [(X1, Y1, X2, Y2, lbl, conf)]. *)
Record Proposal := mkProposal {
  p_x1 : Z; p_y1 : Z; p_x2 : Z; p_y2 : Z; p_via : string; p_conf : Q }.

(** A crop [im[y1:y2, x1:x2]] of an [H] by [W] frame: the rows and columns
    it covers. *)
Record Crop := mkCrop { c_y1 : Z; c_y2 : Z; c_x1 : Z; c_x2 : Z }.

Definition crop_of (H W : Z) (p : Proposal) : Crop :=
  mkCrop (slice_bound H (p_y1 p)) (slice_bound H (p_y2 p))
         (slice_bound W (p_x1 p)) (slice_bound W (p_x2 p)).

(** [crop.size] for a 3-channel frame. *)
Definition crop_size (c : Crop) : Z :=
  (Z.max 0 (c_y2 c - c_y1 c) * Z.max 0 (c_x2 c - c_x1 c) * 3)%Z.

(** An entry of the [hits] list of [two_stage_hits]. *)
Record BrandHit := mkBrandHit {
  h_label : string; h_conf : Q; h_xyxy : Z * Z * Z * Z; h_via : string }.

Definition ALLOW_DEFAULT : gset string :=
  {[ "amazon"; "dhl"; "fedex"; "ups"; "usps" ]}.

(** [k in lbl] for strings. *)
Fixpoint is_substring (k lbl : string) : bool :=
  String.prefix k lbl ||
  match lbl with
  | EmptyString => false
  | String _ lbl' => is_substring k lbl'
  end.

Definition _veh_label_ok (lbl : string) : bool :=
  let lbl := lower lbl in
  existsb (λ k, is_substring k lbl)
    ["car"; "truck"; "bus"; "van"; "vehicle"; "pickup"; "suv"; "person";
     "bicycle"; "motorcycle"].

(** The body of [for b in r.boxes] in [_collect_proposals]: the proposal
    appended for one box, if any. *)
Definition proposal_of (H W : Z) (b : RawDet) : option Proposal :=
  if negb (Qle_bool 0 (r_conf b) && Qle_bool (r_conf b) 1) then None
  else if negb (_veh_label_ok (r_lbl b)) then None
  else
    let pad := py_int ((15 # 100) *
                 inject_Z (Z.max (r_x2 b - r_x1 b) (r_y2 b - r_y1 b))) in
    let X1 := Z.max 0 (r_x1 b - pad) in
    let Y1 := Z.max 0 (r_y1 b - pad) in
    let X2 := Z.min W (r_x2 b + pad) in
    let Y2 := Z.min H (r_y2 b + pad) in
    if ((12 <=? X2 - X1) && (12 <=? Y2 - Y1))%Z
    then Some (mkProposal X1 Y1 X2 Y2 (r_lbl b) (r_conf b))
    else None.

(** [_collect_proposals]: one entry of [det_runs] per detector path, in
    order: [None] when the model fails to load, otherwise the boxes its
    [predict] returns. *)
Fixpoint _collect_proposals (H W : Z) (det_runs : list (option (list RawDet)))
  : list Proposal :=
  match det_runs with
  | [] => []
  | None :: more => _collect_proposals H W more
  | Some boxes :: more =>
      let props := omap (proposal_of H W) boxes in
      match props with
      | [] => _collect_proposals H W more
      | _ => props
      end
  end.

(** The center-crop fallback. [int(H/1.6)] is [5*H/8] truncated: the
    double nearest 1.6 is off by a relative [2^-54], too little to move
    the quotient across an integer. *)
Definition fallback_proposal (H W : Z) : Proposal :=
  let nh := py_int (inject_Z H / (16 # 10)) in
  let nw := py_int (inject_Z W / (16 # 10)) in
  let y0 := ((H - nh) / 2)%Z in
  let x0 := ((W - nw) / 2)%Z in
  mkProposal x0 y0 (x0 + nw) (y0 + nh) "center" 1.

Section WithBrand.

(** [brand.predict(source=crop, ...)[0].boxes]: the brand model as a
    function of the crop; [None] when the result carries no boxes. *)
Variable brand_predict : Crop → option (list RawDet).

(** The body of [for b in r2.boxes]: the hit appended for one box of a
    crop taken at [(x1, y1)], if any.  [W*H = 0] makes the area division
    raise inside the [try], which skips the box. *)
Definition brand_hit_of (H W : Z) (allow : gset string) (area_min_frac : Q)
    (x1 y1 : Z) (via : string) (b : RawDet) : option BrandHit :=
  if negb (Qle_bool 0 (r_conf b) && Qle_bool (r_conf b) 1) then None
  else if negb (bool_decide (r_lbl b ∈ allow)) then None
  else
    let X1 := (x1 + r_x1 b)%Z in
    let Y1 := (y1 + r_y1 b)%Z in
    let X2 := (x1 + r_x2 b)%Z in
    let Y2 := (y1 + r_y2 b)%Z in
    if (W * H =? 0)%Z then None else
    let area := Qmax 0 (inject_Z ((X2 - X1) * (Y2 - Y1)) / inject_Z (W * H)) in
    if Qltb area area_min_frac then None
    else Some (mkBrandHit (r_lbl b) (py_round (r_conf b) 3)
                          (X1, Y1, X2, Y2) via).

(** The stage-2 loop over [proposals[:max_vehicle_crops]]: the hits
    appended and the crops [brand.predict] was run on, in order. *)
Fixpoint stage2 (H W : Z) (allow : gset string) (area_min_frac : Q)
    (props : list Proposal) : list BrandHit * list Crop :=
  match props with
  | [] => ([], [])
  | p :: more =>
      let '(hits, runs) := stage2 H W allow area_min_frac more in
      let crop := crop_of H W p in
      if (crop_size crop =? 0)%Z then (hits, runs)
      else match brand_predict crop with
           | None => (hits, crop :: runs)
           | Some boxes =>
               (omap (brand_hit_of H W allow area_min_frac
                        (p_x1 p) (p_y1 p) (p_via p)) boxes ++ hits,
                crop :: runs)
           end
  end.

(** What [two_stage_hits] returns, with the brand-stage runs it made. *)
Record Result := mkResult {
  hits : list BrandHit;
  proposals_used : list Proposal;
  brand_runs : list Crop }.

(** [two_stage_hits]: [H, W] is [frame_bgr.shape[:2]]; [det_runs] stands
    for the stage-1 detectors tried in [det_order]; [allow] is [None] or a
    set, and an empty set is falsy like [None].  Stage 0
    ([_boost_contrast_bgr]) works on pixel values, which the model does
    not carry; [cv2.cvtColor] raises there on a frame without pixels, so
    the definition stands for the frames with [1 <= H] and [1 <= W]. *)
Definition two_stage_hits (H W : Z) (det_runs : list (option (list RawDet)))
    (allow : option (gset string)) (area_min_frac : Q)
    (max_vehicle_crops : Z) : Result :=
  let allow :=
    match allow with
    | Some a => if bool_decide (a = ∅) then ALLOW_DEFAULT else a
    | None => ALLOW_DEFAULT
    end in
  let proposals := _collect_proposals H W det_runs in
  let proposals :=
    match proposals with
    | [] => [fallback_proposal H W]
    | _ => proposals
    end in
  let '(hits, runs) :=
    stage2 H W allow area_min_frac (slice_to proposals max_vehicle_crops) in
  mkResult hits proposals runs.

End WithBrand.

End ProposalCascade.

(** ** DailyCarrierTracker *)

Module DailyCarrierTracker.

(** A naive local [datetime]: the proleptic day number of its date and
    its time of day. *)
Record datetime := mkDatetime {
  ordinal : Z; hour : Z; minute : Z; second : Z; microsecond : Z }.

(** [a > b] on datetimes: lexicographic on the fields. *)
Definition dt_key (a : datetime) : list Z :=
  [ordinal a; hour a; minute a; second a; microsecond a].

Fixpoint lex_gtb (a b : list Z) : bool :=
  match a, b with
  | x :: a', y :: b' => (y <? x)%Z || ((x =? y)%Z && lex_gtb a' b')
  | _, _ => false
  end.

Definition dt_gtb (a b : datetime) : bool := lex_gtb (dt_key a) (dt_key b).

(** [d - timedelta(days=1)] *)
Definition minus_one_day (d : datetime) : datetime :=
  mkDatetime (ordinal d - 1) (hour d) (minute d) (second d) (microsecond d).

(** [d.replace(hour=0, minute=0, second=0, microsecond=0)] *)
Definition at_midnight (d : datetime) : datetime :=
  mkDatetime (ordinal d) 0 0 0 0.

(** The fields of a tracker object. *)
Record tracker := mkTracker {
  carriers : list string;
  reset_hour : Z;
  detections : gmap string (option Q);
  current_day : datetime }.

(** [{carrier: None for carrier in carriers}] *)
Definition cleared (carriers : list string) : gmap string (option Q) :=
  foldl (λ m carrier, <[carrier := None]> m) ∅ carriers.

(** [_get_current_day], with [now] the reading of [datetime.now()]. *)
Definition _get_current_day (reset_hour : Z) (now : datetime) : datetime :=
  let reference :=
    if (hour now <? reset_hour)%Z then minus_one_day now else now in
  at_midnight reference.

(** [__init__] *)
Definition init (carriers : list string) (reset_hour : Z) (now : datetime)
  : tracker :=
  mkTracker carriers reset_hour (cleared carriers)
            (_get_current_day reset_hour now).

(** [check_and_reset], with [now] the reading of [datetime.now()]: the
    value returned and the tracker afterwards. *)
Definition check_and_reset (now : datetime) (t : tracker) : bool * tracker :=
  let current_day := _get_current_day (reset_hour t) now in
  if dt_gtb current_day (DailyCarrierTracker.current_day t) then
    (true, mkTracker (carriers t) (reset_hour t) (cleared (carriers t))
                     current_day)
  else (false, t).

(** Truth value of a float. *)
Definition truthy (x : Q) : bool := negb (Qeq_bool x 0).

(** [timestamp or time.time()], with [now_ts] the reading of
    [time.time()]. *)
Definition ts_or_now (timestamp : option Q) (now_ts : Q) : Q :=
  match timestamp with
  | Some ts => if truthy ts then ts else now_ts
  | None => now_ts
  end.

(** [mark_detected], with [now_ts] the reading of [time.time()]: the value
    returned and the tracker afterwards; [None] is the KeyError of
    [self.detections[carrier]].  The log line is not modelled here: this
    is the call as [main] makes it, with a timestamp read from the clock,
    which the log line can format.  [TrackerLog.mark_detected] below is
    the call with its log line, for any timestamp. *)
Definition mark_detected (now_ts : Q) (carrier : string)
    (timestamp : option Q) (t : tracker) : option (bool * tracker) :=
  if bool_decide (carrier ∈ carriers t) then
    d ← detections t !! carrier;
    match d with
    | None =>
        Some (true,
              mkTracker (carriers t) (reset_hour t)
                (<[carrier := Some (ts_or_now timestamp now_ts)]> (detections t))
                (current_day t))
    | Some _ => Some (false, t)
    end
  else Some (false, t).

(** [is_detected]: [self.detections.get(carrier) is not None]. *)
Definition is_detected (carrier : string) (t : tracker) : bool :=
  match detections t !! carrier with
  | Some (Some _) => true
  | _ => false
  end.

(** One value of [summary["carriers"]]; the formatted ["time"] string is a
    function of ["timestamp"] and is left out; the call that formats it is
    in [TrackerLog.summary_entry]. *)
Record entry := mkEntry { detected : bool; timestamp : option Q }.

(** The summary dict; ["date"] is kept as the datetime it is printed
    from. *)
Record summary := mkSummary {
  date : datetime;
  s_carriers : gmap string entry }.

(** A call on the tracker, with the clock reading it takes. *)
Inductive call :=
  | CheckAndReset (now : datetime)
  | MarkDetected (now_ts : Q) (carrier : string) (timestamp : option Q).

(** The tracker after a call; [None] when the call raises. *)
Definition step (c : call) (t : tracker) : option tracker :=
  match c with
  | CheckAndReset now => Some (snd (check_and_reset now t))
  | MarkDetected now_ts carrier timestamp =>
      snd <$> mark_detected now_ts carrier timestamp t
  end.

(** The clock reading a call takes is a time after the epoch. *)
Definition clock_ok (c : call) : Prop :=
  match c with
  | CheckAndReset _ => True
  | MarkDetected now_ts _ _ => 0 < now_ts
  end.

(** The trackers the constructor, [mark_detected] and [check_and_reset]
    reach. *)
Inductive reachable : tracker → Prop :=
  | reach_init carriers reset_hour now :
      reachable (init carriers reset_hour now)
  | reach_step c t t' :
      reachable t → clock_ok c → step c t = Some t' → reachable t'.

(** Every tracked carrier has a [detections] entry, no other key has one,
    and a recorded timestamp is truthy. *)
Definition tracker_inv (t : tracker) : Prop :=
  (∀ c, is_Some (detections t !! c) ↔ c ∈ carriers t) ∧
  (∀ c ts, detections t !! c = Some (Some ts) → truthy ts = true).

(** The values [check_and_reset] returns over a run of clock readings, and
    the tracker at the end. *)
Fixpoint check_and_reset_all (nows : list datetime) (t : tracker)
  : list bool * tracker :=
  match nows with
  | [] => ([], t)
  | now :: nows' =>
      let '(b, t') := check_and_reset now t in
      let '(bs, t'') := check_and_reset_all nows' t' in
      (b :: bs, t'')
  end.

End DailyCarrierTracker.

(** ** DailyCarrierTracker: the calls that format a timestamp *)

Module TrackerLog.
Import DailyCarrierTracker.

Section WithPlatform.

(** [datetime.fromtimestamp(ts)] returns for a timestamp inside the range
    the platform's [localtime] and the years 1 to 9999 allow, and raises
    (OverflowError, OSError or ValueError) outside it.
    [fromtimestamp_ok ts] tells whether it returns. *)
Variable fromtimestamp_ok : Q → bool.

(** [mark_detected] with its log line, which formats the timestamp just
    stored: the value returned, [None] when the call raises, and the
    tracker the call leaves behind.  The KeyError of
    [self.detections[carrier]] comes before the store, the exception of
    the log line after it. *)
Definition mark_detected (now_ts : Q) (carrier : string)
    (timestamp : option Q) (t : tracker) : option bool * tracker :=
  if bool_decide (carrier ∈ carriers t) then
    match detections t !! carrier with
    | None => (None, t)
    | Some None =>
        let ts := ts_or_now timestamp now_ts in
        let t' :=
          mkTracker (carriers t) (reset_hour t)
            (<[carrier := Some ts]> (detections t)) (current_day t) in
        if fromtimestamp_ok ts then (Some true, t') else (None, t')
    | Some (Some _) => (Some false, t)
    end
  else (Some false, t).

(** The value [get_summary] stores for a carrier whose [detections] value
    is [d]; [None] when the ["time"] field's [fromtimestamp] raises. *)
Definition summary_entry (d : option Q) : option entry :=
  match d with
  | Some ts =>
      if truthy ts then
        if fromtimestamp_ok ts then Some (mkEntry true (Some ts)) else None
      else Some (mkEntry false None)
  | None => Some (mkEntry false None)
  end.

(** The loop of [get_summary] over [self.carriers]. *)
Fixpoint summary_loop (dets : gmap string (option Q)) (cs : list string)
    (acc : gmap string entry) : option (gmap string entry) :=
  match cs with
  | [] => Some acc
  | carrier :: cs' =>
      d ← dets !! carrier;
      e ← summary_entry d;
      summary_loop dets cs' (<[carrier := e]> acc)
  end.

(** [get_summary]; [None] is a KeyError or the exception of
    [fromtimestamp]. *)
Definition get_summary (t : tracker) : option summary :=
  cs ← summary_loop (detections t) (carriers t) ∅;
  Some (mkSummary (current_day t) cs).

(** The tracker a call leaves behind, whether it returns or raises. *)
Definition step (c : call) (t : tracker) : tracker :=
  match c with
  | CheckAndReset now => snd (check_and_reset now t)
  | MarkDetected now_ts carrier timestamp =>
      snd (mark_detected now_ts carrier timestamp t)
  end.

(** The clock reading a call takes is a time after the epoch, which
    [fromtimestamp] accepts. *)
Definition clock_ok (c : call) : Prop :=
  match c with
  | CheckAndReset _ => True
  | MarkDetected now_ts _ _ => 0 < now_ts ∧ fromtimestamp_ok now_ts = true
  end.

(** The trackers the constructor, [mark_detected] and [check_and_reset]
    reach, a call that raises included. *)
Inductive reachable : tracker → Prop :=
  | reach_init carriers reset_hour now :
      reachable (init carriers reset_hour now)
  | reach_step c t :
      reachable t → clock_ok c → reachable (step c t).

(** Every recorded timestamp is one [fromtimestamp] accepts. *)
Definition recorded_ok (t : tracker) : Prop :=
  ∀ c ts, detections t !! c = Some (Some ts) → fromtimestamp_ok ts = true.

End WithPlatform.

(** The range of [fromtimestamp] where [time_t] has 64 bits and the local
    zone is UTC: the years 1 to 9999. *)
Definition years_1_to_9999 (ts : Q) : bool :=
  Qle_bool (-62135596800) ts && Qltb ts 253402300800.

End TrackerLog.

(** ** StateReconciler: the sidecar *)

Module Sidecar.

(** The decoded JSON object of a message: the keys the handler looks at.
    [None] is an absent key.  ["ts"] may be present and [null]. *)
Record payload := mkPayload {
  p_entered : option (list string);
  p_current : option (list string);
  p_today : option (list string);
  p_ts : option (option Z);
  p_services : option (list string) }.

(** The module globals. *)
Record state := mkState {
  CURR : gset string;
  TODAY : gset string;
  LAST_RESET_DAY : option Z }.

(** What the handler reads from the clock: [_local_day()],
    [datetime.now().hour] and [_now_ts()]. *)
Record clock := mkClock { yday : Z; hour : Z; now_ts : Z }.

(** [set(map(str.lower, payload.get(key, [])))] *)
Definition lower_set (field : option (list string)) : gset string :=
  list_to_set (lower <$> default [] field).

(** [key in payload] *)
Definition has_key {A} (field : option A) : bool :=
  match field with Some _ => true | None => false end.

(** [_coerce_services] *)
Definition _coerce_services (clk : clock) (p : payload)
  : gset string * gset string * gset string * option Z :=
  if has_key (p_entered p) || has_key (p_current p) || has_key (p_today p)
  then
    let entered := lower_set (p_entered p) in
    let current := lower_set (p_current p) in
    let today := lower_set (p_today p) in
    let ts := default (Some (now_ts clk)) (p_ts p) in
    (entered, current, today, ts)
  else if has_key (p_services p) then
    let services := lower_set (p_services p) in
    (services, ∅, ∅, Some (now_ts clk))
  else (∅, ∅, ∅, None).

(** The test of [_ensure_reset_if_needed]:
    [LAST_RESET_DAY != day and hour >= RESET_H]. *)
Definition reset_due (RESET_H : Z) (clk : clock) (s : state) : bool :=
  negb (bool_decide (LAST_RESET_DAY s = Some (yday clk)))
  && (RESET_H <=? hour clk)%Z.

(** [_ensure_reset_if_needed] *)
Definition _ensure_reset_if_needed (RESET_H : Z) (clk : clock) (s : state)
  : state :=
  if reset_due RESET_H clk s
  then mkState (CURR s) ∅ (Some (yday clk))
  else s.

(** Truth value of a set. *)
Definition nonempty (x : gset string) : bool := negb (bool_decide (x = ∅)).

(** [on_message] for a payload that parsed: the state afterwards, and
    whether [_write_state] ran. *)
Definition on_message (RESET_H : Z) (clk : clock) (p : payload) (s : state)
  : state * bool :=
  let '(entered, current, today, ts) := _coerce_services clk p in
  match ts with
  | None => (s, false)
  | Some _ =>
      let s := _ensure_reset_if_needed RESET_H clk s in
      let s1 :=
        if nonempty entered
        then mkState (CURR s ∪ entered) (TODAY s ∪ entered) (LAST_RESET_DAY s)
        else s in
      let s2 :=
        if nonempty current
        then mkState current (TODAY s1) (LAST_RESET_DAY s1)
        else s1 in
      let s3 :=
        if nonempty today
        then mkState (CURR s2) today (LAST_RESET_DAY s2)
        else s2 in
      (s3, nonempty entered || nonempty current || nonempty today)
  end.

(** The two payload shapes, as [_coerce_services] tells them apart. *)
Definition event_shaped (p : payload) : Prop :=
  is_Some (p_entered p) ∨ is_Some (p_current p) ∨ is_Some (p_today p).

Definition services_shaped (p : payload) : Prop :=
  ¬ event_shaped p ∧ is_Some (p_services p).

(** A message is accepted when the handler does not drop it. *)
Definition accepted (clk : clock) (p : payload) : Prop :=
  is_Some (snd (_coerce_services clk p)).

(** Handling a run of messages, each with the clock reading it is handled
    at. *)
Definition handle_all (RESET_H : Z) (msgs : list (clock * payload)) (s : state)
  : state :=
  foldl (λ s m, fst (on_message RESET_H m.1 m.2 s)) s msgs.

(** No daily reset falls due over a run of messages: at each message the
    test of [_ensure_reset_if_needed] is false in the state the messages
    before it have left. *)
Fixpoint no_reset_falls_due (RESET_H : Z) (msgs : list (clock * payload))
    (s : state) : Prop :=
  match msgs with
  | [] => True
  | m :: more =>
      reset_due RESET_H m.1 s = false ∧
      no_reset_falls_due RESET_H more (fst (on_message RESET_H m.1 m.2 s))
  end.

End Sidecar.

(** ** Preprocessor: [letterbox] *)

Module Preprocessor.

(** The geometry [letterbox] computes: the size [(nw, nh)] the image is
    resized to, the scale, and the offset [(pad_x, pad_y)] at which the
    resized image is pasted on the canvas.  The pixels themselves are
    PIL's and are not modelled. *)
Record Letterboxed := mkLetterboxed {
  resized : Z * Z;
  scale : Q;
  pad : Z * Z }.

(** [letterbox(im, new_shape)], with [(iw, ih)] the size of [im].
    [w / iw] is a division of Python ints and raises on zero;
    [im.resize((nw, nh))] raises (ValueError) unless both sides are
    positive; [//] is floor division. *)
Definition letterbox (iw ih : Z) (new_shape : Z * Z) : option Letterboxed :=
  let '(w, h) := new_shape in
  if ((iw =? 0) || (ih =? 0))%Z then None else
  let scale := Qmin (inject_Z w / inject_Z iw) (inject_Z h / inject_Z ih) in
  let nw := py_int (inject_Z iw * scale) in
  let nh := py_int (inject_Z ih * scale) in
  if ((nw <=? 0) || (nh <=? 0))%Z then None else
  let pad_x := ((w - nw) / 2)%Z in
  let pad_y := ((h - nh) / 2)%Z in
  Some (mkLetterboxed (nw, nh) scale (pad_x, pad_y)).

End Preprocessor.

(** ** Sample frames *)

Module Samples.
Import TensorDecoder.

(** A 640 x 640 frame with two candidates of class 0 that do not
    overlap, confidences 0.8 and 0.9, listed in the output in ascending
    order of confidence. *)
Definition two_trucks : ndarray2 :=
  mkArr 8 6 ([480; 480; 128; 128; 1; 8 # 10]
             :: [160; 160; 128; 128; 1; 9 # 10]
             :: replicate 6 cold_row).

End Samples.

(** ** Terms for the properties of the cascade *)

Module CascadeTerms.
Import ProposalCascade.

(** A detector run that contributes no proposal: the model failed to
    load, or none of its boxes passed the filters. *)
Definition no_proposal (H W : Z) (run : option (list RawDet)) : Prop :=
  ∀ boxes, run = Some boxes → omap (proposal_of H W) boxes = [].

(** The set [allow or ALLOW_DEFAULT]. *)
Definition allow_or_default (allow : option (gset string)) : gset string :=
  match allow with
  | Some a => if bool_decide (a = ∅) then ALLOW_DEFAULT else a
  | None => ALLOW_DEFAULT
  end.

(** The proposal list stage 2 works on. *)
Definition proposals_or_fallback (H W : Z)
    (det_runs : list (option (list RawDet))) : list Proposal :=
  match _collect_proposals H W det_runs with
  | [] => [fallback_proposal H W]
  | ps => ps
  end.

End CascadeTerms.

(** ** The detection loop: what [main] does with the tracker *)

Module DetectionLoop.
Import DailyCarrierTracker.

(** The loop [for hit in hits: CARRIER_TRACKER.mark_detected(hit["label"],
    current_timestamp)] of [main].  Each hit is given by its label and the
    reading [time.time()] would give inside its [mark_detected] call;
    [None] is a KeyError. *)
Fixpoint track_hits (current_timestamp : Q) (hits : list (Q * string))
    (t : tracker) : option tracker :=
  match hits with
  | [] => Some t
  | (now_ts, carrier) :: more =>
      r ← mark_detected now_ts carrier (Some current_timestamp) t;
      track_hits current_timestamp more r.2
  end.

(** A run of calls on one tracker object; [None] when one of them
    raises. *)
Fixpoint run_calls (cs : list call) (t : tracker) : option tracker :=
  match cs with
  | [] => Some t
  | c :: more => t' ← step c t; run_calls more t'
  end.

End DetectionLoop.

(** ** StateReconciler: the state file and start-up *)

Module Persistence.
Import Sidecar.

(** [a <= b] on Python strings: lexicographic by code point.  The
    strings of the model are byte strings, whose order agrees with the
    code-point order of the text they encode. *)
Definition str_le (a b : string) : Prop := Is_true (String.leb a b).

(** [sorted(x)] for a set of strings. *)
Definition sorted (x : gset string) : list string :=
  merge_sort str_le (elements x).

(** The JSON object of the state file: the keys that are written and
    read.  [None] is an absent key. *)
Record state_file := mkStateFile {
  f_ts : option Z;
  f_current : option (list string);
  f_today : option (list string) }.

(** [_write_state]: the object dumped to the state file. *)
Definition _write_state (clk : clock) (s : state) : state_file :=
  mkStateFile (Some (now_ts clk)) (Some (sorted (CURR s)))
              (Some (sorted (TODAY s))).

(** [_load_state]: [file] is what [json.load] returns, [None] when
    opening or parsing the file raises. *)
Definition _load_state (clk : clock) (file : option state_file) : state :=
  match file with
  | Some f =>
      mkState (list_to_set (default [] (f_current f)))
              (list_to_set (default [] (f_today f)))
              (Some (yday clk))
  | None => mkState ∅ ∅ (Some (yday clk))
  end.

(** The start of [main], before the MQTT loop: load, reset if needed,
    write.  Each step reads the clock on its own.  The result is the
    state the message handler starts from and the file written. *)
Definition main (RESET_H : Z) (clk_load clk_reset clk_write : clock)
    (file : option state_file) : state * state_file :=
  let s := _load_state clk_load file in
  let s := _ensure_reset_if_needed RESET_H clk_reset s in
  (s, _write_state clk_write s).

(** The names a payload carries, in its four arrays. *)
Definition payload_names (p : payload) : list string :=
  default [] (p_entered p) ++ default [] (p_current p) ++
  default [] (p_today p) ++ default [] (p_services p).

(** An ASCII name: every character has a code below 128.  On these
    [lower] is [str.lower]. *)
Definition is_ascii (x : string) : Prop :=
  Forall (λ c, (nat_of_ascii c < 128)%nat) (list_ascii_of_string x).

(** An ASCII name in lower case: no character is one of [A] to [Z]. *)
Definition ascii_lower (x : string) : Prop :=
  Forall (λ c, (nat_of_ascii c < 128)%nat ∧
               ¬ (65 <= nat_of_ascii c <= 90)%nat)
         (list_ascii_of_string x).
End Persistence.

(** * Properties *)

(** ** Comparisons and masks *)

Example py_round_half_even :
  py_round (25 # 10000) 3 == 2 # 1000 ∧ py_round (35 # 10000) 3 == 4 # 1000 ∧
  py_round (2996 # 10000) 3 == 3 # 10.
Proof. repeat split. Qed.

Example lower_mixed_case : lower "FedEx" = "fedex".
Proof. reflexivity. Qed.

Lemma Qltb_lt a b : Qltb a b = true ↔ a < b.
Proof.
  unfold Qltb. rewrite negb_true_iff, <- not_true_iff_false, Qle_bool_iff.
  split; [apply Qnot_le_lt | apply Qlt_not_le].
Qed.

Lemma Qgeb_le a b : Qgeb a b = true ↔ b <= a.
Proof. unfold Qgeb. apply Qle_bool_iff. Qed.

Lemma Qgtb_lt a b : Qgtb a b = true ↔ b < a.
Proof.
  unfold Qgtb. rewrite negb_true_iff, <- not_true_iff_false, Qle_bool_iff.
  split; [apply Qnot_le_lt | apply Qlt_not_le].
Qed.

Lemma Qgtb_false a b : Qgtb a b = false ↔ a <= b.
Proof. unfold Qgtb. rewrite negb_false_iff. apply Qle_bool_iff. Qed.

Lemma Qltb_false a b : Qltb a b = false ↔ b <= a.
Proof. unfold Qltb. rewrite negb_false_iff. apply Qle_bool_iff. Qed.

Lemma mask_select_sublist {A} (a : list A) mask : sublist (mask_select a mask) a.
Proof.
  revert mask. induction a as [|x a IH]; intros [|[] m]; simpl;
    try apply sublist_nil_l.
  - by apply sublist_skip.
  - by apply sublist_cons.
Qed.

Lemma mask_select_map_Forall {A} (f : A → bool) (l : list A) :
  Forall (λ x, f x = true) (mask_select l (map f l)).
Proof.
  induction l as [|x l IH]; simpl; [constructor|].
  destruct (f x) eqn:E; [by constructor | done].
Qed.

Lemma mask_select_length_eq {A B} (a : list A) (b : list B) mask :
  length a = length b →
  length (mask_select a mask) = length (mask_select b mask).
Proof.
  revert b mask. induction a as [|x a IH]; intros [|y b] [|[] m] Hl; simpl in *;
    try done; try lia.
  - f_equal. apply IH. lia.
  - apply IH. lia.
Qed.

Lemma mask_select_Forall {A} (P : A → Prop) l mask :
  Forall P l → Forall P (mask_select l mask).
Proof.
  intros H. revert mask. induction H as [|x l Hx _ IH]; intros [|[] m]; simpl;
    try constructor; try done; apply IH.
Qed.

(** ** Suppressor *)

Section SuppressorFacts.
Import Suppressor.

Lemma iou_sym a b : iou a b == iou b a.
Proof.
  unfold iou.
  rewrite (Q.max_comm (bx1 a)), (Q.max_comm (by1 a)),
          (Q.min_comm (bx2 a)), (Q.min_comm (by2 a)).
  set (inter := Qmax 0 _ * Qmax 0 _).
  assert (area a + area b - inter + eps == area b + area a - inter + eps) as -> by ring.
  reflexivity.
Qed.

Lemma mask_select_pending (xyxy : list Box) thr bi rest brs j :
  mapM (λ r, xyxy !! r) rest = Some brs →
  j ∈ mask_select rest (map (λ v, Qltb v thr) (map (iou bi) brs)) →
  ∃ bj, xyxy !! j = Some bj ∧ iou bi bj < thr.
Proof.
  rewrite mapM_Some. intros HF. induction HF as [|r b rest brs Hr _ IH]; simpl.
  - intros H. by apply elem_of_nil in H.
  - destruct (Qltb (iou bi b) thr) eqn:E; [|exact IH].
    rewrite elem_of_cons. intros [-> | Hj]; [|by apply IH].
    exists b. split; [done|]. by apply Qltb_lt.
Qed.

Lemma nms_loop_spec xyxy thr idx keep :
  nms_loop xyxy thr idx = Some keep →
  sublist keep idx ∧ head keep = head idx ∧ ForallOrdPairs (below xyxy thr) keep.
Proof.
  revert keep.
  apply (nms_loop_elim
    (λ xyxy thr idx res, ∀ keep, res = Some keep →
       sublist keep idx ∧ head keep = head idx ∧ ForallOrdPairs (below xyxy thr) keep)).
  - intros ? ? keep [= <-]. repeat split; [done | constructor].
  - intros ? ? i keep [= <-]. repeat split; [done | ].
    constructor; [constructor | constructor].
  - clear. intros xyxy thr i bi n0 l brs IH Hbrs Hbi keep. cbv zeta in *.
    destruct (nms_loop _ _ _) as [keep'|] eqn:E; simpl; [|done].
    intros [= <-]. destruct (IH keep' eq_refl) as (Hsub & _ & Hpairs).
    split; [|split; [done|]].
    + apply sublist_skip. etrans; [exact Hsub | apply mask_select_sublist].
    + constructor; [|done].
      apply Forall_forall. intros j Hj.
      assert (j ∈ mask_select (n0 :: l)
                (map (λ v, Qltb v thr) (map (iou bi) brs))) as Hj'.
      { eapply elem_of_sublist; [exact Hj | exact Hsub]. }
      destruct (mask_select_pending _ _ _ _ _ _ Hbrs Hj') as (bj & ? & ?).
      by exists bi, bj.
  - intros; discriminate.
  - intros; discriminate.
Qed.

Lemma nms_loop_total xyxy thr idx :
  Forall (λ i, (i < length xyxy)%nat) idx → is_Some (nms_loop xyxy thr idx).
Proof.
  apply (nms_loop_elim
    (λ xyxy thr idx res, Forall (λ i, (i < length xyxy)%nat) idx → is_Some res)).
  - by eexists.
  - by eexists.
  - clear. intros xyxy thr i bi n0 l brs IH Hbrs Hbi HF. cbv zeta in *.
    destruct IH as [k Hk].
    { apply Forall_cons in HF as [_ HF]. rewrite Forall_forall in HF |- *.
      intros j Hj. apply HF. eapply elem_of_sublist; [exact Hj|].
      apply mask_select_sublist. }
    rewrite Hk. by eexists.
  - clear. intros xyxy thr i b n0 l Hm _ HF. exfalso.
    apply Forall_cons in HF as [_ HF].
    apply mapM_None in Hm. apply Exists_exists in Hm as (j & Hj & Hnone).
    rewrite Forall_forall in HF. apply HF in Hj.
    apply lookup_ge_None in Hnone. lia.
  - clear. intros xyxy thr i n0 l r _ Hnone HF. exfalso.
    apply Forall_cons in HF as [Hi _]. apply lookup_ge_None in Hnone. lia.
Qed.

#[local] Instance key_le_total a : Total (key_le a).
Proof.
  intros i j. unfold key_le. rewrite !Is_true_true, !Qle_bool_iff.
  destruct (Qlt_le_dec (nth i a 0) (nth j a 0)); [left; by apply Qlt_le_weak | by right].
Qed.

#[local] Instance key_le_trans a : Transitive (key_le a).
Proof.
  intros i j k. unfold key_le. rewrite !Is_true_true, !Qle_bool_iff. apply Qle_trans.
Qed.

Lemma argsort_perm a : argsort a ≡ₚ seq 0 (length a).
Proof. apply merge_sort_Permutation. Qed.

Lemma argsort_sorted a : StronglySorted (key_le a) (argsort a).
Proof. apply StronglySorted_merge_sort; apply _. Qed.

Lemma argsort_head a i rest j :
  argsort a = i :: rest → (j < length a)%nat → nth i a 0 <= nth j a 0.
Proof.
  intros E Hj. pose proof (argsort_sorted a) as HS. rewrite E in HS.
  assert (j ∈ i :: rest) as Hin.
  { rewrite <- E, argsort_perm. apply elem_of_seq. lia. }
  apply elem_of_cons in Hin as [-> | Hin]; [apply Qle_refl|].
  apply StronglySorted_inv in HS as [_ HF]. rewrite Forall_forall in HF.
  specialize (HF _ Hin). unfold key_le in HF.
  by rewrite Is_true_true, Qle_bool_iff in HF.
Qed.

Lemma nth_map_opp scores i : nth i (map Qopp scores) 0 == - nth i scores 0.
Proof.
  revert i. induction scores as [|s scores IH]; intros [|i]; simpl; try reflexivity.
  apply IH.
Qed.

Lemma ForallOrdPairs_sym_elem {A} (R : A → A → Prop) l x y :
  ForallOrdPairs R l → x ∈ l → y ∈ l → x ≠ y → R x y ∨ R y x.
Proof.
  induction 1 as [|a l Ha _ IH]; [by intros ?%elem_of_nil|].
  rewrite Forall_forall in Ha.
  intros [->|Hx]%elem_of_cons [->|Hy]%elem_of_cons Hne; try done; auto.
Qed.

(** The sorted index list covers exactly the valid indices, so the loop
    never reads past the arrays. *)
Lemma nms_returns_range (xyxy : list Box) (scores : list Q) (thr : Q) :
  length xyxy = length scores →
  ∃ keep, nms xyxy scores thr = Some keep ∧
          ∀ i, i ∈ keep → (i < length xyxy)%nat.
Proof.
  intros Hlen. unfold nms.
  pose proof (argsort_perm (map Qopp scores)) as Hperm.
  rewrite length_map in Hperm.
  assert (Forall (λ i, (i < length xyxy)%nat) (argsort (map Qopp scores))) as Hrange.
  { rewrite Forall_forall. intros i Hi. rewrite Hperm in Hi.
    apply elem_of_seq in Hi. lia. }
  destruct (nms_loop_total xyxy thr _ Hrange) as [keep Hkeep].
  exists keep. split; [done|].
  destruct (nms_loop_spec _ _ _ _ Hkeep) as (Hsub & _ & _).
  intros i Hi. rewrite Forall_forall in Hrange. apply Hrange.
  eapply elem_of_sublist; eauto.
Qed.

Example nms_overlap :
  nms [mkBox 0 0 10 10; mkBox 1 1 11 11; mkBox 20 20 30 30]
      [8 # 10; 9 # 10; 7 # 10] (45 # 100) = Some [1%nat; 2%nat].
Proof. vm_compute. reflexivity. Qed.

(** The overlap the loop computes is the shared area over the covered
    area plus [1e-6]. *)
Lemma iou_stabilised bi br :
  iou bi br = inter_area bi br / (union_area bi br + (1 # 1000000)).
Proof. reflexivity. Qed.

Lemma stabilised_bound (i u thr : Q) :
  0 < u → i / (u + (1 # 1000000)) < thr →
  i / u < thr * (1 + (1 # 1000000) / u).
Proof.
  intros Hu H.
  assert (0 < u + (1 # 1000000)) as Hue by lra.
  assert (i < thr * (u + (1 # 1000000))) as Hi.
  { apply (Qmult_lt_r _ _ _ Hue) in H.
    unfold Qdiv in H.
    rewrite <- Qmult_assoc, (Qmult_comm (/ _)), Qmult_inv_r, Qmult_1_r in H
      by lra.
    exact H. }
  apply Qlt_shift_div_r; [exact Hu|].
  assert (thr * (1 + (1 # 1000000) / u) * u == thr * (u + (1 # 1000000))) as ->
    by (field; lra).
  exact Hi.
Qed.

(** C1, as the code has it.  For parallel arrays [xyxy] and [scores] and
    any threshold, [nms] returns a list [keep] of distinct valid indices
    such that: for any two distinct kept boxes the shared area over the
    covered area plus [1e-6] is strictly below the threshold, so that
    their IoU, when they cover a positive area [u], is below the
    threshold times [1 + 1e-6 / u]; a box whose score is strictly the
    highest is kept, and in general the first kept index carries a
    maximal score; and no candidates give no kept index. *)
Theorem nms_suppresses (xyxy : list Box) (scores : list Q) (thr : Q) :
  length xyxy = length scores →
  ∃ keep, nms xyxy scores thr = Some keep ∧
    NoDup keep ∧
    (∀ i, i ∈ keep → (i < length xyxy)%nat) ∧
    (∀ i j bi bj, i ∈ keep → j ∈ keep → i ≠ j →
       xyxy !! i = Some bi → xyxy !! j = Some bj →
       inter_area bi bj / (union_area bi bj + (1 # 1000000)) < thr ∧
       (0 < union_area bi bj →
        IoU bi bj < thr * (1 + (1 # 1000000) / union_area bi bj))) ∧
    (∀ i, (i < length scores)%nat →
       (∀ j, (j < length scores)%nat → j ≠ i → nth j scores 0 < nth i scores 0) →
       i ∈ keep) ∧
    (xyxy ≠ [] → ∃ i, head keep = Some i ∧
       ∀ j, (j < length scores)%nat → nth j scores 0 <= nth i scores 0) ∧
    (xyxy = [] → keep = []).
Proof.
  intros Hlen. unfold nms.
  pose proof (argsort_perm (map Qopp scores)) as Hperm.
  rewrite length_map in Hperm.
  assert (Forall (λ i, (i < length xyxy)%nat) (argsort (map Qopp scores))) as Hrange.
  { rewrite Forall_forall. intros i Hi. rewrite Hperm in Hi.
    apply elem_of_seq in Hi. lia. }
  destruct (nms_loop_total xyxy thr _ Hrange) as [keep Hkeep].
  exists keep. split; [done|].
  destruct (nms_loop_spec _ _ _ _ Hkeep) as (Hsub & Hhead & Hpairs).
  assert (∀ i, i ∈ keep → (i < length xyxy)%nat) as Hk.
  { intros i Hi. rewrite Forall_forall in Hrange. apply Hrange.
    eapply elem_of_sublist; eauto. }
  assert (∀ i j, argsort (map Qopp scores) = i :: j →
            ∀ k, (k < length scores)%nat → nth k scores 0 <= nth i scores 0) as Hmax.
  { intros i rest E k Hk'.
    pose proof (argsort_head (map Qopp scores) i rest k E) as H.
    rewrite length_map in H. specialize (H Hk').
    rewrite !nth_map_opp in H. lra. }
  assert (∀ i j bi bj, i ∈ keep → j ∈ keep → i ≠ j →
            xyxy !! i = Some bi → xyxy !! j = Some bj → iou bi bj < thr) as Hiou.
  { intros i j bi bj Hi Hj Hne Hbi Hbj.
    destruct (ForallOrdPairs_sym_elem _ _ _ _ Hpairs Hi Hj Hne)
      as [(b1 & b2 & H1 & H2 & Hlt) | (b1 & b2 & H1 & H2 & Hlt)].
    - rewrite Hbi in H1. rewrite Hbj in H2. by inversion H1; inversion H2; subst.
    - rewrite Hbj in H1. rewrite Hbi in H2. inversion H1; inversion H2; subst.
      by rewrite iou_sym. }
  split; [|split; [exact Hk|split; [|repeat split]]].
  - eapply sublist_NoDup; [|exact Hsub]. rewrite Hperm. apply NoDup_seq.
  - intros i j bi bj Hi Hj Hne Hbi Hbj.
    pose proof (Hiou i j bi bj Hi Hj Hne Hbi Hbj) as H.
    rewrite iou_stabilised in H. split; [exact H|].
    intros Hu. by apply stabilised_bound.
  - intros i Hi Hstrict.
    destruct (argsort (map Qopp scores)) as [|i0 rest] eqn:E.
    { apply Permutation_nil_l in Hperm.
      destruct scores; simpl in Hperm, Hi; [lia | inversion Hperm]. }
    destruct keep as [|k0 keep']; simpl in Hhead; [done|].
    injection Hhead as ->.
    destruct (decide (i0 = i)) as [->|Hne]; [left|].
    exfalso. assert (i0 < length scores)%nat as Hi0.
    { assert (i0 ∈ i0 :: rest) as Hin by left. rewrite Hperm in Hin.
      apply elem_of_seq in Hin. lia. }
    pose proof (Hstrict i0 Hi0 Hne). pose proof (Hmax i0 rest eq_refl i Hi). lra.
  - intros Hne.
    destruct (argsort (map Qopp scores)) as [|i0 rest] eqn:E.
    { apply Permutation_nil_l in Hperm.
      destruct scores, xyxy; simpl in Hperm, Hlen; try done; inversion Hperm. }
    destruct keep as [|k0 keep']; simpl in Hhead; [done|].
    injection Hhead as ->.
    exists i0. split; [done|]. by apply (Hmax i0 rest).
  - intros ->. destruct scores; [|done]. vm_compute in Hkeep. by injection Hkeep as <-.
Qed.

Lemma nms_suppresses_witness :
  let xyxy := [mkBox 0 0 10 10; mkBox 1 1 11 11; mkBox 20 20 30 30] in
  let scores := [8 # 10; 9 # 10; 7 # 10] in
  length xyxy = length scores ∧
  nms xyxy scores (45 # 100) = Some [1%nat; 2%nat] ∧
  inter_area (mkBox 1 1 11 11) (mkBox 20 20 30 30)
    / (union_area (mkBox 1 1 11 11) (mkBox 20 20 30 30) + (1 # 1000000))
    < 45 # 100 ∧
  IoU (mkBox 1 1 11 11) (mkBox 20 20 30 30)
    < (45 # 100)
      * (1 + (1 # 1000000) / union_area (mkBox 1 1 11 11) (mkBox 20 20 30 30)) ∧
  ¬ IoU (mkBox 0 0 10 10) (mkBox 1 1 11 11) < 45 # 100.
Proof.
  intros xyxy scores. split; [reflexivity|].
  destruct (nms_suppresses xyxy scores (45 # 100) eq_refl)
    as (keep & H1 & _ & _ & H3 & _).
  assert (keep = [1%nat; 2%nat]) as ->.
  { vm_compute in H1. by injection H1 as <-. }
  split; [exact H1|].
  destruct (H3 1%nat 2%nat (mkBox 1 1 11 11) (mkBox 20 20 30 30)) as [Ha Hb].
  - left.
  - right; left.
  - done.
  - reflexivity.
  - reflexivity.
  - split; [exact Ha|]. split; [apply Hb; reflexivity|]. vm_compute. discriminate.
Defined.

(** Two boxes with the same corners have IoU 1, above any threshold below
    1, and both are kept: two 10 x 10 boxes at a threshold of 0.999999995,
    and two boxes 0.0007 of a pixel wide and high at the threshold 0.45
    the detector uses. *)
Lemma nms_keeps_identical_boxes :
  let b := mkBox 0 0 10 10 in
  let s := mkBox 0 0 (7 # 10000) (7 # 10000) in
  (nms [b; b] [9 # 10; 8 # 10] (999999995 # 1000000000)
     = Some [0%nat; 1%nat] ∧
   IoU b b == 1 ∧ 999999995 # 1000000000 < IoU b b) ∧
  (nms [s; s] [9 # 10; 8 # 10] (45 # 100) = Some [0%nat; 1%nat] ∧
   IoU s s == 1 ∧ 45 # 100 < IoU s s).
Proof. intros b s. repeat split. Qed.

End SuppressorFacts.

(** ** TensorDecoder *)

Section DecoderFacts.
Import Suppressor TensorDecoder.
Variable np_exp : Q → Q.


Lemma transpose_wf (o : ndarray2) : wf_ndarray2 o → wf_ndarray2 (transpose o).
Proof.
  intros [Hlen _]. split; simpl.
  - by rewrite length_map, length_seq.
  - apply Forall_forall. intros r Hr. apply list_elem_of_fmap in Hr as (j & -> & _).
    by rewrite length_map.
Qed.

Lemma transpose_entry (o : ndarray2) i j :
  (i < length (rows o))%nat → (j < shape1 o)%nat →
  entry (transpose o) j i = entry o i j.
Proof.
  intros Hi Hj. unfold entry, transpose. simpl.
  rewrite (nth_indep _ [] (map (λ r, nth 0 r 0) (rows o)))
    by (rewrite length_map, length_seq; lia).
  rewrite (map_nth (λ j, map (λ r, nth j r 0) (rows o)) (seq 0 (shape1 o)) 0%nat j).
  rewrite seq_nth by lia. simpl.
  rewrite (nth_indep _ 0 ((λ r, nth j r 0) [])) by (rewrite length_map; lia).
  by rewrite (map_nth (λ r, nth j r 0)).
Qed.

(** C8.  Once [output[0]] (or its first batch slice) is picked, the
    array is transposed when its first axis is shorter than its second:
    the two axis lengths change places and the entry at [(j, i)] of the
    result is the entry at [(i, j)] of the array; otherwise the array is
    left alone.  The second axis is then the shorter of the two, and
    whenever it has fewer than 6 entries [decode_yolo_output] returns the
    three empty arrays, without raising. *)
Theorem decode_orientation_degenerate (output : list tensor) (conf_threshold : Q)
    (img_width img_height imgsz : Z) (o : ndarray2) :
  select_output output = Some o →
  ((shape0 o < shape1 o)%nat →
     shape0 (normalize o) = shape1 o ∧ shape1 (normalize o) = shape0 o ∧
     length (rows (normalize o)) = shape1 o ∧
     Forall (λ r, length r = length (rows o)) (rows (normalize o)) ∧
     ∀ i j, (i < length (rows o))%nat → (j < shape1 o)%nat →
       entry (normalize o) j i = entry o i j) ∧
  ((shape1 o <= shape0 o)%nat → normalize o = o) ∧
  shape1 (normalize o) = Nat.min (shape0 o) (shape1 o) ∧
  ((Nat.min (shape0 o) (shape1 o) < 6)%nat →
   decode_yolo_output np_exp output conf_threshold img_width img_height imgsz
     = Some (mkDecoded [] [] [])).
Proof.
  intros Hsel.
  assert (shape1 (normalize o) = Nat.min (shape0 o) (shape1 o)) as Hmin.
  { unfold normalize. destruct (Nat.ltb_spec (shape0 o) (shape1 o)); simpl; lia. }
  split; [|split; [|split; [exact Hmin|]]].
  - intros H. unfold normalize.
    destruct (Nat.ltb_spec (shape0 o) (shape1 o)); [|lia].
    split; [done|]. split; [done|]. split; [|split].
    + simpl. by rewrite length_map, length_seq.
    + simpl. apply Forall_forall. intros r (j & -> & _)%list_elem_of_fmap.
      by rewrite length_map.
    + intros i j Hi Hj. by apply transpose_entry.
  - intros H. unfold normalize.
    by destruct (Nat.ltb_spec (shape0 o) (shape1 o)); [lia|].
  - intros Hsmall. unfold decode_yolo_output. rewrite Hsel. simpl.
    rewrite Hmin. by destruct (Nat.ltb_spec (Nat.min (shape0 o) (shape1 o)) 6); [|lia].
Qed.

Lemma ensure_probs_length obj cls obj' cls' :
  ensure_probs np_exp obj cls = Some (obj', cls') →
  length obj' = length obj ∧ length cls' = length cls.
Proof.
  unfold ensure_probs. cbv zeta. intros H.
  destruct (np_max obj); simpl in H; [|done].
  destruct (Qgtb _ _) in H; [injection H as <- <-; by rewrite !length_map|].
  destruct (np_min obj); simpl in H; [|done].
  destruct (Qltb _ _) in H; [injection H as <- <-; by rewrite !length_map|].
  destruct (np_max (concat cls)); simpl in H; [|done].
  destruct (Qgtb _ _) in H; [injection H as <- <-; by rewrite !length_map|].
  destruct (np_min (concat cls)); simpl in H; [|done].
  destruct (Qltb _ _) in H; injection H as <- <-; by rewrite ?length_map.
Qed.

Lemma decode_spec output thr w h imgsz d :
  decode_yolo_output np_exp output thr w h imgsz = Some d →
  length (d_xyxy d) = length (d_conf d) ∧
  length (d_cls_ids d) = length (d_conf d) ∧
  Forall (λ c, thr <= c) (d_conf d).
Proof.
  unfold decode_yolo_output. intros H.
  destruct (select_output output) as [o|]; simpl in H; [|done].
  destruct (shape1 (normalize o) <? 6)%nat.
  { injection H as <-. simpl. repeat split; constructor. }
  destruct (ensure_probs _ _ _) as [[obj cls]|] eqn:Ep; simpl in H; [|done].
  destruct (mapM argmax cls) as [cls_ids|] eqn:Ea; simpl in H; [|done].
  destruct (negb _) in H.
  { injection H as <-. simpl. repeat split; constructor. }
  destruct (_ || _)%bool in H; [done|]. injection H as <-. simpl.
  apply ensure_probs_length in Ep as [Ho Hc]. rewrite !length_map in Ho, Hc.
  apply length_mapM in Ea.
  set (conf := zip_with Qmult obj _).
  assert (length conf = length (rows (normalize o))) as Hconf.
  { unfold conf. rewrite !length_zip_with. lia. }
  repeat split.
  - rewrite length_map. apply mask_select_length_eq. by rewrite length_map.
  - apply mask_select_length_eq. lia.
  - eapply Forall_impl; [apply (mask_select_map_Forall (λ c, Qgeb c thr))|].
    intros c Hc'. by apply Qgeb_le.
Qed.

Lemma foldl_Qmax_le x l b :
  foldl Qmax x l <= b ↔ x <= b ∧ Forall (λ y, y <= b) l.
Proof.
  revert x. induction l as [|a l IH]; intros x; simpl.
  - split; [intros H; split; [done | constructor] | by intros [H _]].
  - rewrite IH, Q.max_lub_iff, Forall_cons. tauto.
Qed.

Lemma foldl_Qmin_ge x l b :
  b <= foldl Qmin x l ↔ b <= x ∧ Forall (λ y, b <= y) l.
Proof.
  revert x. induction l as [|a l IH]; intros x; simpl.
  - split; [intros H; split; [done | constructor] | by intros [H _]].
  - rewrite IH, Q.min_glb_iff, Forall_cons. tauto.
Qed.

Lemma np_max_le a m b : np_max a = Some m → (m <= b ↔ Forall (λ y, y <= b) a).
Proof.
  destruct a as [|x a]; simpl; [done|]. intros [= <-].
  by rewrite foldl_Qmax_le, Forall_cons.
Qed.

Lemma np_min_ge a m b : np_min a = Some m → (b <= m ↔ Forall (λ y, b <= y) a).
Proof.
  destruct a as [|x a]; simpl; [done|]. intros [= <-].
  by rewrite foldl_Qmin_ge, Forall_cons.
Qed.

Lemma Forall_in_slack l :
  Forall in_slack l ↔ Forall (λ y, - (1 # 2) <= y) l ∧ Forall (λ y, y <= 3 # 2) l.
Proof. unfold in_slack. rewrite <- Forall_and. done. Qed.

(** [ensure_probs] leaves its arguments alone exactly when every value
    lies in [-0.5, 1.5], and applies [sigmoid] to all of them otherwise. *)
Lemma ensure_probs_spec obj cls r :
  ensure_probs np_exp obj cls = Some r →
  (Forall in_slack obj ∧ Forall in_slack (concat cls) ∧ r = (obj, cls)) ∨
  (¬ (Forall in_slack obj ∧ Forall in_slack (concat cls)) ∧
   r = (map (sigmoid np_exp) obj, map (map (sigmoid np_exp)) cls)).
Proof.
  unfold ensure_probs. cbv zeta. intros H.
  destruct (np_max obj) as [max_obj|] eqn:E1; simpl in H; [|done].
  pose proof (np_max_le _ _ (3 # 2) E1) as M1.
  destruct (Qgtb max_obj (3 # 2)) eqn:G1.
  { injection H as <-. right. split; [|done]. rewrite !Forall_in_slack.
    intros [[_ A1] _]. apply M1 in A1. apply Qgtb_lt in G1. lra. }
  destruct (np_min obj) as [min_obj|] eqn:E2; simpl in H; [|done].
  pose proof (np_min_ge _ _ (- (1 # 2)) E2) as M2.
  destruct (Qltb min_obj (- (1 # 2))) eqn:G2.
  { injection H as <-. right. split; [|done]. rewrite !Forall_in_slack.
    intros [[A2 _] _]. apply M2 in A2. apply Qltb_lt in G2. lra. }
  destruct (np_max (concat cls)) as [max_cls|] eqn:E3; simpl in H; [|done].
  pose proof (np_max_le _ _ (3 # 2) E3) as M3.
  destruct (Qgtb max_cls (3 # 2)) eqn:G3.
  { injection H as <-. right. split; [|done]. rewrite !Forall_in_slack.
    intros [_ [_ A3]]. apply M3 in A3. apply Qgtb_lt in G3. lra. }
  destruct (np_min (concat cls)) as [min_cls|] eqn:E4; simpl in H; [|done].
  pose proof (np_min_ge _ _ (- (1 # 2)) E4) as M4.
  destruct (Qltb min_cls (- (1 # 2))) eqn:G4.
  { injection H as <-. right. split; [|done]. rewrite !Forall_in_slack.
    intros [_ [A4 _]]. apply M4 in A4. apply Qltb_lt in G4. lra. }
  injection H as <-. left.
  apply Qgtb_false in G1, G3. apply Qltb_false in G2, G4.
  rewrite !Forall_in_slack. repeat split; try done;
    [by apply M2 | by apply M1 | by apply M4 | by apply M3].
Qed.

Lemma normalize_wf (o : ndarray2) : wf_ndarray2 o → wf_ndarray2 (normalize o).
Proof.
  intros H. unfold normalize. destruct (_ <? _)%nat; [by apply transpose_wf | done].
Qed.

Lemma ensure_probs_returns obj cls :
  obj ≠ [] → concat cls ≠ [] →
  ∃ obj' cls', ensure_probs np_exp obj cls = Some (obj', cls') ∧
    Forall2 (λ r r', length r' = length r) cls cls'.
Proof.
  intros Ho Hc. unfold ensure_probs. cbv zeta.
  assert (Forall2 (λ r r' : list Q, length r' = length r) cls
            (map (map (sigmoid np_exp)) cls)) as Hsig.
  { apply Forall2_fmap_r, Forall_Forall2_diag, Forall_forall.
    intros r _. simpl. apply length_map. }
  destruct obj as [|x obj]; [done|]. destruct (concat cls) as [|y ys] eqn:E; [done|].
  simpl.
  destruct (Qgtb _ _); [by eexists _, _|].
  destruct (Qltb _ _); [by eexists _, _|].
  destruct (Qgtb _ _); [by eexists _, _|].
  destruct (Qltb _ _); [by eexists _, _|].
  eexists _, _. split; [done|]. by apply Forall_Forall2_diag, Forall_forall.
Qed.



(** C2.  The sample output has every objectness and class value inside
    [-0.5, 1.5], so [sigmoid] is not applied; its first anchor survives
    the confidence threshold 0.3 with confidence 1.5 * 1.5 = 2.25, which
    is outside [0,1]. *)
Theorem decode_confidence_above_one :
  ∃ d, decode_yolo_output np_exp hot_output (3 # 10) 640 640 640 = Some d ∧
       d_conf d = [9 # 4] ∧ ¬ in_unit (9 # 4).
Proof.
  eexists. split; [vm_compute; reflexivity|]. split; [reflexivity|].
  unfold in_unit. intros [_ H]. revert H. apply Qlt_not_le. reflexivity.
Qed.

Hypothesis np_exp_nonneg : ∀ x, 0 <= np_exp x.

Lemma sigmoid_unit x : in_unit (sigmoid np_exp x).
Proof.
  unfold sigmoid, in_unit. pose proof (np_exp_nonneg (- x)) as He.
  assert (0 < 1 + np_exp (- x)) as Hd by lra.
  split.
  - apply Qle_shift_div_l; [done | lra].
  - apply Qle_shift_div_r; [done | lra].
Qed.

Lemma in_unit_mult a b : in_unit a → in_unit b → in_unit (a * b).
Proof. unfold in_unit. intros [? ?] [? ?]. split; nra. Qed.

Lemma in_unit_nth (r : list Q) k : Forall in_unit r → in_unit (nth k r 0).
Proof.
  intros H. revert k. induction H as [|x r Hx _ IH]; intros [|k]; simpl.
  - split; lra.
  - split; lra.
  - done.
  - apply IH.
Qed.

Lemma Forall_concat_rows {P : Q → Prop} (cls : list (list Q)) :
  Forall P (concat cls) ↔ Forall (Forall P) cls.
Proof.
  induction cls as [|r cls IH]; simpl.
  - split; constructor.
  - by rewrite Forall_app, Forall_cons, IH.
Qed.

Lemma zip_with_unit obj cls ids :
  Forall in_unit obj → Forall (Forall in_unit) cls →
  Forall in_unit (zip_with Qmult obj (zip_with (λ r k, nth k r 0) cls ids)).
Proof.
  intros Ho. revert cls ids. induction Ho as [|o obj Hx _ IH];
    intros cls ids Hc; simpl; [constructor|].
  destruct Hc as [|r cls Hr Hc]; simpl; [constructor|].
  destruct ids as [|k ids]; simpl; constructor.
  - apply in_unit_mult; [done | by apply in_unit_nth].
  - by apply IH.
Qed.

(** The confidences lie in [0,1] when the values read as probabilities
    are in [0,1], and when [sigmoid] is applied. *)
Lemma decode_conf_unit output thr w h imgsz o d :
  select_output output = Some o →
  decode_yolo_output np_exp output thr w h imgsz = Some d →
  let obj := map (λ r, nth 4 r 0) (rows (normalize o)) in
  let cls := map (drop 5) (rows (normalize o)) in
  (Forall in_unit obj ∧ Forall in_unit (concat cls)) ∨
  ¬ (Forall in_slack obj ∧ Forall in_slack (concat cls)) →
  Forall in_unit (d_conf d).
Proof.
  intros Hsel H obj cls Hcase. unfold decode_yolo_output in H.
  rewrite Hsel in H. simpl in H.
  destruct (shape1 (normalize o) <? 6)%nat.
  { injection H as <-. constructor. }
  fold obj cls in H.
  destruct (ensure_probs _ _ _) as [[obj' cls']|] eqn:Ep; simpl in H; [|done].
  destruct (mapM argmax cls') as [cls_ids|] eqn:Ea; simpl in H; [|done].
  destruct (negb _) in H.
  { injection H as <-. constructor. }
  destruct (_ || _)%bool in H; [done|]. injection H as <-. simpl.
  apply mask_select_Forall.
  assert (Forall in_unit obj' ∧ Forall (Forall in_unit) cls') as [Ho Hc].
  { apply ensure_probs_spec in Ep as [(Hs1 & Hs2 & E) | (Hn & E)];
      injection E as -> ->.
    - destruct Hcase as [[Ho Hc]|Hn].
      + split; [done | by rewrite <- Forall_concat_rows].
      + exfalso. by apply Hn.
    - split.
      + apply Forall_forall. intros x (y & -> & _)%list_elem_of_fmap.
        apply sigmoid_unit.
      + apply Forall_forall. intros r (r0 & -> & _)%list_elem_of_fmap.
        apply Forall_forall. intros x (y & -> & _)%list_elem_of_fmap.
        apply sigmoid_unit. }
  by apply zip_with_unit.
Qed.

End DecoderFacts.

Lemma decode_orientation_degenerate_witness :
  let o := TensorDecoder.mkArr 2 3 [[1; 2; 3]; [4; 5; 6]] in
  let output := [TensorDecoder.T3 [o]] in
  TensorDecoder.select_output output = Some o ∧
  TensorDecoder.shape0 (TensorDecoder.normalize o) = 3%nat ∧
  TensorDecoder.shape1 (TensorDecoder.normalize o) = 2%nat ∧
  TensorDecoder.entry (TensorDecoder.normalize o) 2 1 = 6 ∧
  TensorDecoder.entry (TensorDecoder.normalize o) 1 0 = 2 ∧
  TensorDecoder.decode_yolo_output (λ _, 1) output (3 # 10) 640 480 640
    = Some (TensorDecoder.mkDecoded [] [] []).
Proof.
  intros o output.
  destruct (decode_orientation_degenerate (λ _, 1) output (3 # 10) 640 480 640 o
              eq_refl) as (H1 & _ & _ & H4).
  destruct H1 as (S0 & S1 & _ & _ & He); [simpl; lia|].
  split; [reflexivity|]. split; [exact S0|]. split; [exact S1|].
  split; [|split].
  - rewrite (He 1%nat 2%nat) by (simpl; lia). reflexivity.
  - rewrite (He 0%nat 1%nat) by (simpl; lia). reflexivity.
  - apply H4. simpl. lia.
Defined.

(** ** SingleStageDetector *)

Section DetectorFacts.
Import Suppressor TensorDecoder SingleStage.
Variable np_exp : Q → Q.
Variable IMGSZ : Z.
Variable CONF_MIN : Q.
Variable AREA_MIN_FRAC : Q.
Variable ALLOW_LABELS : gset string.
Variable LABELS : gmap nat string.

Lemma take_idx_lookup {A} (a a' : list A) keep k x :
  take_idx a keep = Some a' → a' !! k = Some x →
  ∃ i, keep !! k = Some i ∧ a !! i = Some x.
Proof.
  unfold take_idx. rewrite mapM_Some. intros HF Hk.
  destruct (Forall2_lookup_r _ _ _ _ _ HF Hk) as (i & Hi & Hx). eauto.
Qed.


Lemma take_idx_length {A} (a a' : list A) keep :
  take_idx a keep = Some a' → length a' = length keep.
Proof. intros H. symmetry. by apply length_mapM in H. Qed.


Lemma apply_nms_spec d d' :
  apply_nms d = Some d' →
  (d_xyxy d = [] ∧ d' = d) ∨
  (∃ keep, nms (d_xyxy d) (d_conf d) (45 # 100) = Some keep ∧
     take_idx (d_xyxy d) keep = Some (d_xyxy d') ∧
     take_idx (d_cls_ids d) keep = Some (d_cls_ids d') ∧
     take_idx (d_conf d) keep = Some (d_conf d')).
Proof.
  unfold apply_nms. destruct (d_xyxy d) as [|b bs] eqn:E; simpl.
  { intros [= <-]. by left. }
  intros H. right.
  destruct (nms _ _ _) as [keep|]; simpl in H; [|done].
  destruct (take_idx (b :: bs) keep) as [x|] eqn:E1; simpl in H; [|done].
  destruct (take_idx (d_cls_ids d) keep) as [c|] eqn:E2; simpl in H; [|done].
  destruct (take_idx (d_conf d) keep) as [f|] eqn:E3; simpl in H; [|done].
  injection H as <-. by exists keep.
Qed.

Lemma filter_hits_elem img_area d hits h :
  filter_hits AREA_MIN_FRAC ALLOW_LABELS LABELS img_area d = Some hits → h ∈ hits →
  ∃ k, filter_one AREA_MIN_FRAC ALLOW_LABELS LABELS img_area d k = Some (Some h).
Proof.
  unfold filter_hits. intros H Hh.
  destruct (mapM _ _) as [l|] eqn:E; simpl in H; [|done]. injection H as <-.
  apply list_elem_of_omap in Hh as (x & Hx & Hid). simpl in Hid. subst x.
  apply mapM_Some in E. apply list_elem_of_lookup in Hx as [n Hn].
  destruct (Forall2_lookup_r _ _ _ _ _ E Hn) as (k & _ & Hk). eauto.
Qed.

Lemma filter_one_spec img_area d k h :
  filter_one AREA_MIN_FRAC ALLOW_LABELS LABELS img_area d k = Some (Some h) →
  ∃ cls c b, d_cls_ids d !! k = Some cls ∧ d_conf d !! k = Some c ∧
    d_xyxy d !! k = Some b ∧
    get_label_name LABELS cls ∈ ALLOW_LABELS ∧
    AREA_MIN_FRAC <= box_area_frac img_area b ∧
    h = mkHit (get_label_name LABELS cls) (py_round c 3) b
              (py_round (box_area_frac img_area b) 6).
Proof.
  unfold filter_one. intros H.
  destruct (d_cls_ids d !! k) as [cls|]; simpl in H; [|done].
  destruct (d_conf d !! k) as [c|]; simpl in H; [|done].
  destruct (d_xyxy d !! k) as [b|]; simpl in H; [|done].
  destruct (bool_decide _) eqn:E1; simpl in H; [|done].
  destruct (Qgeb _ _) eqn:E2; simpl in H; [|done].
  injection H as <-. exists cls, c, b.
  apply bool_decide_eq_true in E1. apply Qgeb_le in E2. done.
Qed.

(** Every hit comes from a candidate that the decoder let through on its
    unrounded confidence and that [nms], run on the unrounded
    confidences, kept. *)
Lemma run_detection_hits (img_width img_height : Z)
    (inference : option (list tensor)) (hits : list Hit) (h : Hit) :
  run_detection np_exp IMGSZ CONF_MIN AREA_MIN_FRAC ALLOW_LABELS LABELS
    img_width img_height inference = Some hits →
  h ∈ hits →
  label h ∈ ALLOW_LABELS ∧
  AREA_MIN_FRAC <= box_area_frac (img_width * img_height) (bbox h) ∧
  ∃ output d keep i cls c,
    inference = Some output ∧
    decode_yolo_output np_exp output CONF_MIN img_width img_height IMGSZ = Some d ∧
    nms (d_xyxy d) (d_conf d) (45 # 100) = Some keep ∧ i ∈ keep ∧
    d_xyxy d !! i = Some (bbox h) ∧
    d_cls_ids d !! i = Some cls ∧ label h = get_label_name LABELS cls ∧
    d_conf d !! i = Some c ∧ CONF_MIN <= c ∧
    conf h = py_round c 3 ∧
    area_frac h = py_round (box_area_frac (img_width * img_height) (bbox h)) 6.
Proof.
  unfold run_detection. intros H Hh.
  destruct inference as [output|]; simpl in H; [|done].
  destruct (decode_yolo_output _ _ _ _ _ _) as [d|] eqn:Ed; simpl in H; [|done].
  destruct (apply_nms d) as [d'|] eqn:En; simpl in H; [|done].
  destruct (filter_hits_elem _ _ _ _ H Hh) as [k Hk].
  apply filter_one_spec in Hk as (cls & c & b & Hcls & Hc & Hb & Hallow & Harea & ->).
  simpl. split; [done|]. split; [done|].
  apply apply_nms_spec in En as [[Hnil ->] | (keep & Hkeep & Hx & Hi & Hf)].
  { rewrite Hnil in Hb. done. }
  destruct (take_idx_lookup _ _ _ _ _ Hx Hb) as (i & Hki & Hbi).
  destruct (take_idx_lookup _ _ _ _ _ Hi Hcls) as (i' & Hki' & Hclsi).
  destruct (take_idx_lookup _ _ _ _ _ Hf Hc) as (i'' & Hki'' & Hci).
  rewrite Hki in Hki', Hki''. injection Hki' as <-. injection Hki'' as <-.
  exists output, d, keep, i, cls, c. repeat split; try done.
  - by eapply list_elem_of_lookup_2.
  - apply decode_spec in Ed as (_ & _ & HF). rewrite Forall_forall in HF.
    apply HF. by eapply list_elem_of_lookup_2.
Qed.




End DetectorFacts.

(** A 640 x 640 frame with one "fedex" candidate of confidence 0.9 that
    covers 16% of the frame, and one of confidence 0.2996: the second
    rounds to 0.3 but is below the threshold 0.3 and is dropped. *)
Example run_detection_fedex :
  let o := TensorDecoder.mkArr 8 6
             ([320; 320; 256; 256; 1; 9 # 10]
              :: [100; 100; 200; 200; 1; 2996 # 10000]
              :: replicate 6 TensorDecoder.cold_row) in
  ∃ b,
    SingleStage.run_detection (λ _, 1) 640 (3 # 10) (5 # 10000)
      {["fedex"]} {[0%nat := "fedex"]} 640 640 (Some [TensorDecoder.T3 [o]])
    = Some [SingleStage.mkHit "fedex" (900 # 1000) b (160000 # 1000000)] ∧
    Suppressor.bx1 b == 192 ∧ Suppressor.by1 b == 192 ∧
    Suppressor.bx2 b == 448 ∧ Suppressor.by2 b == 448.
Proof. eexists. split; [vm_compute; reflexivity|]. repeat split. Qed.


(** ** ProposalCascade *)

Section CascadeFacts.
Import ProposalCascade.
Variable brand_predict : Crop → option (list RawDet).

Lemma py_int_div_16_10 (n : Z) :
  (0 <= n)%Z → py_int (inject_Z n / (16 # 10)) = (5 * n / 8)%Z.
Proof.
  intros Hn. unfold py_int, Qltb, Qle_bool, Qdiv, Qmult, Qinv, inject_Z, Qfloor.
  simpl. change (Z.pos (1 * 16)) with 16%Z.
  match goal with
  | |- context [(?a <=? ?b)%Z] => destruct (Z.leb_spec a b); simpl; [|lia]
  end.
  replace (n * 10)%Z with (5 * n * 2)%Z by lia.
  change 16%Z with (8 * 2)%Z.
  rewrite Z.div_mul_cancel_r by lia. done.
Qed.


Lemma fallback_proposal_eq (H W : Z) :
  (0 <= H)%Z → (0 <= W)%Z →
  fallback_proposal H W =
    let nh := (5 * H / 8)%Z in
    let nw := (5 * W / 8)%Z in
    let y0 := ((H - nh) / 2)%Z in
    let x0 := ((W - nw) / 2)%Z in
    mkProposal x0 y0 (x0 + nw) (y0 + nh) "center" 1.
Proof.
  intros HH HW. unfold fallback_proposal.
  by rewrite !py_int_div_16_10.
Qed.

Lemma slice_bound_inside len i : (0 <= i <= len)%Z → slice_bound len i = i.
Proof.
  intros Hi. unfold slice_bound. destruct (Z.ltb_spec i 0); lia.
Qed.

Lemma fallback_crop (H W : Z) :
  (0 <= H)%Z → (0 <= W)%Z →
  let nh := (5 * H / 8)%Z in
  let nw := (5 * W / 8)%Z in
  let y0 := ((H - nh) / 2)%Z in
  let x0 := ((W - nw) / 2)%Z in
  crop_of H W (fallback_proposal H W) = mkCrop y0 (y0 + nh) x0 (x0 + nw) ∧
  crop_size (crop_of H W (fallback_proposal H W)) = (nh * nw * 3)%Z.
Proof.
  intros HH HW nh nw y0 x0.
  rewrite fallback_proposal_eq by done. cbv zeta.
  fold nh nw. fold y0 x0.
  assert (0 <= nh <= H)%Z as Hnh by (unfold nh; Z.div_mod_to_equations; lia).
  assert (0 <= nw <= W)%Z as Hnw by (unfold nw; Z.div_mod_to_equations; lia).
  assert (0 <= y0 ∧ y0 + nh <= H)%Z as [Hy0 Hy1]
    by (unfold y0; Z.div_mod_to_equations; lia).
  assert (0 <= x0 ∧ x0 + nw <= W)%Z as [Hx0 Hx1]
    by (unfold x0; Z.div_mod_to_equations; lia).
  clearbody y0 x0 nh nw. unfold crop_of, crop_size. cbn [p_y1 p_y2 p_x1 p_x2 c_y1 c_y2 c_x1 c_x2].
  rewrite (slice_bound_inside H y0), (slice_bound_inside H (y0 + nh)),
          (slice_bound_inside W x0), (slice_bound_inside W (x0 + nw)) by lia. split; [done|]. simpl.
  replace (y0 + nh - y0)%Z with nh by lia.
  replace (x0 + nw - x0)%Z with nw by lia.
  by rewrite !Z.max_r by lia.
Qed.

Lemma stage2_single H W allow area_min_frac p :
  brand_runs (let '(h, r) := stage2 brand_predict H W allow area_min_frac [p] in
              mkResult h [p] r) =
  if (crop_size (crop_of H W p) =? 0)%Z then [] else [crop_of H W p].
Proof.
  simpl. destruct (crop_size (crop_of H W p) =? 0)%Z; [done|].
  by destruct (brand_predict (crop_of H W p)).
Qed.

(** C7, as the code has it.  When stage 1 yields no proposal for an [H]
    by [W] frame of at least one pixel, the proposal list becomes exactly
    one centered crop of size [int(W/1.6)] by [int(H/1.6)]; the brand
    detector is run on that crop, once, when the frame is at least 2
    pixels in each dimension and [max_vehicle_crops] is at least 1, and
    is not run at all otherwise. *)
Theorem two_stage_fallback (H W : Z) (det_runs : list (option (list RawDet)))
    (allow : option (gset string)) (area_min_frac : Q) (max_vehicle_crops : Z) :
  _collect_proposals H W det_runs = [] → (1 <= H)%Z → (1 <= W)%Z →
  let r := two_stage_hits brand_predict H W det_runs allow area_min_frac
             max_vehicle_crops in
  let nh := (5 * H / 8)%Z in
  let nw := (5 * W / 8)%Z in
  let y0 := ((H - nh) / 2)%Z in
  let x0 := ((W - nw) / 2)%Z in
  proposals_used r = [mkProposal x0 y0 (x0 + nw) (y0 + nh) "center" 1] ∧
  ((2 <= H)%Z → (2 <= W)%Z → (1 <= max_vehicle_crops)%Z →
   brand_runs r = [mkCrop y0 (y0 + nh) x0 (x0 + nw)]) ∧
  ((H < 2)%Z ∨ (W < 2)%Z ∨ (max_vehicle_crops <= 0)%Z → brand_runs r = []).
Proof.
  intros Hnone HH1 HW1 r nh nw y0 x0.
  assert (0 <= H)%Z as HH by lia. assert (0 <= W)%Z as HW by lia.
  destruct (fallback_crop H W HH HW) as [Hcrop Hsize]. fold nh nw y0 x0 in Hcrop, Hsize.
  pose proof (fallback_proposal_eq H W HH HW) as Hfb. cbv zeta in Hfb.
  fold nh nw y0 x0 in Hfb.
  assert (∀ hs ps rs, proposals_used (let '(h, r) := (hs, rs) in mkResult h ps r) = ps)
    as Hpu by done.
  unfold r, two_stage_hits. rewrite Hnone.
  set (allow' := match allow with Some _ => _ | None => _ end).
  split; [|split].
  - destruct (stage2 _ _ _ _ _ _) as [hs rs]. simpl. by rewrite Hfb.
  - intros H2 W2 Hmax.
    assert (slice_to [fallback_proposal H W] max_vehicle_crops
            = [fallback_proposal H W]) as ->.
    { unfold slice_to. destruct (Z.ltb_spec max_vehicle_crops 0); [lia|].
      destruct (Z.to_nat max_vehicle_crops) eqn:E; [lia|].
      simpl. by rewrite take_nil. }
    pose proof (stage2_single H W allow' area_min_frac (fallback_proposal H W)) as Hs.
    destruct (stage2 _ _ _ _ _ _) as [hs rs]. simpl in *. rewrite Hs.
    rewrite Hsize, Hcrop.
    assert (1 <= nh ∧ 1 <= nw)%Z as [? ?]
      by (unfold nh, nw; split; Z.div_mod_to_equations; lia).
    destruct (Z.eqb_spec (nh * nw * 3) 0); [nia | done].
  - intros Hsmall.
    destruct (Z.leb_spec max_vehicle_crops 0) as [Hmax|Hmax].
    + assert (slice_to [fallback_proposal H W] max_vehicle_crops = []) as ->.
      { unfold slice_to. destruct (Z.ltb_spec max_vehicle_crops 0).
        - assert (Z.to_nat (Z.of_nat (length [fallback_proposal H W])
                            + max_vehicle_crops) = 0%nat) as -> by (simpl; lia).
          done.
        - by replace max_vehicle_crops with 0%Z by lia. }
      done.
    + assert (slice_to [fallback_proposal H W] max_vehicle_crops
              = [fallback_proposal H W]) as ->.
      { unfold slice_to. destruct (Z.ltb_spec max_vehicle_crops 0); [lia|].
        destruct (Z.to_nat max_vehicle_crops) eqn:E; [lia|].
      simpl. by rewrite take_nil. }
      pose proof (stage2_single H W allow' area_min_frac (fallback_proposal H W)) as Hs.
      destruct (stage2 _ _ _ _ _ _) as [hs rs]. simpl in *. rewrite Hs, Hsize.
      assert (nh = 0 ∨ nw = 0)%Z as Hz
        by (unfold nh, nw; Z.div_mod_to_equations; lia).
      destruct (Z.eqb_spec (nh * nw * 3) 0); [done | nia].
Qed.

End CascadeFacts.

Lemma two_stage_fallback_witness :
  let r := ProposalCascade.two_stage_hits (λ _, Some []) 480 640
             [Some []; Some []] None (3 # 10000) 16 in
  ProposalCascade._collect_proposals 480 640 [Some []; Some []] = [] ∧
  ProposalCascade.proposals_used r
    = [ProposalCascade.mkProposal 120 90 520 390 "center" 1] ∧
  ProposalCascade.brand_runs r = [ProposalCascade.mkCrop 90 390 120 520].
Proof.
  intros r.
  destruct (two_stage_fallback (λ _, Some []) 480 640 [Some []; Some []] None
              (3 # 10000) 16 eq_refl) as (H1 & H2 & _); [lia | lia |].
  split; [reflexivity|]. split; [exact H1|]. apply H2; lia.
Defined.

(** With [max_vehicle_crops = 0], and on a 1 x 1 frame, stage 1 finding
    nothing leaves the one fallback proposal and the brand detector is
    never run. *)
Lemma two_stage_no_brand_run :
  let r0 := ProposalCascade.two_stage_hits (λ _, Some []) 480 640
              [Some []; Some []] None (3 # 10000) 0 in
  let r1 := ProposalCascade.two_stage_hits (λ _, Some []) 1 1
              [Some []; Some []] None (3 # 10000) 16 in
  (ProposalCascade._collect_proposals 480 640 [Some []; Some []] = [] ∧
   length (ProposalCascade.proposals_used r0) = 1%nat ∧
   ProposalCascade.brand_runs r0 = []) ∧
  (ProposalCascade._collect_proposals 1 1 [Some []; Some []] = [] ∧
   length (ProposalCascade.proposals_used r1) = 1%nat ∧
   ProposalCascade.brand_runs r1 = []).
Proof. intros r0 r1. repeat split; vm_compute; reflexivity. Qed.

(** ** DailyCarrierTracker *)

Section TrackerFacts.
Import DailyCarrierTracker.

Lemma lex_gtb_irrefl a : lex_gtb a a = false.
Proof.
  induction a as [|x a IH]; simpl; [done|].
  rewrite Z.ltb_irrefl, Z.eqb_refl, IH. done.
Qed.

Lemma dt_gtb_irrefl d : dt_gtb d d = false.
Proof. apply lex_gtb_irrefl. Qed.

Lemma dt_gtb_midnight a b :
  dt_gtb (at_midnight a) (at_midnight b) = (ordinal b <? ordinal a)%Z.
Proof.
  unfold dt_gtb, dt_key. simpl.
  destruct (ordinal b <? ordinal a)%Z; simpl; [done|].
  by rewrite andb_false_r.
Qed.

Lemma cleared_lookup carriers c :
  cleared carriers !! c = if bool_decide (c ∈ carriers) then Some None else None.
Proof.
  unfold cleared.
  assert (∀ m : gmap string (option Q),
    foldl (λ m carrier, <[carrier := None]> m) m carriers !! c =
    if bool_decide (c ∈ carriers) then Some None else m !! c) as H.
  { induction carriers as [|x cs IH]; intros m; simpl.
    - done.
    - rewrite IH. destruct (decide (c = x)) as [->|Hne].
      + rewrite lookup_insert_eq.
        rewrite (bool_decide_eq_true_2 (x ∈ x :: cs)) by left.
        by case_bool_decide.
      + rewrite lookup_insert_ne by done.
        apply (f_equal (λ b : bool, if b then _ else _)).
        apply bool_decide_ext. rewrite elem_of_cons. split; [by right | by intros [?|?]]. }
  rewrite H. by destruct (bool_decide _).
Qed.

Lemma init_inv carriers reset_hour now : tracker_inv (init carriers reset_hour now).
Proof.
  split; simpl.
  - intros c. rewrite cleared_lookup. case_bool_decide as Hc.
    + split; [done | by eexists].
    + split; [by intros [? ?] | done].
  - intros c ts. rewrite cleared_lookup. by case_bool_decide.
Qed.

Lemma truthy_pos x : 0 < x → truthy x = true.
Proof.
  intros H. unfold truthy. apply negb_true_iff, not_true_iff_false.
  intros E%Qeq_bool_iff. lra.
Qed.

Lemma ts_or_now_truthy timestamp now_ts :
  0 < now_ts → truthy (ts_or_now timestamp now_ts) = true.
Proof.
  intros H. unfold ts_or_now. destruct timestamp as [ts|]; [|by apply truthy_pos].
  destruct (truthy ts) eqn:E; [done | by apply truthy_pos].
Qed.

Lemma check_and_reset_inv now t :
  tracker_inv t → tracker_inv (snd (check_and_reset now t)).
Proof.
  intros Hinv. unfold check_and_reset. destruct (dt_gtb _ _); [|done].
  apply (init_inv (carriers t) (reset_hour t) now).
Qed.

Lemma mark_detected_inv now_ts c ts t r :
  0 < now_ts → tracker_inv t → mark_detected now_ts c ts t = Some r →
  tracker_inv (snd r).
Proof.
  intros Hnow [Hdom Hts] H. unfold mark_detected in H.
  case_bool_decide as Hc; [|by injection H as <-].
  destruct (detections t !! c) as [[old|]|] eqn:E; simpl in H; try done.
  { by injection H as <-. }
  injection H as <-. split; simpl.
  - intros c'. destruct (decide (c' = c)) as [->|Hne].
    + rewrite lookup_insert_eq. split; [done | by eexists].
    + rewrite lookup_insert_ne by done. apply Hdom.
  - intros c' ts'. destruct (decide (c' = c)) as [->|Hne].
    + rewrite lookup_insert_eq. intros [= <-]. by apply ts_or_now_truthy.
    + rewrite lookup_insert_ne by done. apply Hts.
Qed.

Lemma reachable_inv t : reachable t → tracker_inv t.
Proof.
  induction 1 as [carriers reset_hour now | c t t' _ IH Hok Hstep].
  - apply init_inv.
  - destruct c as [now | now_ts carrier timestamp]; simpl in *.
    + injection Hstep as <-. by apply check_and_reset_inv.
    + destruct (mark_detected _ _ _ _) as [r|] eqn:E; simpl in Hstep; [|done].
      injection Hstep as <-. by eapply mark_detected_inv.
Qed.

Lemma check_and_reset_same_day now t :
  _get_current_day (reset_hour t) now = current_day t →
  check_and_reset now t = (false, t).
Proof.
  intros H. unfold check_and_reset. by rewrite H, dt_gtb_irrefl.
Qed.

Lemma check_and_reset_all_same_day nows t :
  Forall (λ now, _get_current_day (reset_hour t) now = current_day t) nows →
  check_and_reset_all nows t = (replicate (length nows) false, t).
Proof.
  induction 1 as [|now nows Hnow _ IH]; simpl; [done|].
  by rewrite (check_and_reset_same_day _ _ Hnow), IH.
Qed.

(** C4.  The current day is the midnight of today's date when the local
    hour is at least the reset hour, and of yesterday's date when it is
    below.  [check_and_reset] returns true, clears every carrier and
    adopts the recomputed day when that day is strictly later than the
    stored one, and otherwise returns false and changes nothing.  Over
    any run of calls whose clock readings fall in one new day, the first
    call resets and no later one does. *)
Theorem check_and_reset_once (t : tracker) (now : datetime) (nows : list datetime) :
  let day := _get_current_day (reset_hour t) now in
  (* the day boundary *)
  ((reset_hour t <= hour now)%Z → day = mkDatetime (ordinal now) 0 0 0 0) ∧
  ((hour now < reset_hour t)%Z → day = mkDatetime (ordinal now - 1) 0 0 0 0) ∧
  (* reset exactly when the day is strictly later *)
  (dt_gtb day (current_day t) = true →
     check_and_reset now t =
       (true, mkTracker (carriers t) (reset_hour t) (cleared (carriers t)) day) ∧
     (∀ c, is_detected c (snd (check_and_reset now t)) = false) ∧
     (∀ c, c ∈ carriers t →
        detections (snd (check_and_reset now t)) !! c = Some None)) ∧
  (dt_gtb day (current_day t) = false → check_and_reset now t = (false, t)) ∧
  (* once per day *)
  (dt_gtb day (current_day t) = true →
   Forall (λ n, _get_current_day (reset_hour t) n = day) nows →
   check_and_reset_all (now :: nows) t =
     (true :: replicate (length nows) false, snd (check_and_reset now t))).
Proof.
  intros day. repeat split.
  - intros H. unfold day, _get_current_day.
    by destruct (Z.ltb_spec (hour now) (reset_hour t)); [lia|].
  - intros H. unfold day, _get_current_day.
    by destruct (Z.ltb_spec (hour now) (reset_hour t)); [|lia].
  - unfold check_and_reset. fold day. by rewrite H.
  - intros c. unfold check_and_reset. fold day. rewrite H. simpl.
    unfold is_detected. simpl. rewrite cleared_lookup. by case_bool_decide.
  - intros c Hc. unfold check_and_reset. fold day. rewrite H. simpl.
    rewrite cleared_lookup. by rewrite bool_decide_eq_true_2.
  - intros H. unfold check_and_reset. fold day. by rewrite H.
  - intros H HF.
    assert (check_and_reset now t =
      (true, mkTracker (carriers t) (reset_hour t) (cleared (carriers t)) day))
      as Hcr by (unfold check_and_reset; fold day; by rewrite H).
    cbn [check_and_reset_all]. rewrite Hcr.
    by rewrite check_and_reset_all_same_day.
Qed.

End TrackerFacts.

Section TrackerExamples.
Import DailyCarrierTracker.

Lemma check_and_reset_once_witness :
  let t := mkTracker ["ups"; "usps"] 3
             (<["ups" := Some 1700000000]> (cleared ["ups"; "usps"]))
             (mkDatetime 739000 0 0 0 0) in
  let now := mkDatetime 739001 3 0 5 0 in
  let nows := [mkDatetime 739001 3 0 8 0; mkDatetime 739002 2 59 0 0] in
  dt_gtb (_get_current_day 3 now) (current_day t) = true ∧
  Forall (λ n, _get_current_day 3 n = _get_current_day 3 now) nows ∧
  check_and_reset_all (now :: nows) t =
    (true :: replicate (length nows) false, snd (check_and_reset now t)).
Proof.
  intros t now nows.
  assert (dt_gtb (_get_current_day 3 now) (current_day t) = true) as H1
    by reflexivity.
  assert (Forall (λ n, _get_current_day 3 n = _get_current_day 3 now) nows) as H2
    by (repeat constructor).
  split; [exact H1|]. split; [exact H2|].
  exact (proj2 (proj2 (proj2 (proj2 (check_and_reset_once t now nows)))) H1 H2).
Defined.

End TrackerExamples.

(** ** DailyCarrierTracker with its log line and time field *)

Section TrackerLogFacts.
Import DailyCarrierTracker TrackerLog.
Variable fromtimestamp_ok : Q → bool.

#[local] Abbreviation mark_detected := (TrackerLog.mark_detected fromtimestamp_ok).
#[local] Abbreviation get_summary := (TrackerLog.get_summary fromtimestamp_ok).
#[local] Abbreviation summary_entry := (TrackerLog.summary_entry fromtimestamp_ok).
#[local] Abbreviation summary_loop := (TrackerLog.summary_loop fromtimestamp_ok).
#[local] Abbreviation step := (TrackerLog.step fromtimestamp_ok).
#[local] Abbreviation reachable := (TrackerLog.reachable fromtimestamp_ok).
#[local] Abbreviation recorded_ok := (TrackerLog.recorded_ok fromtimestamp_ok).

(** Where the call with its log line returns, it returns the value and
    leaves the tracker that the call without the log line gives; where it
    raises in the log line, the tracker is the same still. *)
Lemma mark_detected_log now_ts carrier timestamp t :
  match DailyCarrierTracker.mark_detected now_ts carrier timestamp t with
  | Some (b, t') =>
      snd (mark_detected now_ts carrier timestamp t) = t' ∧
      (fst (mark_detected now_ts carrier timestamp t) = Some b ∨
       fst (mark_detected now_ts carrier timestamp t) = None ∧ b = true ∧
       fromtimestamp_ok (ts_or_now timestamp now_ts) = false)
  | None => mark_detected now_ts carrier timestamp t = (None, t)
  end.
Proof.
  unfold DailyCarrierTracker.mark_detected, TrackerLog.mark_detected.
  case_bool_decide; [|by split; [|left]].
  destruct (detections t !! carrier) as [[old|]|]; simpl; [by split; [|left]| |done].
  destruct (fromtimestamp_ok _); simpl; split; try done; [by left | by right].
Qed.

Lemma mark_detected_state now_ts carrier timestamp t :
  snd (mark_detected now_ts carrier timestamp t) = t ∨
  (carrier ∈ carriers t ∧ detections t !! carrier = Some None ∧
   snd (mark_detected now_ts carrier timestamp t) =
     mkTracker (carriers t) (reset_hour t)
       (<[carrier := Some (ts_or_now timestamp now_ts)]> (detections t))
       (current_day t)).
Proof.
  unfold TrackerLog.mark_detected. case_bool_decide as Hc; [|by left].
  destruct (detections t !! carrier) as [[old|]|]; [by left| |by left].
  right. split; [done|]. split; [done|]. by destruct (fromtimestamp_ok _).
Qed.

Lemma insert_inv (t : tracker) c ts :
  tracker_inv t → c ∈ carriers t → truthy ts = true →
  tracker_inv (mkTracker (carriers t) (reset_hour t)
                 (<[c := Some ts]> (detections t)) (current_day t)).
Proof.
  intros [Hdom Hts] Hc Ht. split; simpl.
  - intros c'. destruct (decide (c' = c)) as [->|Hne].
    + rewrite lookup_insert_eq. split; [done | by eexists].
    + rewrite lookup_insert_ne by done. apply Hdom.
  - intros c' ts'. destruct (decide (c' = c)) as [->|Hne].
    + rewrite lookup_insert_eq. by intros [= <-].
    + rewrite lookup_insert_ne by done. apply Hts.
Qed.

Lemma insert_recorded_ok (t : tracker) c ts :
  recorded_ok t → fromtimestamp_ok ts = true →
  recorded_ok (mkTracker (carriers t) (reset_hour t)
                 (<[c := Some ts]> (detections t)) (current_day t)).
Proof.
  intros Hok Ht c' ts'. simpl. destruct (decide (c' = c)) as [->|Hne].
  - rewrite lookup_insert_eq. by intros [= <-].
  - rewrite lookup_insert_ne by done. apply Hok.
Qed.

Lemma step_inv c t :
  TrackerLog.clock_ok fromtimestamp_ok c → tracker_inv t → tracker_inv (step c t).
Proof.
  intros Hok Hinv. destruct c as [now | now_ts carrier timestamp]; simpl.
  - by apply check_and_reset_inv.
  - destruct Hok as [Hpos _].
    destruct (mark_detected_state now_ts carrier timestamp t)
      as [-> | (Hc & _ & ->)]; [done|].
    apply insert_inv; [done | done | by apply ts_or_now_truthy].
Qed.

Lemma reachable_log_inv t : reachable t → tracker_inv t.
Proof.
  induction 1 as [carriers reset_hour now | c t _ IH Hok].
  - apply init_inv.
  - by apply step_inv.
Qed.

Lemma summary_loop_log dets cs acc :
  match summary_loop dets cs acc with
  | Some m =>
      (∀ c, c ∈ cs → ∃ d e, dets !! c = Some d ∧ summary_entry d = Some e) ∧
      ∀ c, m !! c = if bool_decide (c ∈ cs)
                    then dets !! c ≫= summary_entry else acc !! c
  | None =>
      ∃ c, c ∈ cs ∧ (dets !! c = None ∨
                     ∃ d, dets !! c = Some d ∧ summary_entry d = None)
  end.
Proof.
  revert acc. induction cs as [|x cs IH]; intros acc; simpl.
  { split; [by intros c ?%elem_of_nil | done]. }
  destruct (dets !! x) as [d|] eqn:Hd; simpl.
  2: { exists x. split; [left | by left]. }
  destruct (summary_entry d) as [e|] eqn:He; simpl.
  2: { exists x. split; [left | right; by exists d]. }
  specialize (IH (<[x := e]> acc)).
  destruct (summary_loop dets cs (<[x := e]> acc)) as [m|].
  - destruct IH as [Hall Hlook]. split.
    + intros c [-> | Hc]%elem_of_cons; [by exists d, e | by apply Hall].
    + intros c. rewrite Hlook. destruct (decide (c = x)) as [->|Hne].
      * rewrite lookup_insert_eq, Hd. simpl. rewrite He.
        rewrite (bool_decide_eq_true_2 (x ∈ x :: cs)) by left.
        by case_bool_decide.
      * rewrite lookup_insert_ne by done.
        apply (f_equal (λ b : bool, if b then _ else _)).
        apply bool_decide_ext. rewrite elem_of_cons.
        split; [by right | by intros [?|?]].
  - destruct IH as (c & Hc & Hbad). exists c. split; [by right | done].
Qed.

Lemma summary_entry_truthy ts :
  truthy ts = true →
  summary_entry (Some ts) =
    if fromtimestamp_ok ts then Some (mkEntry true (Some ts)) else None.
Proof. intros H. simpl. by rewrite H. Qed.

(** [get_summary] returns exactly when [fromtimestamp] accepts every
    recorded timestamp, and then has one entry per tracked carrier. *)
Lemma get_summary_log t :
  tracker_inv t →
  (is_Some (get_summary t) ↔ recorded_ok t) ∧
  ∀ s, get_summary t = Some s →
    date s = current_day t ∧
    ∀ c, s_carriers s !! c =
      match detections t !! c with
      | Some (Some ts) => Some (mkEntry true (Some ts))
      | Some None => Some (mkEntry false None)
      | None => None
      end.
Proof.
  intros [Hdom Hts]. unfold TrackerLog.get_summary.
  pose proof (summary_loop_log (detections t) (carriers t) ∅) as Hloop.
  destruct (summary_loop (detections t) (carriers t) ∅) as [m|]; simpl.
  - destruct Hloop as [Hall Hlook]. split.
    + split; [|by eexists]. intros _ c ts Hc.
      destruct (Hall c) as (d & e & Hd & He); [apply Hdom; by eexists|].
      rewrite Hc in Hd. injection Hd as <-.
      rewrite (summary_entry_truthy ts (Hts c ts Hc)) in He.
      by destruct (fromtimestamp_ok ts).
    + intros s [= <-]. split; [done|]. simpl. intros c. rewrite Hlook.
      case_bool_decide as Hc.
      * destruct (Hall c Hc) as (d & e & Hd & He). rewrite Hd. simpl.
        rewrite He. destruct d as [ts|]; [|by injection He as <-].
        rewrite (summary_entry_truthy ts (Hts c ts Hd)) in He.
        destruct (fromtimestamp_ok ts); [by injection He as <- | done].
      * rewrite lookup_empty. destruct (detections t !! c) eqn:E; [|done].
        exfalso. apply Hc, Hdom. by eexists.
  - split; [|done]. split; [by intros [? ?]|]. intros Hok. exfalso.
    destruct Hloop as (c & Hc & [Hnone | (d & Hd & Hbad)]).
    + apply Hdom in Hc as [d Hd]. by rewrite Hd in Hnone.
    + destruct d as [ts|]; [|done].
      rewrite (summary_entry_truthy ts (Hts c ts Hd)) in Hbad.
      by rewrite (Hok c ts Hd) in Hbad.
Qed.

Lemma init_recorded_ok carriers reset_hour now :
  recorded_ok (init carriers reset_hour now).
Proof.
  intros c ts. simpl. rewrite cleared_lookup. by case_bool_decide.
Qed.

(** C3, as the code has it.  An untracked carrier is refused and nothing
    changes.  For a tracked carrier not yet detected, the first call
    records the timestamp it is given when that is truthy (nonzero), and
    the reading of the clock when it is given 0 or None; it returns true
    when [fromtimestamp] accepts the recorded timestamp, and raises, with
    the timestamp recorded all the same, when it does not.  After it a
    [check_and_reset] within the same day changes nothing, a second call
    with any timestamp returns false and changes nothing, and the summary
    reports the carrier detected at the recorded timestamp. *)
Theorem mark_detected_first_only (t : tracker) (c : string)
    (timestamp timestamp2 : option Q) (now1 now2 : Q) (now : datetime) :
  tracker_inv t → recorded_ok t →
  (* unknown carriers *)
  (∀ c' ts, c' ∉ carriers t → mark_detected now1 c' ts t = (Some false, t)) ∧
  (* first and second detection of a tracked carrier *)
  (c ∈ carriers t → detections t !! c = Some None →
   ∃ rec t',
     (∀ t1, timestamp = Some t1 → truthy t1 = true → rec = t1) ∧
     (∀ t1, timestamp = Some t1 → t1 == 0 → rec = now1) ∧
     (timestamp = None → rec = now1) ∧
     t' = mkTracker (carriers t) (reset_hour t)
            (<[c := Some rec]> (detections t)) (current_day t) ∧
     (fromtimestamp_ok rec = true →
      mark_detected now1 c timestamp t = (Some true, t')) ∧
     (fromtimestamp_ok rec = false →
      mark_detected now1 c timestamp t = (None, t')) ∧
     detections t' !! c = Some (Some rec) ∧
     (_get_current_day (reset_hour t) now = current_day t →
      check_and_reset now t' = (false, t')) ∧
     mark_detected now2 c timestamp2 t' = (Some false, t') ∧
     is_detected c t' = true ∧
     (fromtimestamp_ok rec = true → truthy rec = true →
      ∃ s, get_summary t' = Some s ∧
           s_carriers s !! c = Some (mkEntry true (Some rec)))).
Proof.
  intros Hinv Hok. split.
  - intros c' ts Hc'. unfold TrackerLog.mark_detected.
    by rewrite bool_decide_eq_false_2.
  - intros Hc Hnone.
    exists (ts_or_now timestamp now1). eexists. 
    split; [intros t1 -> Ht1; simpl; by rewrite Ht1|].
    split.
    { intros t1 -> Ht1. simpl.
      assert (truthy t1 = false) as ->; [|done].
      unfold truthy. apply negb_false_iff. by apply Qeq_bool_iff. }
    split; [by intros ->|]. split; [reflexivity|].
    assert (∀ b, fromtimestamp_ok (ts_or_now timestamp now1) = b →
      mark_detected now1 c timestamp t =
        (if b then Some true else None,
         mkTracker (carriers t) (reset_hour t)
           (<[c := Some (ts_or_now timestamp now1)]> (detections t))
           (current_day t))) as Hm.
    { intros b Hb. unfold TrackerLog.mark_detected.
      rewrite bool_decide_eq_true_2 by done. rewrite Hnone. cbv zeta.
      rewrite Hb. by destruct b. }
    split; [apply (Hm true)|]. split; [apply (Hm false)|].
    split; [simpl; by rewrite lookup_insert_eq|].
    split; [intros Hday; by apply check_and_reset_same_day|].
    split.
    { unfold TrackerLog.mark_detected. simpl.
      rewrite bool_decide_eq_true_2 by done. by rewrite lookup_insert_eq. }
    split; [unfold is_detected; simpl; by rewrite lookup_insert_eq|].
    intros Hrec Htr.
    pose proof (insert_inv t c _ Hinv Hc Htr) as Hinv'.
    pose proof (insert_recorded_ok t c _ Hok Hrec) as Hok'.
    destruct (get_summary_log _ Hinv') as [Hret Hs].
    apply Hret in Hok' as [s Hsum]. exists s. split; [done|].
    destruct (Hs s Hsum) as [_ Hlook]. rewrite Hlook. simpl.
    by rewrite lookup_insert_eq.
Qed.

(** C10, as the code has it.  In every tracker reached from the
    constructor by [mark_detected] and [check_and_reset] calls, a call
    that raises included (the clock reading a time after the epoch): a
    recorded timestamp is truthy, so [is_detected] is true for a carrier
    exactly when the carrier has a timestamp that passes the truth test
    of [get_summary]; [get_summary] returns exactly when [fromtimestamp]
    accepts every recorded timestamp; and whenever it returns,
    [is_detected] is true for a carrier exactly when the summary reports
    it detected. *)
Theorem is_detected_agrees_with_summary (t : tracker) :
  reachable t →
  (∀ c ts, detections t !! c = Some (Some ts) → truthy ts = true) ∧
  (∀ c, is_detected c t = true ↔
        ∃ ts, detections t !! c = Some (Some ts) ∧ truthy ts = true) ∧
  (is_Some (get_summary t) ↔ recorded_ok t) ∧
  (∀ s, get_summary t = Some s →
     ∀ c, is_detected c t = true ↔
          ∃ e, s_carriers s !! c = Some e ∧ detected e = true).
Proof.
  intros Hr. pose proof (reachable_log_inv t Hr) as Hinv.
  destruct (get_summary_log t Hinv) as [Hret Hs].
  split; [apply Hinv|]. split.
  { intros c. unfold is_detected.
    destruct (detections t !! c) as [[ts|]|] eqn:E.
    - split; [|done]. intros _. exists ts. split; [done|].
      by apply (proj2 Hinv c).
    - split; [done | by intros (ts & [=] & _)].
    - split; [done | by intros (ts & [=] & _)]. }
  split; [exact Hret|].
  intros s Hsum c. destruct (Hs s Hsum) as [_ Hlook]. rewrite Hlook.
  unfold is_detected. destruct (detections t !! c) as [[ts|]|].
  - split; [by eexists | done].
  - split; [done | by intros (e & [= <-] & ?)].
  - split; [done | by intros (e & ? & ?)].
Qed.

End TrackerLogFacts.

Section TrackerLogExamples.
Import DailyCarrierTracker TrackerLog.

Lemma mark_detected_first_only_witness :
  let t := init ["ups"; "usps"] 3 (mkDatetime 739000 9 30 0 0) in
  tracker_inv t ∧ recorded_ok years_1_to_9999 t ∧
  (∃ t', mark_detected years_1_to_9999 1700000000 "ups" (Some 1700000000) t
           = (Some true, t') ∧
         detections t' !! "ups" = Some (Some 1700000000) ∧
         mark_detected years_1_to_9999 1700000900 "ups" (Some 1700000900) t'
           = (Some false, t') ∧
         ∃ s, get_summary years_1_to_9999 t' = Some s ∧
              s_carriers s !! "ups" = Some (mkEntry true (Some 1700000000))) ∧
  (∃ t', mark_detected years_1_to_9999 1700000000 "usps" None t
           = (Some true, t') ∧
         detections t' !! "usps" = Some (Some 1700000000)) ∧
  (∃ t', mark_detected years_1_to_9999 1700000000 "usps" (Some 0) t
           = (Some true, t') ∧
         detections t' !! "usps" = Some (Some 1700000000)).
Proof.
  intros t.
  assert (tracker_inv t) as Hinv by apply init_inv.
  assert (recorded_ok years_1_to_9999 t) as Hok by apply init_recorded_ok.
  split; [exact Hinv|]. split; [exact Hok|]. split; [|split].
  - destruct (mark_detected_first_only years_1_to_9999 t "ups"
                (Some 1700000000) (Some 1700000900) 1700000000 1700000900
                (mkDatetime 739000 9 45 0 0) Hinv Hok) as [_ H].
    destruct H as (rec & t' & H1 & _ & _ & _ & H5 & _ & H7 & _ & H9 & _ & H11);
      [by left | reflexivity |].
    assert (rec = 1700000000) as -> by (by apply (H1 1700000000)).
    exists t'. split; [by apply H5|]. split; [exact H7|]. split; [exact H9|].
    by apply H11.
  - destruct (mark_detected_first_only years_1_to_9999 t "usps"
                None None 1700000000 1700000900
                (mkDatetime 739000 9 45 0 0) Hinv Hok) as [_ H].
    destruct H as (rec & t' & _ & _ & H3 & _ & H5 & _ & H7 & _);
      [by right; left | reflexivity |].
    assert (rec = 1700000000) as -> by (by apply H3).
    exists t'. split; [by apply H5 | exact H7].
  - destruct (mark_detected_first_only years_1_to_9999 t "usps"
                (Some 0) None 1700000000 1700000900
                (mkDatetime 739000 9 45 0 0) Hinv Hok) as [_ H].
    destruct H as (rec & t' & _ & H2 & _ & _ & H5 & _ & H7 & _);
      [by right; left | reflexivity |].
    assert (rec = 1700000000) as -> by (by apply (H2 0)).
    exists t'. split; [by apply H5 | exact H7].
Defined.

(** A tracker built at 00:00:05 on 1 January 1970 with reset hour 0, the
    clock reading 5.  A first detection stamped 0, a timestamp of that
    same day, returns true but records the clock reading 5, and the
    summary reports 5.  A first detection stamped [10^18], which
    [fromtimestamp] rejects, is recorded, but the call raises, and so does
    [get_summary] afterwards. *)
Lemma mark_detected_zero_timestamp :
  let t := init ["ups"; "usps"] 0 (mkDatetime 719163 0 0 5 0) in
  (∃ t' s, mark_detected years_1_to_9999 5 "ups" (Some 0) t = (Some true, t') ∧
           detections t' !! "ups" = Some (Some 5) ∧
           detections t' !! "ups" ≠ Some (Some 0) ∧
           get_summary years_1_to_9999 t' = Some s ∧
           s_carriers s !! "ups" = Some (mkEntry true (Some 5))) ∧
  (∃ t', mark_detected years_1_to_9999 5 "ups" (Some 1000000000000000000) t
           = (None, t') ∧
         detections t' !! "ups" = Some (Some 1000000000000000000) ∧
         get_summary years_1_to_9999 t' = None).
Proof.
  intros t. split.
  - do 2 eexists. split; [reflexivity|]. split; [reflexivity|].
    split; [discriminate|]. split; [reflexivity|]. reflexivity.
  - eexists. split; [reflexivity|]. split; reflexivity.
Qed.

Lemma is_detected_agrees_with_summary_witness :
  let t := step years_1_to_9999 (MarkDetected 1700000000 "ups" None)
             (init ["ups"; "usps"] 3 (mkDatetime 739000 9 30 0 0)) in
  reachable years_1_to_9999 t ∧
  detections t !! "ups" = Some (Some 1700000000) ∧
  recorded_ok years_1_to_9999 t ∧
  ∃ s, get_summary years_1_to_9999 t = Some s ∧
    ∀ c, is_detected c t = true ↔
         ∃ e, s_carriers s !! c = Some e ∧ detected e = true.
Proof.
  intros t.
  assert (reachable years_1_to_9999 t) as Hr.
  { apply reach_step; [apply reach_init | split; reflexivity]. }
  destruct (is_detected_agrees_with_summary years_1_to_9999 t Hr)
    as (_ & _ & Hret & Hagree).
  destruct (get_summary years_1_to_9999 t) as [s|] eqn:E;
    [|vm_compute in E; discriminate].
  split; [exact Hr|]. split; [reflexivity|].
  split; [apply Hret; by eexists|].
  exists s. split; [reflexivity|]. by apply Hagree.
Defined.

(** A tracker reached by a [mark_detected] call stamped [10^18]: the call
    raises in its log line after recording the timestamp, so
    [is_detected] is true for the carrier while [get_summary] raises and
    reports nothing. *)
Lemma get_summary_raises_after_mark :
  let t0 := init ["ups"; "usps"] 3 (mkDatetime 739000 9 30 0 0) in
  let c := MarkDetected 1700000000 "ups" (Some 1000000000000000000) in
  let t := step years_1_to_9999 c t0 in
  clock_ok years_1_to_9999 c ∧ reachable years_1_to_9999 t ∧
  fst (mark_detected years_1_to_9999 1700000000 "ups"
         (Some 1000000000000000000) t0) = None ∧
  is_detected "ups" t = true ∧
  get_summary years_1_to_9999 t = None.
Proof.
  intros t0 c t.
  assert (clock_ok years_1_to_9999 c) as Hc by (split; reflexivity).
  split; [exact Hc|]. split; [by apply reach_step; [apply reach_init|]|].
  split; [reflexivity|]. split; reflexivity.
Qed.

End TrackerLogExamples.

(** ** StateReconciler *)

Section SidecarFacts.
Import Sidecar.

Lemma nonempty_false x : nonempty x = false ↔ x = ∅.
Proof.
  unfold nonempty. rewrite negb_false_iff. apply bool_decide_eq_true.
Qed.

Lemma nonempty_true x : nonempty x = true ↔ x ≠ ∅.
Proof.
  unfold nonempty. rewrite negb_true_iff. apply bool_decide_eq_false.
Qed.

Lemma lower_set_nonempty l : l ≠ [] → lower_set (Some l) ≠ ∅.
Proof.
  destruct l as [|x l]; [done|]. intros _. unfold lower_set. simpl. set_solver.
Qed.

Lemma ensure_reset_not_due RESET_H clk s :
  reset_due RESET_H clk s = false → _ensure_reset_if_needed RESET_H clk s = s.
Proof. intros H. unfold _ensure_reset_if_needed. by rewrite H. Qed.

Lemma ensure_reset_CURR RESET_H clk s :
  CURR (_ensure_reset_if_needed RESET_H clk s) = CURR s.
Proof. unfold _ensure_reset_if_needed. by destruct (reset_due _ _ _). Qed.

Lemma coerce_event clk p :
  event_shaped p →
  _coerce_services clk p =
    (lower_set (p_entered p), lower_set (p_current p), lower_set (p_today p),
     default (Some (now_ts clk)) (p_ts p)).
Proof.
  intros H. unfold _coerce_services. unfold event_shaped in H.
  destruct (p_entered p), (p_current p), (p_today p); simpl; try done.
  destruct H as [[? ?]|[[? ?]|[? ?]]]; done.
Qed.

Lemma coerce_services_shape clk p :
  services_shaped p →
  _coerce_services clk p = (lower_set (p_services p), ∅, ∅, Some (now_ts clk)).
Proof.
  intros [Hne [l Hl]]. unfold _coerce_services, event_shaped in *.
  destruct (p_entered p); [exfalso; apply Hne; left; by eexists|].
  destruct (p_current p); [exfalso; apply Hne; right; left; by eexists|].
  destruct (p_today p); [exfalso; apply Hne; right; right; by eexists|].
  simpl. by rewrite Hl.
Qed.

Lemma on_message_services RESET_H clk p s :
  services_shaped p →
  let S := lower_set (p_services p) in
  let s0 := _ensure_reset_if_needed RESET_H clk s in
  fst (on_message RESET_H clk p s) =
    mkState (CURR s ∪ S) (TODAY s0 ∪ S) (LAST_RESET_DAY s0).
Proof.
  intros Hs S s0. unfold on_message. rewrite (coerce_services_shape clk p Hs).
  fold S. fold s0.
  assert (nonempty ∅ = false) as -> by by apply nonempty_false.
  destruct (nonempty S) eqn:E; simpl.
  - by rewrite <- (ensure_reset_CURR RESET_H clk s).
  - apply nonempty_false in E. rewrite E, !union_empty_r_L.
    rewrite <- (ensure_reset_CURR RESET_H clk s). fold s0.
    clearbody s0. by destruct s0.
Qed.

(** The state an accepted message leaves behind, one field at a time. *)
Lemma on_message_accepted RESET_H clk p s e c td ts :
  _coerce_services clk p = (e, c, td, Some ts) →
  let s0 := _ensure_reset_if_needed RESET_H clk s in
  on_message RESET_H clk p s =
    (mkState (if nonempty c then c
              else if nonempty e then CURR s0 ∪ e else CURR s0)
             (if nonempty td then td
              else if nonempty e then TODAY s0 ∪ e else TODAY s0)
             (LAST_RESET_DAY s0),
     nonempty e || nonempty c || nonempty td).
Proof.
  intros Hco s0. unfold on_message. rewrite Hco. fold s0.
  destruct s0 as [C T L].
  by destruct (nonempty e), (nonempty c), (nonempty td).
Qed.

Lemma nonempty_union_if (X e : gset string) :
  (if nonempty e then X ∪ e else X) = X ∪ e.
Proof.
  destruct (nonempty e) eqn:E; [done|].
  apply nonempty_false in E. by rewrite E, union_empty_r_L.
Qed.

Lemma lower_set_nonempty_iff (field : option (list string)) :
  nonempty (lower_set field) = true ↔ default [] field ≠ [].
Proof.
  rewrite nonempty_true. unfold lower_set.
  destruct (default [] field) as [|x l]; simpl; [done|].
  split; [done|]. intros _. set_solver.
Qed.

(** C5, as the code has it.  For an accepted message that gives a
    [current] array: a non-empty array makes [current] exactly its
    lower-cased contents, an empty one leaves [current] as it was with
    the lower-cased [entered] names added.  [today] becomes the
    lower-cased [today] array when the message gives a non-empty one;
    otherwise it is the old [today], emptied first when the daily reset
    is due, with the lower-cased [entered] names added, and so is left
    as it was when no reset is due and no name is entered. *)
Theorem on_message_event_current (RESET_H : Z) (clk : clock) (p : payload)
    (s : state) (cur : list string) :
  accepted clk p → p_current p = Some cur →
  let s' := fst (on_message RESET_H clk p s) in
  let ent : gset string := list_to_set (lower <$> default [] (p_entered p)) in
  let tod := default [] (p_today p) in
  (cur ≠ [] → CURR s' = list_to_set (lower <$> cur)) ∧
  (cur = [] → CURR s' = CURR s ∪ ent) ∧
  (tod ≠ [] → TODAY s' = list_to_set (lower <$> tod)) ∧
  (tod = [] → reset_due RESET_H clk s = false → TODAY s' = TODAY s ∪ ent) ∧
  (tod = [] → reset_due RESET_H clk s = true → TODAY s' = ent) ∧
  (tod = [] → default [] (p_entered p) = [] →
   reset_due RESET_H clk s = false → TODAY s' = TODAY s).
Proof.
  intros Hacc Hcur s' ent tod.
  assert (event_shaped p) as Hev by (right; left; by eexists).
  unfold accepted in Hacc. rewrite (coerce_event clk p Hev) in Hacc.
  destruct Hacc as [ts Hts]. simpl in Hts.
  assert (_coerce_services clk p =
            (lower_set (p_entered p), lower_set (p_current p),
             lower_set (p_today p), Some ts)) as Hco.
  { by rewrite (coerce_event clk p Hev), Hts. }
  unfold s'. rewrite (on_message_accepted RESET_H clk p s _ _ _ ts Hco).
  cbn [fst CURR TODAY]. rewrite !nonempty_union_if.
  change (lower_set (p_entered p)) with ent.
  assert (lower_set (p_current p) = list_to_set (lower <$> cur)) as Ec.
  { unfold lower_set. by rewrite Hcur. }
  assert (nonempty (lower_set (p_current p)) = true ↔ cur ≠ []) as Nc.
  { rewrite lower_set_nonempty_iff. by rewrite Hcur. }
  pose proof (lower_set_nonempty_iff (p_today p)) as Nt. fold tod in Nt.
  assert (∀ b, reset_due RESET_H clk s = b →
            TODAY (_ensure_reset_if_needed RESET_H clk s)
              = if b then ∅ else TODAY s) as Hdue.
  { intros b Hb. unfold _ensure_reset_if_needed. rewrite Hb. by destruct b. }
  split; [|split; [|split; [|split; [|split]]]].
  - intros Hne. apply Nc in Hne. by rewrite Hne, Ec.
  - intros He. assert (nonempty (lower_set (p_current p)) = false) as ->.
    { apply not_true_iff_false. intros H%Nc. done. }
    by rewrite ensure_reset_CURR.
  - intros Hne. apply Nt in Hne. by rewrite Hne.
  - intros He Hd. assert (nonempty (lower_set (p_today p)) = false) as ->.
    { apply not_true_iff_false. intros H%Nt. done. }
    by rewrite (Hdue false Hd).
  - intros He Hd. assert (nonempty (lower_set (p_today p)) = false) as ->.
    { apply not_true_iff_false. intros H%Nt. done. }
    by rewrite (Hdue true Hd), union_empty_l_L.
  - intros He Hent Hd. assert (nonempty (lower_set (p_today p)) = false) as ->.
    { apply not_true_iff_false. intros H%Nt. done. }
    rewrite (Hdue false Hd). unfold ent. rewrite Hent. simpl.
    by rewrite union_empty_r_L.
Qed.

Lemma handle_all_cons RESET_H m msgs s :
  handle_all RESET_H (m :: msgs) s
    = handle_all RESET_H msgs (fst (on_message RESET_H m.1 m.2 s)).
Proof. done. Qed.

(** While the day of the last reset stays what it is, a reset that is not
    due at the start of a run of services-shaped messages is not due at
    any message of the run. *)
Lemma no_reset_falls_due_start RESET_H msgs s :
  Forall (λ m, services_shaped m.2) msgs →
  Forall (λ m, reset_due RESET_H m.1 s = false) msgs →
  no_reset_falls_due RESET_H msgs s.
Proof.
  revert s. induction msgs as [|[clk p] msgs IH]; intros s HF HD; simpl; [done|].
  apply Forall_cons in HF as [Hp HF]. apply Forall_cons in HD as [Hd HD].
  simpl in Hp, Hd. split; [done|]. apply IH; [done|].
  eapply Forall_impl; [exact HD|]. intros m Hm. simpl in Hm.
  rewrite <- Hm. unfold reset_due.
  rewrite (on_message_services RESET_H clk p s Hp). simpl.
  by rewrite (ensure_reset_not_due _ _ _ Hd).
Qed.

Lemma handle_all_services_CURR RESET_H msgs s :
  Forall (λ m, services_shaped m.2) msgs →
  CURR (handle_all RESET_H msgs s)
    = CURR s ∪ ⋃ ((λ m, lower_set (p_services m.2)) <$> msgs).
Proof.
  revert s. induction msgs as [|[clk' p'] msgs IH]; intros s HF.
  - simpl. by rewrite union_empty_r_L.
  - apply Forall_cons in HF as [Hp HF]. simpl in Hp.
    rewrite handle_all_cons, (IH _ HF).
    cbn [fst snd]. rewrite (on_message_services RESET_H clk' p' s Hp).
    cbn [CURR fmap list_fmap union_list foldr snd].
    by rewrite (assoc_L (∪)).
Qed.

Lemma handle_all_services_TODAY RESET_H msgs s :
  Forall (λ m, services_shaped m.2) msgs →
  no_reset_falls_due RESET_H msgs s →
  TODAY (handle_all RESET_H msgs s)
    = TODAY s ∪ ⋃ ((λ m, lower_set (p_services m.2)) <$> msgs).
Proof.
  revert s. induction msgs as [|[clk' p'] msgs IH]; intros s HF HN.
  - simpl. by rewrite union_empty_r_L.
  - apply Forall_cons in HF as [Hp HF]. simpl in Hp.
    destruct HN as [Hd HN]. simpl in Hd, HN.
    rewrite handle_all_cons. cbn [fst snd]. rewrite (IH _ HF HN).
    rewrite (on_message_services RESET_H clk' p' s Hp).
    rewrite (ensure_reset_not_due _ _ _ Hd).
    cbn [TODAY fmap list_fmap union_list foldr snd].
    by rewrite (assoc_L (∪)).
Qed.

(** C6, as the code has it.  A services-shaped message carrying [S]
    makes [current] into [current ∪ lower(S)], and [today] into
    [today ∪ lower(S)] unless the daily reset is due, in which case
    [today] is emptied first and becomes [lower(S)].  Over any run of
    services-shaped messages [current] becomes the union of what it was
    with all the service sets, and loses no entry; [today] does the same
    while no daily reset falls due, which is the case when none is due
    for any of the clock readings at the start of the run. *)
Theorem on_message_services_union (RESET_H : Z) (clk : clock) (p : payload)
    (s : state) (msgs : list (clock * payload)) :
  services_shaped p →
  let S : gset string := list_to_set (lower <$> default [] (p_services p)) in
  let s' := fst (on_message RESET_H clk p s) in
  CURR s' = CURR s ∪ S ∧
  TODAY s' = TODAY (_ensure_reset_if_needed RESET_H clk s) ∪ S ∧
  (reset_due RESET_H clk s = false → TODAY s' = TODAY s ∪ S) ∧
  (reset_due RESET_H clk s = true → TODAY s' = S) ∧
  (Forall (λ m, services_shaped m.2) msgs →
   let all : gset string :=
     ⋃ ((λ m, list_to_set (lower <$> default [] (p_services m.2))) <$> msgs) in
   CURR (handle_all RESET_H msgs s) = CURR s ∪ all ∧
   CURR s ⊆ CURR (handle_all RESET_H msgs s) ∧
   (no_reset_falls_due RESET_H msgs s →
    TODAY (handle_all RESET_H msgs s) = TODAY s ∪ all ∧
    TODAY s ⊆ TODAY (handle_all RESET_H msgs s)) ∧
   (Forall (λ m, reset_due RESET_H m.1 s = false) msgs →
    no_reset_falls_due RESET_H msgs s)).
Proof.
  intros Hs S s'. subst s'. rewrite (on_message_services RESET_H clk p s Hs).
  change (lower_set (p_services p)) with S. simpl. clearbody S. clear Hs.
  split; [done|]. split; [done|].
  split; [intros Hdue; by rewrite ensure_reset_not_due|].
  split.
  { intros Hdue. unfold _ensure_reset_if_needed. rewrite Hdue. simpl.
    by rewrite union_empty_l_L. }
  intros HF.
  pose proof (handle_all_services_CURR RESET_H msgs s HF) as HC.
  split; [exact HC|]. split; [rewrite HC; apply union_subseteq_l|].
  split; [|by apply no_reset_falls_due_start].
  intros HN.
  pose proof (handle_all_services_TODAY RESET_H msgs s HF HN) as HT.
  split; [exact HT|]. rewrite HT. apply union_subseteq_l.
Qed.

End SidecarFacts.

Section SidecarExamples.
Import Sidecar.

Lemma on_message_event_current_witness :
  let p := mkPayload (Some ["DHL"]) (Some ["UPS"; "FedEx"]) None
             (Some (Some 1700000000%Z)) None in
  let q := mkPayload (Some ["DHL"]) (Some []) None None None in
  let s := mkState {["usps"]} {["usps"; "ups"]} (Some 100%Z) in
  let clk := mkClock 100 12 1700000005 in
  let late := mkClock 101 4 1700060000 in
  accepted clk p ∧
  CURR (fst (on_message 3 clk p s)) = {["ups"; "fedex"]} ∧
  TODAY (fst (on_message 3 clk p s)) = {["usps"; "ups"; "dhl"]} ∧
  TODAY (fst (on_message 3 late p s)) = {["dhl"]} ∧
  CURR (fst (on_message 3 clk q s)) = {["usps"; "dhl"]}.
Proof.
  intros p q s clk late.
  assert (accepted clk p) as Hacc by (by eexists).
  assert (accepted late p) as Hacc' by (by eexists).
  assert (accepted clk q) as Hacq by (by eexists).
  destruct (on_message_event_current 3 clk p s ["UPS"; "FedEx"] Hacc eq_refl)
    as (H1 & _ & _ & H4 & _).
  destruct (on_message_event_current 3 late p s ["UPS"; "FedEx"] Hacc' eq_refl)
    as (_ & _ & _ & _ & H5 & _).
  destruct (on_message_event_current 3 clk q s [] Hacq eq_refl)
    as (_ & H2 & _).
  split; [exact Hacc|]. split; [|split; [|split]].
  - rewrite H1 by discriminate. by vm_compute.
  - rewrite H4 by reflexivity. by vm_compute.
  - rewrite H5 by reflexivity. by vm_compute.
  - rewrite H2 by reflexivity. by vm_compute.
Defined.

(** An accepted event-shaped message with ["current": []] leaves
    [current] as it was, not empty; and one with [entered] and [current]
    but no [today] array adds the entered carrier to [today]. *)
Lemma on_message_event_current_fails :
  let clk := mkClock 100 12 1700000005 in
  let s := mkState {["usps"]} {["usps"]} (Some 100%Z) in
  let p1 := mkPayload None (Some []) None None None in
  let p2 := mkPayload (Some ["DHL"]) (Some ["ups"]) None None None in
  (accepted clk p1 ∧ event_shaped p1 ∧
   CURR (fst (on_message 3 clk p1 s)) = {["usps"]} ∧
   CURR (fst (on_message 3 clk p1 s)) ≠ list_to_set (lower <$> [])) ∧
  (accepted clk p2 ∧ event_shaped p2 ∧ p_today p2 = None ∧
   TODAY (fst (on_message 3 clk p2 s)) = {["usps"; "dhl"]} ∧
   TODAY (fst (on_message 3 clk p2 s)) ≠ TODAY s).
Proof.
  intros clk s p1 p2. split.
  - split; [by eexists|]. split; [right; left; by eexists|].
    split; [reflexivity|]. vm_compute. discriminate.
  - split; [by eexists|]. split; [right; left; by eexists|].
    split; [reflexivity|]. split; [by vm_compute|]. vm_compute. discriminate.
Qed.

Lemma on_message_services_union_witness :
  let p := mkPayload None None None None (Some ["FedEx"]) in
  let q := mkPayload None None None None (Some ["UPS"; "fedex"]) in
  let s := mkState {["usps"]} {["usps"]} (Some 100%Z) in
  let clk := mkClock 100 12 1700000005 in
  let early := mkClock 101 2 1700050000 in
  let msgs := [(clk, p); (early, q)] in
  services_shaped p ∧
  CURR (fst (on_message 3 clk p s)) = {["usps"; "fedex"]} ∧
  TODAY (fst (on_message 3 clk p s)) = {["usps"; "fedex"]} ∧
  no_reset_falls_due 3 msgs s ∧
  CURR (handle_all 3 msgs s) = {["usps"; "fedex"; "ups"]} ∧
  TODAY (handle_all 3 msgs s) = {["usps"; "fedex"; "ups"]}.
Proof.
  intros p q s clk early msgs.
  assert (∀ l, services_shaped (mkPayload None None None None (Some l))) as Hs.
  { intros l. split; [|by eexists]. intros [[? ?]|[[? ?]|[? ?]]]; discriminate. }
  destruct (on_message_services_union 3 clk p s msgs (Hs _))
    as (H1 & _ & H3 & _ & H5).
  destruct H5 as (HC & _ & HT & HN); [repeat constructor; apply Hs|].
  assert (no_reset_falls_due 3 msgs s) as Hno
    by (apply HN; repeat constructor).
  destruct (HT Hno) as [HT' _].
  split; [apply Hs|]. split; [|split; [|split; [exact Hno|split]]].
  - rewrite H1. by vm_compute.
  - rewrite H3 by reflexivity. by vm_compute.
  - rewrite HC. by vm_compute.
  - rewrite HT'. by vm_compute.
Defined.

(** A services-shaped message handled at 04:00 on the day after the last
    reset, with reset hour 3: the reset empties [today] first, so "ups" is
    lost from it. *)
Lemma on_message_services_reset_drops :
  let p := mkPayload None None None None (Some ["FedEx"]) in
  let s := mkState {["ups"]} {["ups"]} (Some 100%Z) in
  let clk := mkClock 101 4 1700000005 in
  services_shaped p ∧
  ("ups" ∈ TODAY s) ∧
  (TODAY (fst (on_message 3 clk p s)) = {["fedex"]}) ∧
  ("ups" ∉ TODAY (fst (on_message 3 clk p s))) ∧
  (TODAY (fst (on_message 3 clk p s)) ≠ TODAY s ∪ lower_set (p_services p)).
Proof.
  intros p s clk.
  assert (services_shaped p) as Hs.
  { split; [|by eexists]. intros [[? ?]|[[? ?]|[? ?]]]; discriminate. }
  split; [exact Hs|].
  split; [by vm_compute|].
  assert (TODAY (fst (on_message 3 clk p s)) = {["fedex"]}) as E by by vm_compute.
  split; [exact E|]. rewrite E. split.
  - rewrite elem_of_singleton. discriminate.
  - vm_compute. discriminate.
Qed.

End SidecarExamples.

(** * Further properties *)

(** ** Suppressor: order of the kept indices and cause of a suppression *)

Lemma StronglySorted_sublist {A} (R : relation A) l1 l2 :
  sublist l1 l2 → StronglySorted R l2 → StronglySorted R l1.
Proof.
  induction 1 as [|x l1 l2 Hs IH|x l1 l2 Hs IH]; intros HS.
  - constructor.
  - apply StronglySorted_inv in HS as [HS HF]. constructor; [by apply IH|].
    rewrite Forall_forall in HF |- *. intros y Hy. apply HF.
    by eapply elem_of_sublist.
  - apply StronglySorted_inv in HS as [HS _]. by apply IH.
Qed.

Lemma StronglySorted_lookup {A} (R : relation A) l p q x y :
  StronglySorted R l → (p < q)%nat → l !! p = Some x → l !! q = Some y → R x y.
Proof.
  intros HS. revert p q. induction HS as [|a l _ IH HF]; intros p q Hpq Hp Hq.
  - done.
  - destruct q as [|q]; [lia|]. simpl in Hq. destruct p as [|p]; simpl in Hp.
    + injection Hp as ->. rewrite Forall_forall in HF. apply HF.
      by eapply list_elem_of_lookup_2.
    + apply (IH p q); [lia | done | done].
Qed.

Section SuppressorMore.
Import Suppressor.

Lemma mask_select_or_dropped (xyxy : list Box) thr bi rest brs j :
  mapM (λ r, xyxy !! r) rest = Some brs → j ∈ rest →
  j ∈ mask_select rest (map (λ v, Qltb v thr) (map (iou bi) brs)) ∨
  ∃ bj, xyxy !! j = Some bj ∧ thr <= iou bi bj.
Proof.
  rewrite mapM_Some. intros HF. induction HF as [|r b rest brs Hr _ IH]; simpl.
  - intros H. by apply elem_of_nil in H.
  - rewrite elem_of_cons. intros [-> | Hj].
    + destruct (Qltb (iou bi b) thr) eqn:E; [left; by left|].
      right. exists b. split; [done|]. by apply Qltb_false.
    + destruct (IH Hj) as [Hin|Hdrop]; [|by right].
      left. destruct (Qltb (iou bi b) thr); [by right | done].
Qed.

Lemma nms_loop_suppressed (R : relation nat) xyxy thr idx keep :
  StronglySorted R idx → nms_loop xyxy thr idx = Some keep →
  ∀ j, j ∈ idx →
    j ∈ keep ∨
    ∃ k bk bj, k ∈ keep ∧ R k j ∧ xyxy !! k = Some bk ∧ xyxy !! j = Some bj ∧
               thr <= iou bk bj.
Proof.
  revert keep.
  apply (nms_loop_elim
    (λ xyxy thr idx res, ∀ keep, StronglySorted R idx → res = Some keep →
       ∀ j, j ∈ idx →
         j ∈ keep ∨
         ∃ k bk bj, k ∈ keep ∧ R k j ∧ xyxy !! k = Some bk ∧
                    xyxy !! j = Some bj ∧ thr <= iou bk bj)).
  - intros ? ? keep _ _ j Hj. by apply elem_of_nil in Hj.
  - intros ? ? i keep _ [= <-] j Hj. by left.
  - clear. intros xyxy thr i bi n0 l brs IH Hbrs Hbi keep HS. cbv zeta in *.
    destruct (nms_loop _ _ _) as [keep'|] eqn:E; simpl; [|done].
    intros [= <-] j Hj.
    apply StronglySorted_inv in HS as [HS HF]. rewrite Forall_forall in HF.
    apply elem_of_cons in Hj as [-> | Hj]; [left; by left|].
    destruct (mask_select_or_dropped xyxy thr bi _ _ j Hbrs Hj) as [Hin|(bj & Hbj & Hiou)].
    + assert (StronglySorted R (mask_select (n0 :: l)
                (map (λ v, Qltb v thr) (map (iou bi) brs)))) as HS'.
      { eapply StronglySorted_sublist; [apply mask_select_sublist | exact HS]. }
      destruct (IH keep' HS' eq_refl j Hin) as [Hk|(k & bk & bj & Hk & HR & ?)].
      * left. by right.
      * right. exists k, bk, bj. split; [by right | done].
    + right. exists i, bi, bj. split; [by left|]. split; [by apply HF | done].
  - intros; discriminate.
  - intros; discriminate.
Qed.

Lemma nms_key_scores scores i j :
  key_le (map Qopp scores) i j → nth j scores 0 <= nth i scores 0.
Proof.
  intros H. unfold key_le in H. rewrite Is_true_true, Qle_bool_iff in H.
  rewrite !nth_map_opp in H. lra.
Qed.

(** X1.  The indices [nms] returns are listed from the highest score to
    the lowest: an index that comes later in [keep] never has a larger
    score than one that comes earlier. *)
Theorem nms_scores_descending (xyxy : list Box) (scores : list Q) (thr : Q)
    (keep : list nat) (p q i j : nat) :
  nms xyxy scores thr = Some keep →
  (p < q)%nat → keep !! p = Some i → keep !! q = Some j →
  nth j scores 0 <= nth i scores 0.
Proof.
  intros Hnms Hpq Hp Hq. unfold nms in Hnms. apply nms_key_scores.
  destruct (nms_loop_spec _ _ _ _ Hnms) as (Hsub & _ & _).
  eapply (StronglySorted_lookup _ keep p q); eauto.
  eapply StronglySorted_sublist; [exact Hsub | apply argsort_sorted].
Qed.

Lemma nms_scores_descending_witness :
  let xyxy := [mkBox 0 0 10 10; mkBox 1 1 11 11; mkBox 20 20 30 30] in
  let scores := [8 # 10; 9 # 10; 7 # 10] in
  nms xyxy scores (45 # 100) = Some [1%nat; 2%nat] ∧
  nth 2 scores 0 <= nth 1 scores 0.
Proof.
  intros xyxy scores.
  assert (nms xyxy scores (45 # 100) = Some [1%nat; 2%nat]) as H.
  { vm_compute. reflexivity. }
  split; [exact H|].
  apply (nms_scores_descending xyxy scores (45 # 100) [1%nat; 2%nat]
           0%nat 1%nat 1%nat 2%nat H); [lia | reflexivity | reflexivity].
Defined.

(** X2.  [nms] drops a candidate only for a reason: every index that is
    not kept is overlapped, with the loop's IoU at or above the threshold,
    by a kept index whose score is at least as high. *)
Theorem nms_dropped_has_cause (xyxy : list Box) (scores : list Q) (thr : Q)
    (keep : list nat) (j : nat) :
  nms xyxy scores thr = Some keep →
  (j < length scores)%nat → j ∉ keep →
  ∃ k bk bj, k ∈ keep ∧ nth j scores 0 <= nth k scores 0 ∧
    xyxy !! k = Some bk ∧ xyxy !! j = Some bj ∧ thr <= iou bk bj.
Proof.
  intros Hnms Hj Hnot. unfold nms in Hnms.
  pose proof (argsort_sorted (map Qopp scores)) as HS.
  pose proof (argsort_perm (map Qopp scores)) as Hperm.
  rewrite length_map in Hperm.
  assert (j ∈ argsort (map Qopp scores)) as Hin.
  { rewrite Hperm. apply elem_of_seq. lia. }
  destruct (nms_loop_suppressed _ _ _ _ _ HS Hnms j Hin)
    as [Hk|(k & bk & bj & Hk & HR & Hbk & Hbj & Hiou)]; [done|].
  exists k, bk, bj. split; [done|]. split; [by apply nms_key_scores | done].
Qed.

Lemma nms_dropped_has_cause_witness :
  let xyxy := [mkBox 0 0 10 10; mkBox 1 1 11 11; mkBox 20 20 30 30] in
  let scores := [8 # 10; 9 # 10; 7 # 10] in
  nms xyxy scores (45 # 100) = Some [1%nat; 2%nat] ∧
  ∃ k bk bj, k ∈ [1%nat; 2%nat] ∧ nth 0 scores 0 <= nth k scores 0 ∧
    xyxy !! k = Some bk ∧ xyxy !! 0%nat = Some bj ∧ 45 # 100 <= iou bk bj.
Proof.
  intros xyxy scores.
  assert (nms xyxy scores (45 # 100) = Some [1%nat; 2%nat]) as H.
  { vm_compute. reflexivity. }
  split; [exact H|].
  apply (nms_dropped_has_cause xyxy scores (45 # 100) [1%nat; 2%nat] 0%nat H).
  - simpl. lia.
  - intros Hin. apply elem_of_cons in Hin as [Hin|Hin]; [discriminate|].
    apply elem_of_cons in Hin as [Hin|Hin]; [discriminate|].
    by apply elem_of_nil in Hin.
Defined.

Lemma nms_loop_reads (xyxy : list Box) thr idx keep :
  nms_loop xyxy thr idx = Some keep → (2 <= length idx)%nat →
  ∀ x, x ∈ idx → is_Some (xyxy !! x).
Proof.
  revert keep.
  apply (nms_loop_elim
    (λ xyxy thr idx res, ∀ keep, res = Some keep →
       (2 <= length idx)%nat → ∀ x, x ∈ idx → is_Some (xyxy !! x))).
  - intros; simpl in *; lia.
  - intros; simpl in *; lia.
  - clear. intros xyxy thr i bi n0 l brs _ Hbrs Hbi keep _ _ x Hx.
    apply elem_of_cons in Hx as [-> | Hx]; [by eexists|].
    rewrite mapM_Some in Hbrs.
    apply list_elem_of_lookup_1 in Hx as [k Hk].
    destruct (Forall2_lookup_l _ _ _ _ _ Hbrs Hk) as (b & _ & Hb).
    by eexists.
  - intros; discriminate.
  - intros; discriminate.
Qed.

(** X3.  The score array drives the loop: with two or more scores and
    fewer boxes than scores, [nms] reads a row of [xyxy] that does not
    exist and raises; with a single score it returns index 0 without
    reading [xyxy] at all. *)
Theorem nms_fewer_boxes_raises (xyxy : list Box) (scores : list Q) (thr : Q) :
  ((length xyxy < length scores)%nat → (2 <= length scores)%nat →
   nms xyxy scores thr = None) ∧
  (length scores = 1%nat → nms xyxy scores thr = Some [0%nat]).
Proof.
  split.
  - intros Hlt H2. unfold nms.
    pose proof (argsort_perm (map Qopp scores)) as Hperm.
    rewrite length_map in Hperm.
    assert (length xyxy ∈ argsort (map Qopp scores)) as Hin.
    { rewrite Hperm. apply elem_of_seq. lia. }
    assert (length (argsort (map Qopp scores)) = length scores) as Hlen.
    { rewrite Hperm. apply length_seq. }
    destruct (argsort (map Qopp scores)) as [|i [|r rest]] eqn:E;
      simpl in Hlen; [lia | lia |].
    destruct (nms_loop xyxy thr (i :: r :: rest)) as [keep|] eqn:Hk; [|done].
    exfalso.
    destruct (nms_loop_reads _ _ _ _ Hk ltac:(simpl; lia) _ Hin) as [b Hb].
    apply lookup_lt_Some in Hb. lia.
  - intros H1. unfold nms.
    pose proof (argsort_perm (map Qopp scores)) as Hperm.
    rewrite length_map, H1 in Hperm. simpl in Hperm.
    apply Permutation_singleton_r in Hperm. rewrite Hperm.
    by simp nms_loop.
Qed.
Lemma nms_fewer_boxes_raises_witness :
  nms [] [5 # 10; 4 # 10] (45 # 100) = None ∧
  nms [] [5 # 10] (45 # 100) = Some [0%nat].
Proof.
  split.
  - apply (nms_fewer_boxes_raises [] [5 # 10; 4 # 10] (45 # 100)); simpl; lia.
  - apply (nms_fewer_boxes_raises [] [5 # 10] (45 # 100)). reflexivity.
Defined.
End SuppressorMore.

(** ** TensorDecoder: class ids, layout and edge cases *)

Section DecoderMore.
Import Suppressor TensorDecoder.
Variable np_exp : Q → Q.

(** What a call of the decoder that returns has computed. *)
Lemma decode_cases output thr w h imgsz d :
  decode_yolo_output np_exp output thr w h imgsz = Some d →
  d = empty_result ∨
  ∃ o obj cls ids,
    select_output output = Some o ∧ (6 <= shape1 (normalize o))%nat ∧
    ensure_probs np_exp (map (λ r, nth 4 r 0) (rows (normalize o)))
                 (map (drop 5) (rows (normalize o))) = Some (obj, cls) ∧
    mapM argmax cls = Some ids ∧ w ≠ 0%Z ∧ h ≠ 0%Z ∧
    let conf := zip_with Qmult obj (zip_with (λ r k, nth k r 0) cls ids) in
    let mask := map (λ c, Qgeb c thr) conf in
    let scale := Qmin (inject_Z imgsz / inject_Z w) (inject_Z imgsz / inject_Z h) in
    d = mkDecoded
          (map (to_xyxy scale ((inject_Z imgsz - inject_Z w * scale) / 2)
                        ((inject_Z imgsz - inject_Z h * scale) / 2) w h)
               (mask_select (map (take 4) (rows (normalize o))) mask))
          (mask_select ids mask) (mask_select conf mask).
Proof.
  unfold decode_yolo_output. intros H.
  destruct (select_output output) as [o|] eqn:Hsel; simpl in H; [|done].
  destruct (Nat.ltb_spec (shape1 (normalize o)) 6) as [|H6].
  { left. by injection H as <-. }
  destruct (ensure_probs _ _ _) as [[obj cls]|] eqn:Ep; simpl in H; [|done].
  destruct (mapM argmax cls) as [cls_ids|] eqn:Ea; simpl in H; [|done].
  destruct (negb _) in H.
  { left. by injection H as <-. }
  destruct (Z.eqb_spec w 0); [done|]. destruct (Z.eqb_spec h 0); [done|].
  simpl in H. injection H as <-. right.
  exists o, obj, cls, cls_ids. repeat split; done.
Qed.

Lemma clip_range v lo hi : lo <= hi → lo <= clip v lo hi ∧ clip v lo hi <= hi.
Proof.
  intros H. unfold clip. split.
  - apply Q.min_glb; [apply Q.le_max_r | done].
  - apply Q.le_min_r.
Qed.

(** Every box the decoder returns lies inside the original image. *)
Lemma decode_boxes_in_image output thr w h imgsz d :
  (0 <= w)%Z → (0 <= h)%Z →
  decode_yolo_output np_exp output thr w h imgsz = Some d →
  Forall (λ b, (0 <= bx1 b ∧ bx1 b <= inject_Z w) ∧
               (0 <= by1 b ∧ by1 b <= inject_Z h) ∧
               (0 <= bx2 b ∧ bx2 b <= inject_Z w) ∧
               (0 <= by2 b ∧ by2 b <= inject_Z h)) (d_xyxy d).
Proof.
  intros Hw Hh H.
  assert (0 <= inject_Z w) as Hw' by (change 0 with (inject_Z 0); rewrite <- Zle_Qle; lia).
  assert (0 <= inject_Z h) as Hh' by (change 0 with (inject_Z 0); rewrite <- Zle_Qle; lia).
  apply decode_cases in H as [-> | (o & obj & cls & ids & _ & _ & _ & _ & _ & _ & ->)].
  { constructor. }
  cbv zeta. simpl. apply Forall_forall. intros b (r & -> & _)%list_elem_of_fmap.
  unfold to_xyxy. simpl. repeat split; by apply clip_range.
Qed.

Lemma argmax_from_lt best besti k a :
  (besti < k)%nat → (argmax_from best besti k a < k + length a)%nat.
Proof.
  revert best besti k. induction a as [|x a IH]; intros best besti k Hk; simpl.
  - lia.
  - destruct (Qgtb x best).
    + specialize (IH x k (S k)). lia.
    + specialize (IH best besti (S k)). lia.
Qed.

Lemma argmax_lt (a : list Q) k : argmax a = Some k → (k < length a)%nat.
Proof.
  destruct a as [|x a]; [done|]. intros [= <-]. simpl.
  pose proof (argmax_from_lt x 0%nat 1%nat a). lia.
Qed.

(** X4.  For a well-formed output array the three arrays the decoder
    returns are parallel and every class id is the index of a class
    column: it is below the number of columns after the first five. *)
Theorem decode_class_ids_valid (output : list tensor) (thr : Q)
    (w h imgsz : Z) (o : ndarray2) (d : decoded) :
  select_output output = Some o → wf_ndarray2 o →
  decode_yolo_output np_exp output thr w h imgsz = Some d →
  length (d_xyxy d) = length (d_cls_ids d) ∧
  length (d_conf d) = length (d_cls_ids d) ∧
  Forall (λ k, (k < shape1 (normalize o) - 5)%nat) (d_cls_ids d).
Proof.
  intros Hsel Hwf H.
  destruct (decode_spec _ _ _ _ _ _ _ H) as (Hl1 & Hl2 & _).
  split; [lia|]. split; [lia|].
  apply decode_cases in H
    as [-> | (o' & obj & cls & ids & Hsel' & H6 & Ep & Ea & _ & _ & ->)].
  { constructor. }
  rewrite Hsel in Hsel'. injection Hsel' as <-.
  cbv zeta. simpl. apply mask_select_Forall.
  pose proof (normalize_wf o Hwf) as [_ Hrows].
  assert (Forall (λ r, length r = (shape1 (normalize o) - 5)%nat) cls) as Hcls.
  { apply ensure_probs_spec in Ep as [(_ & _ & E) | (_ & E)]; injection E as -> ->.
    - apply Forall_forall. intros r (r0 & -> & Hr0)%list_elem_of_fmap.
      rewrite Forall_forall in Hrows. rewrite length_drop.
      by rewrite (Hrows r0 Hr0).
    - apply Forall_forall. intros r (r1 & -> & Hr1)%list_elem_of_fmap.
      apply list_elem_of_fmap in Hr1 as (r0 & -> & Hr0).
      rewrite Forall_forall in Hrows. rewrite length_map, length_drop.
      by rewrite (Hrows r0 Hr0). }
  rewrite mapM_Some in Ea. clear -Ea Hcls.
  induction Ea as [|r k cls ids Hk _ IH]; [constructor|].
  apply Forall_cons in Hcls as [Hr Hcls]. constructor; [|by apply IH].
  apply argmax_lt in Hk. lia.
Qed.

(** X5.  With an image of zero width or height the decoder can only
    return the empty result: it divides by the image size after the
    confidence filter, so any surviving candidate makes it raise. *)
Theorem decode_zero_size_only_empty (output : list tensor) (thr : Q)
    (w h imgsz : Z) (d : decoded) :
  w = 0%Z ∨ h = 0%Z →
  decode_yolo_output np_exp output thr w h imgsz = Some d →
  d = empty_result.
Proof.
  intros Hz H.
  apply decode_cases in H as [-> | (o & obj & cls & ids & _ & _ & _ & _ & Hw & Hh & _)];
    [done|].
  destruct Hz; done.
Qed.

Lemma nth_nil_Q j : nth j (@nil Q) 0 = 0.
Proof. by destruct j. Qed.

Lemma transpose_involutive (o : ndarray2) :
  wf_ndarray2 o → transpose (transpose o) = o.
Proof.
  destruct o as [s0 s1 rs]. intros [Hlen Hrows]. simpl in *.
  unfold transpose. simpl. f_equal.
  apply list_eq. intros i. rewrite list_lookup_fmap.
  destruct (decide (i < s0)%nat) as [Hi|Hi].
  - rewrite lookup_seq_lt by done. simpl.
    destruct (lookup_lt_is_Some_2 rs i) as [r Hr]; [lia|]. rewrite Hr. f_equal.
    rewrite map_map.
    assert (length r = s1) as Hlr.
    { rewrite Forall_forall in Hrows. apply Hrows. by eapply list_elem_of_lookup_2. }
    apply list_eq. intros j. rewrite list_lookup_fmap.
    destruct (decide (j < s1)%nat) as [Hj|Hj].
    + rewrite lookup_seq_lt by done. simpl.
      rewrite (nth_lookup_Some (map _ rs) i 0 (nth j r 0))
        by (by rewrite list_lookup_fmap, Hr).
      destruct (lookup_lt_is_Some_2 r j) as [x Hx]; [lia|].
      by rewrite Hx, (nth_lookup_Some _ _ _ _ Hx).
    + rewrite lookup_seq_ge by lia. simpl. symmetry. apply lookup_ge_None. lia.
  - rewrite lookup_seq_ge by lia. simpl. symmetry. apply lookup_ge_None. lia.
Qed.

Lemma normalize_transpose (o : ndarray2) :
  wf_ndarray2 o → shape0 o ≠ shape1 o → normalize (transpose o) = normalize o.
Proof.
  intros Hwf Hne. unfold normalize. simpl.
  destruct (Nat.ltb_spec (shape1 o) (shape0 o)), (Nat.ltb_spec (shape0 o) (shape1 o));
    try lia; [by apply transpose_involutive | done].
Qed.

(** X6.  The decoder does not depend on the layout of the output array:
    a well-formed array that is not square decodes to the same result
    whether it arrives as [anchors x columns] or transposed. *)
Theorem decode_layout_independent (output output' : list tensor) (thr : Q)
    (w h imgsz : Z) (o : ndarray2) :
  wf_ndarray2 o → shape0 o ≠ shape1 o →
  select_output output = Some o →
  select_output output' = Some (transpose o) →
  decode_yolo_output np_exp output' thr w h imgsz
    = decode_yolo_output np_exp output thr w h imgsz.
Proof.
  intros Hwf Hne Hsel Hsel'. unfold decode_yolo_output.
  rewrite Hsel, Hsel'. simpl. by rewrite (normalize_transpose o Hwf Hne).
Qed.

Hypothesis np_exp_nonneg : ∀ x, 0 <= np_exp x.

Lemma in_unit_slack x : in_unit x → in_slack x.
Proof. unfold in_unit, in_slack. intros [? ?]. split; lra. Qed.

Lemma ensure_probs_in_slack obj cls :
  obj ≠ [] → concat cls ≠ [] →
  Forall in_slack obj → Forall in_slack (concat cls) →
  ensure_probs np_exp obj cls = Some (obj, cls).
Proof.
  intros Ho Hc Hso Hsc.
  destruct (ensure_probs_returns np_exp obj cls Ho Hc) as (obj' & cls' & E & _).
  rewrite E. destruct (ensure_probs_spec np_exp _ _ _ E) as [(_ & _ & ->)|(Hn & _)];
    [done|]. exfalso. by apply Hn.
Qed.

Lemma ensure_probs_sigmoid_in_slack (l : list Q) :
  Forall in_slack (map (sigmoid np_exp) l).
Proof.
  apply Forall_forall. intros x (y & -> & _)%list_elem_of_fmap.
  apply in_unit_slack, sigmoid_unit, np_exp_nonneg.
Qed.

(** The second pass over a class array without entries: [obj] is in
    range after the sigmoid, so [np.max(cls)] is reached, and raises. *)
Lemma ensure_probs_no_entries obj cls :
  obj ≠ [] → concat cls = [] →
  ensure_probs np_exp (map (sigmoid np_exp) obj) (map (map (sigmoid np_exp)) cls)
    = None.
Proof.
  intros Ho Hc. unfold ensure_probs. cbv zeta.
  pose proof (ensure_probs_sigmoid_in_slack obj) as Hs.
  apply Forall_in_slack in Hs as [Hlo Hhi].
  destruct (np_max (map (sigmoid np_exp) obj)) as [m|] eqn:E1; [|done]. simpl.
  apply (np_max_le np_exp _ _ (3 # 2) E1) in Hhi.
  assert (Qgtb m (3 # 2) = false) as -> by (by apply Qgtb_false).
  destruct (np_min (map (sigmoid np_exp) obj)) as [n|] eqn:E2; [|done]. simpl.
  apply (np_min_ge np_exp _ _ (- (1 # 2)) E2) in Hlo.
  assert (Qltb n (- (1 # 2)) = false) as -> by (by apply Qltb_false).
  by rewrite <- concat_map, Hc.
Qed.

(** X7.  [ensure_probs] is idempotent on a class array that has
    entries: what it returns is read as probabilities and returned
    unchanged when passed through it again.  On a class array without
    entries the first pass returns only when [obj] alone calls for the
    sigmoid, and the second pass then raises. *)
Theorem ensure_probs_idempotent (obj : list Q) (cls : list (list Q))
    (obj' : list Q) (cls' : list (list Q)) :
  ensure_probs np_exp obj cls = Some (obj', cls') →
  (concat cls ≠ [] → ensure_probs np_exp obj' cls' = Some (obj', cls')) ∧
  (concat cls = [] → ensure_probs np_exp obj' cls' = None).
Proof.
  intros E.
  assert (obj ≠ []) as Ho.
  { unfold ensure_probs in E. by destruct obj. }
  split.
  - intros Hc.
    destruct (ensure_probs_spec np_exp _ _ _ E) as [(Hs1 & Hs2 & E') | (_ & E')];
      injection E' as -> ->; [done|].
    apply ensure_probs_in_slack.
    + by destruct obj.
    + rewrite <- concat_map. by destruct (concat cls).
    + apply ensure_probs_sigmoid_in_slack.
    + apply Forall_concat_rows, Forall_forall.
      intros r (r0 & -> & _)%list_elem_of_fmap.
      apply ensure_probs_sigmoid_in_slack.
  - intros Hc.
    assert (obj' = map (sigmoid np_exp) obj ∧
            cls' = map (map (sigmoid np_exp)) cls) as [-> ->].
    { unfold ensure_probs in E. cbv zeta in E. rewrite Hc in E.
      destruct (np_max obj); simpl in E; [|done].
      destruct (Qgtb _ _) in E; [by injection E as <- <-|].
      destruct (np_min obj); simpl in E; [|done].
      destruct (Qltb _ _) in E; [by injection E as <- <-|].
      done. }
    by apply ensure_probs_no_entries.
Qed.

End DecoderMore.

Section DecoderMoreExamples.
Import Suppressor TensorDecoder.

Lemma decode_class_ids_valid_witness :
  let o := mkArr 8 7 ([320; 320; 256; 256; 1; 1 # 10; 9 # 10]
                      :: replicate 7 [0; 0; 0; 0; 0; 0; 0]) in
  wf_ndarray2 o ∧
  ∃ d, decode_yolo_output (λ _, 1) [T2 o] (3 # 10) 640 480 640 = Some d ∧
       d_cls_ids d = [1%nat] ∧
       Forall (λ k, (k < shape1 (normalize o) - 5)%nat) (d_cls_ids d).
Proof.
  intros o.
  assert (wf_ndarray2 o) as Hwf by (split; [reflexivity | repeat constructor]).
  split; [exact Hwf|].
  eexists. split; [vm_compute; reflexivity|]. split; [reflexivity|].
  apply (decode_class_ids_valid (λ _, 1) [T2 o] (3 # 10) 640 480 640 o _
           eq_refl Hwf).
  vm_compute; reflexivity.
Defined.

Lemma decode_zero_size_only_empty_witness :
  ∃ d, decode_yolo_output (λ _, 1) [T2 (mkArr 8 6 (replicate 8 cold_row))]
         (3 # 10) 0 480 640 = Some d ∧
       d = empty_result.
Proof.
  eexists. split; [vm_compute; reflexivity|].
  apply (decode_zero_size_only_empty (λ _, 1)
           [T2 (mkArr 8 6 (replicate 8 cold_row))] (3 # 10) 0 480 640 _
           (or_introl eq_refl)).
  vm_compute; reflexivity.
Defined.

Lemma decode_layout_independent_witness :
  let o := mkArr 8 6 ([320; 320; 256; 256; 1; 9 # 10] :: replicate 7 cold_row) in
  wf_ndarray2 o ∧
  decode_yolo_output (λ _, 1) [T3 [transpose o]] (3 # 10) 640 480 640
    = decode_yolo_output (λ _, 1) [T2 o] (3 # 10) 640 480 640.
Proof.
  intros o.
  assert (wf_ndarray2 o) as Hwf by (split; [reflexivity | repeat constructor]).
  split; [exact Hwf|].
  apply (decode_layout_independent (λ _, 1) [T2 o] [T3 [transpose o]]
           (3 # 10) 640 480 640 o Hwf); [simpl; lia | reflexivity | reflexivity].
Defined.

Lemma const_exp_nonneg (x : Q) : 0 <= (λ _ : Q, 1) x.
Proof. simpl. lra. Qed.

Lemma ensure_probs_idempotent_witness :
  ∃ obj' cls',
    ensure_probs (λ _, 1) [2; 0] [[0]; [-1]] = Some (obj', cls') ∧
    obj' = [1 / (1 + 1); 1 / (1 + 1)] ∧
    ensure_probs (λ _, 1) obj' cls' = Some (obj', cls') ∧
    ensure_probs (λ _, 1) [2; 0] [[]; []] = Some (obj', [[]; []]) ∧
    ensure_probs (λ _, 1) obj' [[]; []] = None.
Proof.
  eexists _, _. split; [vm_compute; reflexivity|]. split; [reflexivity|].
  split.
  - apply (ensure_probs_idempotent (λ _, 1) const_exp_nonneg [2; 0] [[0]; [-1]]);
      [vm_compute; reflexivity | discriminate].
  - split; [reflexivity|].
    apply (ensure_probs_idempotent (λ _, 1) const_exp_nonneg [2; 0] [[]; []]);
      [vm_compute; reflexivity | reflexivity].
Defined.

End DecoderMoreExamples.

(** ** Preprocessor *)

Section PreprocessorFacts.
Import Suppressor TensorDecoder Preprocessor.

Lemma py_int_nonneg (x : Q) :
  0 <= x → (0 <= py_int x)%Z ∧ inject_Z (py_int x) <= x ∧ x < inject_Z (py_int x) + 1.
Proof.
  intros Hx. unfold py_int.
  assert (Qltb x 0 = false) as -> by (by apply Qltb_false).
  split; [|split].
  - change 0%Z with (Qfloor 0). by apply Qfloor_resp_le.
  - apply Qfloor_le.
  - pose proof (Qlt_floor x) as H. rewrite inject_Z_plus in H. exact H.
Qed.

Lemma inject_Z_nonneg z : (0 <= z)%Z → 0 <= inject_Z z.
Proof. intros H. change 0 with (inject_Z 0). by rewrite <- Zle_Qle. Qed.

Lemma inject_Z_pos z : (0 < z)%Z → 0 < inject_Z z.
Proof. intros H. change 0 with (inject_Z 0). by rewrite <- Zlt_Qlt. Qed.

(** The scaled side [side * min(w / iw, h / ih)] of an image side that
    is [iw] in the first quotient. *)
Lemma scaled_side_l (iw ih w h : Z) :
  (0 < iw)%Z → (0 < ih)%Z → (0 <= w)%Z → (0 <= h)%Z →
  let s := Qmin (inject_Z w / inject_Z iw) (inject_Z h / inject_Z ih) in
  0 <= s ∧ inject_Z iw * s <= inject_Z w ∧ inject_Z ih * s <= inject_Z h.
Proof.
  intros Hiw Hih Hw Hh s.
  pose proof (inject_Z_pos iw Hiw) as Hiw'. pose proof (inject_Z_pos ih Hih) as Hih'.
  pose proof (inject_Z_nonneg w Hw) as Hw'. pose proof (inject_Z_nonneg h Hh) as Hh'.
  assert (0 <= inject_Z w / inject_Z iw) as H1.
  { apply Qle_shift_div_l; [done | lra]. }
  assert (0 <= inject_Z h / inject_Z ih) as H2.
  { apply Qle_shift_div_l; [done | lra]. }
  assert (inject_Z iw * (inject_Z w / inject_Z iw) == inject_Z w) as E1.
  { apply Qmult_div_r. lra. }
  assert (inject_Z ih * (inject_Z h / inject_Z ih) == inject_Z h) as E2.
  { apply Qmult_div_r. lra. }
  pose proof (Q.le_min_l (inject_Z w / inject_Z iw) (inject_Z h / inject_Z ih)) as Hl.
  pose proof (Q.le_min_r (inject_Z w / inject_Z iw) (inject_Z h / inject_Z ih)) as Hr.
  fold s in Hl, Hr.
  split; [by apply Q.min_glb|]. split.
  - rewrite <- E1. apply Qmult_le_l; done.
  - rewrite <- E2. apply Qmult_le_l; done.
Qed.

Lemma floor_half (n : Z) : (0 <= n → 0 <= n / 2 ∧ 0 <= n - 2 * (n / 2) <= 1)%Z.
Proof. intros H. pose proof (Z.div_mod n 2). pose proof (Z.mod_pos_bound n 2). lia. Qed.

Lemma py_int_ge_1 (x : Q) : (1 <= py_int x)%Z ↔ 1 <= x.
Proof.
  unfold py_int. destruct (Qltb x 0) eqn:E.
  - apply Qltb_lt in E. split.
    + intros H. exfalso.
      assert (Qceiling x <= 0)%Z; [|lia].
      change 0%Z with (Qceiling 0). apply Qceiling_resp_le. lra.
    + intros H. lra.
  - apply Qltb_false in E. split.
    + intros H. rewrite Zle_Qle in H. pose proof (Qfloor_le x).
      change (inject_Z 1) with 1 in H. lra.
    + intros H. change 1%Z with (Qfloor 1). by apply Qfloor_resp_le.
Qed.

(** The image side [a] after scaling by [min(w / a, h / b)] is at least 1
    exactly when the canvas side [w] is and the other quotient does not
    shrink [a] below one pixel. *)
Lemma scaled_side_ge_1 (a b w h : Z) :
  (0 < a)%Z → (0 < b)%Z →
  1 <= inject_Z a * Qmin (inject_Z w / inject_Z a) (inject_Z h / inject_Z b)
  ↔ (1 <= w ∧ b <= a * h)%Z.
Proof.
  intros Ha Hb.
  pose proof (inject_Z_pos a Ha) as Ha'. pose proof (inject_Z_pos b Hb) as Hb'.
  assert (inject_Z a * (inject_Z w / inject_Z a) == inject_Z w) as E1.
  { apply Qmult_div_r. lra. }
  assert (1 <= inject_Z a * (inject_Z h / inject_Z b) ↔ (b <= a * h)%Z) as E2.
  { rewrite Zle_Qle, inject_Z_mult. unfold Qdiv. rewrite Qmult_assoc.
    split.
    - intros H. apply (Qmult_le_r _ _ _ Hb') in H.
      rewrite <- Qmult_assoc, (Qmult_comm (/ _)), Qmult_inv_r, Qmult_1_r in H by lra.
      lra.
    - intros H. apply Qle_shift_div_l; [done | lra]. }
  assert (1 <= inject_Z w ↔ (1 <= w)%Z) as E3.
  { rewrite Zle_Qle. done. }
  set (x := inject_Z w / inject_Z a) in *. set (y := inject_Z h / inject_Z b) in *.
  rewrite <- E2, <- E3. clearbody x y.
  pose proof (Q.le_min_l x y) as Hl. pose proof (Q.le_min_r x y) as Hr.
  apply (Qmult_le_l _ _ _ Ha') in Hl, Hr.
  split.
  - intros H. split; [rewrite <- E1|]; (eapply Qle_trans; [exact H|]);
      [exact Hl | exact Hr].
  - intros [Hx Hy]. rewrite <- E1 in Hx.
    destruct (Q.min_spec x y) as [[_ Hm] | [_ Hm]]; rewrite Hm; done.
Qed.

(** What [letterbox] returns, when it does. *)
Lemma letterbox_geometry (iw ih w h nw nh : Z) (s : Q) (pad_x pad_y : Z) :
  (0 < iw)%Z → (0 < ih)%Z →
  letterbox iw ih (w, h) = Some (mkLetterboxed (nw, nh) s (pad_x, pad_y)) →
  s = Qmin (inject_Z w / inject_Z iw) (inject_Z h / inject_Z ih) ∧
  (1 <= nw <= w)%Z ∧ (1 <= nh <= h)%Z ∧
  (0 <= pad_x)%Z ∧ (0 <= pad_y)%Z ∧
  (pad_x + nw <= w)%Z ∧ (pad_y + nh <= h)%Z ∧
  (0 <= w - nw - 2 * pad_x <= 1)%Z ∧ (0 <= h - nh - 2 * pad_y <= 1)%Z.
Proof.
  intros Hiw Hih. unfold letterbox.
  destruct (Z.eqb_spec iw 0); [lia|]. destruct (Z.eqb_spec ih 0); [lia|]. simpl.
  pose proof (scaled_side_ge_1 iw ih w h Hiw Hih) as Hx.
  pose proof (scaled_side_ge_1 ih iw h w Hih Hiw) as Hy.
  rewrite (Q.min_comm (inject_Z h / inject_Z ih)) in Hy.
  set (s0 := Qmin _ _) in *.
  rewrite <- py_int_ge_1 in Hx, Hy.
  set (nw0 := py_int (inject_Z iw * s0)) in *.
  set (nh0 := py_int (inject_Z ih * s0)) in *.
  destruct (Z.leb_spec nw0 0) as [Hn|Hn]; simpl; [done|].
  destruct (Z.leb_spec nh0 0) as [Hm|Hm]; simpl; [done|].
  intros [= <- <- <- <- <-].
  assert (1 <= w ∧ 1 <= h)%Z as [Hw Hh] by lia.
  destruct (scaled_side_l iw ih w h Hiw Hih ltac:(lia) ltac:(lia))
    as (Hs & Hsx & Hsy).
  fold s0 in Hs, Hsx, Hsy.
  assert (0 <= inject_Z iw * s0) as Hx0.
  { apply Qmult_le_0_compat; [apply inject_Z_nonneg; lia | done]. }
  assert (0 <= inject_Z ih * s0) as Hy0.
  { apply Qmult_le_0_compat; [apply inject_Z_nonneg; lia | done]. }
  destruct (py_int_nonneg _ Hx0) as (_ & Hn2 & _).
  destruct (py_int_nonneg _ Hy0) as (_ & Hm2 & _).
  fold nw0 in Hn2. fold nh0 in Hm2.
  assert (nw0 <= w)%Z as Hnw by (rewrite Zle_Qle; lra).
  assert (nh0 <= h)%Z as Hnh by (rewrite Zle_Qle; lra).
  split; [done|].
  pose proof (floor_half (w - nw0)). pose proof (floor_half (h - nh0)). lia.
Qed.


(** X9.  The decoder undoes the letterbox of the preprocessor: whenever
    [letterbox] returns for an image of positive size and a canvas of
    [imgsz] by [imgsz], the boxes the decoder returns are rows of the
    output array mapped back with the scale [letterbox] used and with the
    offsets [(imgsz - w * scale) / 2] and [(imgsz - h * scale) / 2],
    which differ from the pasted offsets by at most half a pixel
    ([letterbox] truncates to whole pixels, the decoder does not). *)
Theorem decode_undoes_letterbox (np_exp : Q → Q) (output : list tensor)
    (thr : Q) (w h imgsz : Z) (o : ndarray2) (d : decoded) (lb : Letterboxed) :
  (0 < w)%Z → (0 < h)%Z →
  select_output output = Some o →
  decode_yolo_output np_exp output thr w h imgsz = Some d →
  letterbox w h (imgsz, imgsz) = Some lb →
  let px := (inject_Z imgsz - inject_Z w * scale lb) / 2 in
  let py := (inject_Z imgsz - inject_Z h * scale lb) / 2 in
  scale lb = Qmin (inject_Z imgsz / inject_Z w) (inject_Z imgsz / inject_Z h) ∧
  (∃ xywh, sublist xywh (map (take 4) (rows (normalize o))) ∧
     d_xyxy d = map (to_xyxy (scale lb) px py w h) xywh) ∧
  px - (1 # 2) <= inject_Z (pad lb).1 ∧ inject_Z (pad lb).1 <= px + (1 # 2) ∧
  py - (1 # 2) <= inject_Z (pad lb).2 ∧ inject_Z (pad lb).2 <= py + (1 # 2).
Proof.
  intros Hw Hh Hsel H Hlb px py.
  destruct lb as [[nw nh] s [pad_x pad_y]].
  destruct (letterbox_geometry w h imgsz imgsz nw nh s pad_x pad_y Hw Hh Hlb)
    as (Hs & Hnw & Hnh & _ & _ & _ & _ & Hpx & Hpy).
  assert (nw = py_int (inject_Z w * s) ∧ nh = py_int (inject_Z h * s)) as [En Em].
  { unfold letterbox in Hlb.
    destruct (Z.eqb_spec w 0); [lia|]. destruct (Z.eqb_spec h 0); [lia|].
    simpl in Hlb. destruct (_ || _)%bool in Hlb; [done|].
    injection Hlb as <- <- Hs' _ _. by rewrite <- Hs'. }
  simpl in px, py |- *.
  assert (1 <= imgsz)%Z as Hsz by lia.
  destruct (scaled_side_l w h imgsz imgsz Hw Hh ltac:(lia) ltac:(lia))
    as (Hs0 & Hx & Hy).
  rewrite <- Hs in Hs0, Hx, Hy.
  assert (0 <= inject_Z w * s) as Hx0.
  { apply Qmult_le_0_compat; [apply inject_Z_nonneg; lia | done]. }
  assert (0 <= inject_Z h * s) as Hy0.
  { apply Qmult_le_0_compat; [apply inject_Z_nonneg; lia | done]. }
  destruct (py_int_nonneg _ Hx0) as (_ & Hn2 & Hn3).
  destruct (py_int_nonneg _ Hy0) as (_ & Hm2 & Hm3).
  rewrite <- En in Hn2, Hn3. rewrite <- Em in Hm2, Hm3.
  assert (∀ k p : Z, (0 <= imgsz - k - 2 * p <= 1)%Z →
            inject_Z imgsz - inject_Z k - 1 <= 2 * inject_Z p ∧
            2 * inject_Z p <= inject_Z imgsz - inject_Z k) as Hcast.
  { intros k p [H1 H2]. split.
    - assert (imgsz + - k + - 1 <= 2 * p)%Z as H' by lia.
      rewrite Zle_Qle in H'. rewrite !inject_Z_plus, inject_Z_mult, !inject_Z_opp in H'.
      change (inject_Z (-1)) with (-1 # 1) in H'.
      change (inject_Z 2) with (2 # 1) in H'. lra.
    - assert (2 * p <= imgsz + - k)%Z as H' by lia.
      rewrite Zle_Qle in H'. rewrite inject_Z_plus, inject_Z_mult, inject_Z_opp in H'.
      change (inject_Z 2) with (2 # 1) in H'. lra. }
  destruct (Hcast nw pad_x Hpx) as [Hqx1 Hqx2].
  destruct (Hcast nh pad_y Hpy) as [Hqy1 Hqy2].
  split; [exact Hs|]. split.
  - apply decode_cases in H
      as [-> | (o' & obj & cls & ids & Hsel' & _ & _ & _ & _ & _ & ->)].
    + exists []. split; [apply sublist_nil_l | done].
    + rewrite Hsel in Hsel'. injection Hsel' as <-.
      eexists. split; [apply mask_select_sublist|].
      unfold px, py. rewrite Hs. reflexivity.
  - clear Hcast Hpx Hpy Hlb H. unfold px, py. clear px py.
    clear En Em Hs Hx Hy Hx0 Hy0 Hs0.
    generalize dependent (inject_Z w * s). generalize dependent (inject_Z h * s).
    intros y Hm2 Hm3 x Hn2 Hn3. unfold Qdiv.
    change (/ 2) with (1 # 2). repeat split; lra.
Qed.


Lemma decode_undoes_letterbox_witness :
  let o := mkArr 8 6 ([320; 320; 256; 256; 1; 9 # 10] :: replicate 7 cold_row) in
  ∃ d lb,
    decode_yolo_output (λ _, 1) [T3 [o]] (3 # 10) 1920 1080 640 = Some d ∧
    letterbox 1920 1080 (640, 640)%Z = Some lb ∧
    scale lb == 1 # 3 ∧ pad lb = (0, 140)%Z ∧
    length (d_xyxy d) = 1%nat ∧
    (∃ xywh, sublist xywh (map (take 4) (rows (normalize o))) ∧
       d_xyxy d = map (to_xyxy (scale lb)
                         ((640 - 1920 * scale lb) / 2)
                         ((640 - 1080 * scale lb) / 2) 1920 1080) xywh) ∧
    (640 - 1080 * scale lb) / 2 - (1 # 2) <= 140 ∧
    140 <= (640 - 1080 * scale lb) / 2 + (1 # 2).
Proof.
  intros o.
  destruct (decode_yolo_output (λ _, 1) [T3 [o]] (3 # 10) 1920 1080 640)
    as [d|] eqn:E; [|vm_compute in E; discriminate].
  destruct (letterbox 1920 1080 (640, 640)%Z) as [lb|] eqn:Elb;
    [|vm_compute in Elb; discriminate].
  destruct (decode_undoes_letterbox (λ _, 1) [T3 [o]] (3 # 10) 1920 1080 640 o d lb)
    as (_ & H2 & _ & _ & H5 & H6);
    [lia | lia | reflexivity | exact E | exact Elb |].
  assert (scale lb == 1 # 3 ∧ pad lb = (0, 140)%Z) as [Es Ep].
  { vm_compute in Elb. injection Elb as <-. split; reflexivity. }
  exists d, lb. split; [reflexivity|]. split; [reflexivity|].
  split; [exact Es|]. split; [exact Ep|].
  split; [vm_compute in E; injection E as <-; reflexivity|].
  split; [exact H2|]. rewrite Ep in H5, H6. split; [exact H5 | exact H6].
Defined.

End PreprocessorFacts.

(** ** Rounding *)

Lemma round_half_even_range (x : Q) :
  (Qfloor x <= round_half_even x <= Qfloor x + 1)%Z.
Proof.
  unfold round_half_even. destruct (Qcompare _ _); [destruct (Z.even _)| |]; lia.
Qed.

Lemma round_half_even_mono (x y : Q) :
  x <= y → (round_half_even x <= round_half_even y)%Z.
Proof.
  intros Hxy. pose proof (Qfloor_resp_le _ _ Hxy) as Hfg.
  destruct (decide (Qfloor x = Qfloor y)) as [E|Hne].
  - unfold round_half_even. rewrite <- E.
    destruct (Qcompare_spec (x - inject_Z (Qfloor x)) (1 # 2)) as [Hx|Hx|Hx];
      destruct (Qcompare_spec (y - inject_Z (Qfloor x)) (1 # 2)) as [Hy|Hy|Hy];
      try destruct (Z.even _); try lia; exfalso; lra.
  - pose proof (round_half_even_range x). pose proof (round_half_even_range y). lia.
Qed.

Lemma round_half_even_eq (x y : Q) : x == y → round_half_even x = round_half_even y.
Proof.
  intros E. apply Z.le_antisymm; apply round_half_even_mono; rewrite E; apply Qle_refl.
Qed.

Lemma round_half_even_inject (z : Z) : round_half_even (inject_Z z) = z.
Proof.
  unfold round_half_even. rewrite Qfloor_Z.
  destruct (Qcompare_spec (inject_Z z - inject_Z z) (1 # 2)) as [H|H|H];
    [exfalso; lra | done | exfalso; lra].
Qed.

Lemma pow10_pos (n : nat) : 0 < inject_Z (10 ^ Z.of_nat n).
Proof.
  change 0 with (inject_Z 0). rewrite <- Zlt_Qlt. apply Z.pow_pos_nonneg; lia.
Qed.

Lemma py_round_mono (x y : Q) (n : nat) : x <= y → py_round x n <= py_round y n.
Proof.
  intros Hxy. unfold py_round. pose proof (pow10_pos n) as HM.
  apply Qmult_le_compat_r; [|apply Qlt_le_weak, Qinv_lt_0_compat, HM].
  rewrite <- Zle_Qle. apply round_half_even_mono.
  apply Qmult_le_compat_r; [done | by apply Qlt_le_weak].
Qed.

Lemma py_round_unit (x : Q) (n : nat) :
  0 <= x → x <= 1 → 0 <= py_round x n ∧ py_round x n <= 1.
Proof.
  intros H0 H1. pose proof (pow10_pos n) as HM.
  assert (py_round 0 n == 0) as E0.
  { unfold py_round.
    rewrite (round_half_even_eq _ (inject_Z 0)) by apply Qmult_0_l.
    rewrite round_half_even_inject. unfold Qdiv. apply Qmult_0_l. }
  assert (py_round 1 n == 1) as E1.
  { unfold py_round.
    rewrite (round_half_even_eq _ (inject_Z (10 ^ Z.of_nat n))) by apply Qmult_1_l.
    rewrite round_half_even_inject. apply Qmult_inv_r. lra. }
  split.
  - rewrite <- E0. by apply py_round_mono.
  - rewrite <- E1. by apply py_round_mono.
Qed.

(** ** SingleStageDetector: order, separation and range of the hits *)

Lemma box_product_bound (W H x1 y1 x2 y2 : Q) :
  0 <= x1 → x1 <= W → 0 <= y1 → y1 <= H →
  0 <= x2 → x2 <= W → 0 <= y2 → y2 <= H →
  - (W * H) <= (x2 - x1) * (y2 - y1) ∧ (x2 - x1) * (y2 - y1) <= W * H.
Proof.
  intros.
  pose proof (Qmult_le_0_compat (W - (x2 - x1)) (H - (y2 - y1)) ltac:(lra) ltac:(lra)).
  pose proof (Qmult_le_0_compat (W + (x2 - x1)) (H + (y2 - y1)) ltac:(lra) ltac:(lra)).
  pose proof (Qmult_le_0_compat (W - (x2 - x1)) (H + (y2 - y1)) ltac:(lra) ltac:(lra)).
  pose proof (Qmult_le_0_compat (W + (x2 - x1)) (H - (y2 - y1)) ltac:(lra) ltac:(lra)).
  split; lra.
Qed.



Lemma ForallOrdPairs_lookup {A} (R : A → A → Prop) l p q x y :
  ForallOrdPairs R l → (p < q)%nat → l !! p = Some x → l !! q = Some y → R x y.
Proof.
  intros HF. revert p q. induction HF as [|a l Ha _ IH]; intros p q Hpq Hp Hq.
  - done.
  - destruct q as [|q]; [lia|]. simpl in Hq. destruct p as [|p]; simpl in Hp.
    + injection Hp as ->. rewrite Forall_forall in Ha. apply Ha.
      by eapply list_elem_of_lookup_2.
    + apply (IH p q); [lia | done | done].
Qed.

Lemma omap_id_lookup_pair {A} (l : list (option A)) p q x y :
  (p < q)%nat → omap id l !! p = Some x → omap id l !! q = Some y →
  ∃ i j, (i < j)%nat ∧ l !! i = Some (Some x) ∧ l !! j = Some (Some y).
Proof.
  revert p q. induction l as [|[a|] l IH]; intros p q Hpq Hp Hq; simpl in *.
  - done.
  - destruct q as [|q]; [lia|]. simpl in Hq. destruct p as [|p]; simpl in Hp.
    + injection Hp as ->.
      assert (y ∈ omap id l) as Hy by (by eapply list_elem_of_lookup_2).
      apply list_elem_of_omap in Hy as (o & Ho & Hid). simpl in Hid. subst o.
      apply list_elem_of_lookup in Ho as [j Hj].
      exists 0%nat, (S j). split; [lia | done].
    + destruct (IH p q ltac:(lia) Hp Hq) as (i & j & Hij & Hi & Hj).
      exists (S i), (S j). split; [lia | done].
  - destruct (IH p q Hpq Hp Hq) as (i & j & Hij & Hi & Hj).
    exists (S i), (S j). split; [lia | done].
Qed.

Section DetectorMore.
Import Suppressor TensorDecoder SingleStage.
Variable np_exp : Q → Q.
Variable IMGSZ : Z.
Variable CONF_MIN : Q.
Variable AREA_MIN_FRAC : Q.
Variable ALLOW_LABELS : gset string.
Variable LABELS : gmap nat string.

(** Two indices [nms] keeps, in the order it keeps them. *)
Lemma nms_keep_pairs (xyxy : list Box) (scores : list Q) thr keep p q i j :
  nms xyxy scores thr = Some keep →
  (p < q)%nat → keep !! p = Some i → keep !! q = Some j →
  nth j scores 0 <= nth i scores 0 ∧ below xyxy thr i j.
Proof.
  intros Hnms Hpq Hp Hq. unfold nms in Hnms.
  destruct (nms_loop_spec _ _ _ _ Hnms) as (Hsub & _ & Hpairs). split.
  - apply nms_key_scores.
    eapply (StronglySorted_lookup _ keep p q); eauto.
    eapply StronglySorted_sublist; [exact Hsub | apply argsort_sorted].
  - by eapply (ForallOrdPairs_lookup _ keep p q).
Qed.

Lemma filter_hits_pair img_area d hits p q hp hq :
  filter_hits AREA_MIN_FRAC ALLOW_LABELS LABELS img_area d = Some hits →
  (p < q)%nat → hits !! p = Some hp → hits !! q = Some hq →
  ∃ kp kq, (kp < kq)%nat ∧
    filter_one AREA_MIN_FRAC ALLOW_LABELS LABELS img_area d kp = Some (Some hp) ∧
    filter_one AREA_MIN_FRAC ALLOW_LABELS LABELS img_area d kq = Some (Some hq).
Proof.
  unfold filter_hits. intros H Hpq Hp Hq.
  destruct (mapM _ _) as [l|] eqn:E; simpl in H; [|done]. injection H as <-.
  destruct (omap_id_lookup_pair l p q hp hq Hpq Hp Hq) as (i & j & Hij & Hi & Hj).
  apply mapM_Some in E.
  destruct (Forall2_lookup_r _ _ _ _ _ E Hi) as (ki & Hki & Hfi).
  destruct (Forall2_lookup_r _ _ _ _ _ E Hj) as (kj & Hkj & Hfj).
  apply lookup_seq in Hki as [-> _]. apply lookup_seq in Hkj as [-> _].
  exists i, j. done.
Qed.

(** Two hits of one call, in the order of the hit list: the candidates
    they come from, in the order [nms] kept them. *)
Lemma run_detection_pair (img_width img_height : Z)
    (inference : option (list tensor)) (hits : list Hit) p q hp hq :
  run_detection np_exp IMGSZ CONF_MIN AREA_MIN_FRAC ALLOW_LABELS LABELS
    img_width img_height inference = Some hits →
  (p < q)%nat → hits !! p = Some hp → hits !! q = Some hq →
  ∃ output d keep kp kq ip iq cp cq,
    inference = Some output ∧
    decode_yolo_output np_exp output CONF_MIN img_width img_height IMGSZ = Some d ∧
    nms (d_xyxy d) (d_conf d) (45 # 100) = Some keep ∧
    (kp < kq)%nat ∧ keep !! kp = Some ip ∧ keep !! kq = Some iq ∧
    d_xyxy d !! ip = Some (bbox hp) ∧ d_xyxy d !! iq = Some (bbox hq) ∧
    d_conf d !! ip = Some cp ∧ d_conf d !! iq = Some cq ∧
    conf hp = py_round cp 3 ∧ conf hq = py_round cq 3.
Proof.
  unfold run_detection. intros H Hpq Hp Hq.
  destruct inference as [output|]; simpl in H; [|done].
  destruct (decode_yolo_output _ _ _ _ _ _) as [d|] eqn:Ed; simpl in H; [|done].
  destruct (apply_nms d) as [d'|] eqn:En; simpl in H; [|done].
  destruct (filter_hits_pair _ _ _ _ _ _ _ H Hpq Hp Hq) as (kp & kq & Hk & Hfp & Hfq).
  apply filter_one_spec in Hfp as (clsp & cp & bp & _ & Hcp & Hbp & _ & _ & ->).
  apply filter_one_spec in Hfq as (clsq & cq & bq & _ & Hcq & Hbq & _ & _ & ->).
  simpl.
  apply apply_nms_spec in En as [[Hnil ->] | (keep & Hkeep & Hx & _ & Hf)].
  { rewrite Hnil in Hbp. done. }
  destruct (take_idx_lookup _ _ _ _ _ Hx Hbp) as (ip & Hip & Hbip).
  destruct (take_idx_lookup _ _ _ _ _ Hx Hbq) as (iq & Hiq & Hbiq).
  destruct (take_idx_lookup _ _ _ _ _ Hf Hcp) as (ip' & Hip' & Hcip).
  destruct (take_idx_lookup _ _ _ _ _ Hf Hcq) as (iq' & Hiq' & Hciq).
  rewrite Hip in Hip'. injection Hip' as <-.
  rewrite Hiq in Hiq'. injection Hiq' as <-.
  exists output, d, keep, kp, kq, ip, iq, cp, cq. done.
Qed.

(** X10.  The hit list is ordered by confidence: a hit never reports a
    larger (rounded) confidence than a hit listed before it. *)
Theorem run_detection_conf_descending (img_width img_height : Z)
    (inference : option (list tensor)) (hits : list Hit) (p q : nat)
    (hp hq : Hit) :
  run_detection np_exp IMGSZ CONF_MIN AREA_MIN_FRAC ALLOW_LABELS LABELS
    img_width img_height inference = Some hits →
  (p < q)%nat → hits !! p = Some hp → hits !! q = Some hq →
  conf hq <= conf hp.
Proof.
  intros H Hpq Hp Hq.
  destruct (run_detection_pair _ _ _ _ _ _ _ _ H Hpq Hp Hq)
    as (output & d & keep & kp & kq & ip & iq & cp & cq & _ & _ & Hnms & Hk &
        Hip & Hiq & _ & _ & Hcp & Hcq & -> & ->).
  destruct (nms_keep_pairs _ _ _ _ _ _ _ _ Hnms Hk Hip Hiq) as [Hle _].
  rewrite (nth_lookup_Some _ _ _ _ Hcp), (nth_lookup_Some _ _ _ _ Hcq) in Hle.
  by apply py_round_mono.
Qed.

(** X11.  No two hits of one call overlap by the suppression threshold
    or more: the IoU the suppressor computes for the boxes of two hits at
    different positions of the hit list is below 0.45. *)
Theorem run_detection_hits_apart (img_width img_height : Z)
    (inference : option (list tensor)) (hits : list Hit) (p q : nat)
    (hp hq : Hit) :
  run_detection np_exp IMGSZ CONF_MIN AREA_MIN_FRAC ALLOW_LABELS LABELS
    img_width img_height inference = Some hits →
  p ≠ q → hits !! p = Some hp → hits !! q = Some hq →
  iou (bbox hp) (bbox hq) < 45 # 100.
Proof.
  assert (∀ p q hp hq,
    run_detection np_exp IMGSZ CONF_MIN AREA_MIN_FRAC ALLOW_LABELS LABELS
      img_width img_height inference = Some hits →
    (p < q)%nat → hits !! p = Some hp → hits !! q = Some hq →
    iou (bbox hp) (bbox hq) < 45 # 100) as Hlt.
  { clear. intros p q hp hq H Hpq Hp Hq.
    destruct (run_detection_pair _ _ _ _ _ _ _ _ H Hpq Hp Hq)
      as (output & d & keep & kp & kq & ip & iq & cp & cq & _ & _ & Hnms & Hk &
          Hip & Hiq & Hbp & Hbq & _).
    destruct (nms_keep_pairs _ _ _ _ _ _ _ _ Hnms Hk Hip Hiq)
      as [_ (bi & bj & Hbi & Hbj & Hiou)].
    rewrite Hbp in Hbi. injection Hbi as <-.
    rewrite Hbq in Hbj. by injection Hbj as <-. }
  intros H Hne Hp Hq.
  destruct (decide (p < q)%nat) as [Hpq|Hpq]; [by eapply Hlt|].
  rewrite iou_sym. eapply (Hlt q p); [done | lia | done | done].
Qed.

(** X12.  For an image of non-zero size every hit lies inside the image:
    the corners of its box are within [0, img_width] by
    [0, img_height], and the unrounded area fraction of the box is
    between -1 and 1. *)
Theorem run_detection_boxes_in_image (img_width img_height : Z)
    (inference : option (list tensor)) (hits : list Hit) (h : Hit) :
  (0 < img_width)%Z → (0 < img_height)%Z → (0 < IMGSZ)%Z →
  run_detection np_exp IMGSZ CONF_MIN AREA_MIN_FRAC ALLOW_LABELS LABELS
    img_width img_height inference = Some hits →
  h ∈ hits →
  (0 <= bx1 (bbox h) ∧ bx1 (bbox h) <= inject_Z img_width) ∧
  (0 <= by1 (bbox h) ∧ by1 (bbox h) <= inject_Z img_height) ∧
  (0 <= bx2 (bbox h) ∧ bx2 (bbox h) <= inject_Z img_width) ∧
  (0 <= by2 (bbox h) ∧ by2 (bbox h) <= inject_Z img_height) ∧
  - (1) <= box_area_frac (img_width * img_height) (bbox h) ∧
  box_area_frac (img_width * img_height) (bbox h) <= 1.
Proof.
  intros Hw Hh _ H Hin.
  destruct (run_detection_hits _ _ _ _ _ _ _ _ _ _ _ H Hin)
    as (_ & _ & output & d & keep & i & cls & c & _ & Hd & _ & _ & Hb & _).
  assert (0 <= img_width)%Z as Hw0 by lia. assert (0 <= img_height)%Z as Hh0 by lia.
  pose proof (decode_boxes_in_image _ _ _ _ _ _ _ Hw0 Hh0 Hd) as HF.
  rewrite Forall_forall in HF.
  destruct (HF (bbox h)) as ((Hx1 & Hx1') & (Hy1 & Hy1') & (Hx2 & Hx2') & (Hy2 & Hy2')).
  { by eapply list_elem_of_lookup_2. }
  assert (- (inject_Z img_width * inject_Z img_height)
            <= (bx2 (bbox h) - bx1 (bbox h)) * (by2 (bbox h) - by1 (bbox h)) ∧
          (bx2 (bbox h) - bx1 (bbox h)) * (by2 (bbox h) - by1 (bbox h))
            <= inject_Z img_width * inject_Z img_height) as [Hlo Hhi].
  { by apply box_product_bound. }
  pose proof (inject_Z_pos _ Hw) as HW. pose proof (inject_Z_pos _ Hh) as HH.
  pose proof (Qmult_lt_0_compat _ _ HW HH) as Hpos.
  repeat split; try done.
  all: unfold box_area_frac; rewrite Z.max_r by nia; rewrite inject_Z_mult.
  - apply Qle_shift_div_l; [done|]. lra.
  - apply Qle_shift_div_r; [done|]. lra.
Qed.

(** X13.  Suppression is idempotent: run again on the boxes and scores
    it kept, [nms] keeps every one of them. *)
Theorem nms_second_pass_keeps_all (xyxy : list Box) (scores : list Q) (thr : Q)
    (keep : list nat) (xyxy' : list Box) (scores' : list Q) :
  nms xyxy scores thr = Some keep →
  take_idx xyxy keep = Some xyxy' → take_idx scores keep = Some scores' →
  ∃ keep2, nms xyxy' scores' thr = Some keep2 ∧ keep2 ≡ₚ seq 0 (length keep).
Proof.
  intros Hnms Hx Hs.
  pose proof (take_idx_length _ _ _ Hx) as Lx.
  pose proof (take_idx_length _ _ _ Hs) as Ls.
  destruct (nms_returns_range xyxy' scores' thr ltac:(lia)) as (keep2 & H2 & Hrange).
  exists keep2. split; [done|].
  assert (NoDup keep2) as Hnd.
  { unfold nms in H2. destruct (nms_loop_spec _ _ _ _ H2) as (Hsub & _ & _).
    eapply sublist_NoDup; [|exact Hsub].
    rewrite argsort_perm. apply NoDup_seq. }
  apply NoDup_Permutation; [done | apply NoDup_seq |].
  intros j. rewrite elem_of_seq. split.
  { intros Hj. apply Hrange in Hj. lia. }
  intros [_ Hj]. simpl in Hj.
  destruct (decide (j ∈ keep2)) as [|Hnot]; [done|]. exfalso.
  assert (j ∈ argsort (map Qopp scores')) as Hin.
  { rewrite argsort_perm, length_map. apply elem_of_seq. lia. }
  destruct (nms_loop_suppressed _ _ _ _ _ (argsort_sorted _) H2 j Hin)
    as [Hk|(k & bk & bj & Hk & _ & Hbk & Hbj & Hiou)]; [done|].
  assert (k ≠ j) as Hne by (intros ->; done).
  destruct (take_idx_lookup _ _ _ _ _ Hx Hbk) as (ik & Hik & Hbik).
  destruct (take_idx_lookup _ _ _ _ _ Hx Hbj) as (ij & Hij & Hbij).
  destruct (decide (k < j)%nat) as [Hlt|Hge].
  - destruct (nms_keep_pairs _ _ _ _ _ _ _ _ Hnms Hlt Hik Hij)
      as [_ (b1 & b2 & Hb1 & Hb2 & Hbelow)].
    rewrite Hbik in Hb1. injection Hb1 as <-.
    rewrite Hbij in Hb2. injection Hb2 as <-. lra.
  - assert (j < k)%nat as Hlt by lia.
    destruct (nms_keep_pairs _ _ _ _ _ _ _ _ Hnms Hlt Hij Hik)
      as [_ (b1 & b2 & Hb1 & Hb2 & Hbelow)].
    rewrite Hbij in Hb1. injection Hb1 as <-.
    rewrite Hbik in Hb2. injection Hb2 as <-.
    rewrite iou_sym in Hbelow. lra.
Qed.

Hypothesis np_exp_nonneg : ∀ x, 0 <= np_exp x.

(** X14.  The confidence a hit reports is in [0, 1] whenever the decoder
    applied the sigmoid (some objectness or class value lies outside
    [-0.5, 1.5]) or every objectness and class value of the output is
    already in [0, 1]. *)
Theorem run_detection_conf_unit (img_width img_height : Z)
    (output : list tensor) (o : ndarray2) (hits : list Hit) (h : Hit) :
  select_output output = Some o →
  let obj := map (λ r, nth 4 r 0) (rows (normalize o)) in
  let cls := map (drop 5) (rows (normalize o)) in
  (Forall in_unit obj ∧ Forall in_unit (concat cls)) ∨
  ¬ (Forall in_slack obj ∧ Forall in_slack (concat cls)) →
  run_detection np_exp IMGSZ CONF_MIN AREA_MIN_FRAC ALLOW_LABELS LABELS
    img_width img_height (Some output) = Some hits →
  h ∈ hits →
  0 <= conf h ∧ conf h <= 1.
Proof.
  intros Hsel obj cls Hcase H Hin.
  destruct (run_detection_hits _ _ _ _ _ _ _ _ _ _ _ H Hin)
    as (_ & _ & output' & d & keep & i & cls0 & c & [= <-] & Hd & _ & _ & _ & _ & _ &
        Hc & _ & -> & _).
  pose proof (decode_conf_unit np_exp np_exp_nonneg _ _ _ _ _ _ _ Hsel Hd Hcase) as HF.
  rewrite Forall_forall in HF.
  destruct (HF c) as [H0 H1]; [by eapply list_elem_of_lookup_2|].
  by apply py_round_unit.
Qed.

End DetectorMore.

Section DetectorMoreExamples.
Import Suppressor TensorDecoder SingleStage Samples.

Lemma run_detection_conf_descending_witness :
  ∃ hits hp hq,
    run_detection (λ _, 1) 640 (3 # 10) (5 # 10000) {["fedex"]}
      {[0%nat := "fedex"]} 640 640 (Some [T3 [two_trucks]]) = Some hits ∧
    hits !! 0%nat = Some hp ∧ hits !! 1%nat = Some hq ∧
    conf hp == 9 # 10 ∧ conf hq == 8 # 10 ∧ conf hq <= conf hp.
Proof.
  eexists _, _, _. split; [vm_compute; reflexivity|].
  split; [reflexivity|]. split; [reflexivity|].
  split; [reflexivity|]. split; [reflexivity|].
  eapply (run_detection_conf_descending (λ _, 1) 640 (3 # 10) (5 # 10000)
           {["fedex"]} {[0%nat := "fedex"]} 640 640 (Some [T3 [two_trucks]])
           _ 0%nat 1%nat);
    [vm_compute; reflexivity | lia | reflexivity | reflexivity].
Defined.

Lemma run_detection_hits_apart_witness :
  ∃ hits hp hq,
    run_detection (λ _, 1) 640 (3 # 10) (5 # 10000) {["fedex"]}
      {[0%nat := "fedex"]} 640 640 (Some [T3 [two_trucks]]) = Some hits ∧
    hits !! 1%nat = Some hp ∧ hits !! 0%nat = Some hq ∧
    iou (bbox hp) (bbox hq) < 45 # 100.
Proof.
  eexists _, _, _. split; [vm_compute; reflexivity|].
  split; [reflexivity|]. split; [reflexivity|].
  eapply (run_detection_hits_apart (λ _, 1) 640 (3 # 10) (5 # 10000)
           {["fedex"]} {[0%nat := "fedex"]} 640 640 (Some [T3 [two_trucks]])
           _ 1%nat 0%nat);
    [vm_compute; reflexivity | lia | reflexivity | reflexivity].
Defined.

Lemma run_detection_boxes_in_image_witness :
  ∃ hits h,
    run_detection (λ _, 1) 640 (3 # 10) (5 # 10000) {["fedex"]}
      {[0%nat := "fedex"]} 640 640 (Some [T3 [two_trucks]]) = Some hits ∧
    hits !! 0%nat = Some h ∧
    (0 <= bx1 (bbox h) ∧ bx1 (bbox h) <= inject_Z 640) ∧
    (0 <= by1 (bbox h) ∧ by1 (bbox h) <= inject_Z 640) ∧
    (0 <= bx2 (bbox h) ∧ bx2 (bbox h) <= inject_Z 640) ∧
    (0 <= by2 (bbox h) ∧ by2 (bbox h) <= inject_Z 640) ∧
    - (1) <= box_area_frac (640 * 640) (bbox h) ∧
    box_area_frac (640 * 640) (bbox h) <= 1.
Proof.
  eexists _, _. split; [vm_compute; reflexivity|]. split; [reflexivity|].
  eapply (run_detection_boxes_in_image (λ _, 1) 640 (3 # 10) (5 # 10000)
           {["fedex"]} {[0%nat := "fedex"]} 640 640 (Some [T3 [two_trucks]]) _ _);
    [lia | lia | lia | vm_compute; reflexivity | by left].
Defined.

Lemma nms_second_pass_keeps_all_witness :
  let xyxy := [mkBox 0 0 10 10; mkBox 1 1 11 11; mkBox 20 20 30 30] in
  let scores := [8 # 10; 9 # 10; 7 # 10] in
  nms xyxy scores (45 # 100) = Some [1%nat; 2%nat] ∧
  ∃ keep2, nms [mkBox 1 1 11 11; mkBox 20 20 30 30] [9 # 10; 7 # 10] (45 # 100)
             = Some keep2 ∧
           keep2 ≡ₚ seq 0 2.
Proof.
  intros xyxy scores.
  assert (nms xyxy scores (45 # 100) = Some [1%nat; 2%nat]) as H.
  { vm_compute. reflexivity. }
  split; [exact H|].
  apply (nms_second_pass_keeps_all xyxy scores (45 # 100) [1%nat; 2%nat]
           [mkBox 1 1 11 11; mkBox 20 20 30 30] [9 # 10; 7 # 10] H);
    reflexivity.
Defined.

Lemma run_detection_conf_unit_witness :
  ∃ hits h,
    run_detection (λ _, 1) 640 (3 # 10) (5 # 10000) {["fedex"]}
      {[0%nat := "fedex"]} 640 640 (Some [T3 [two_trucks]]) = Some hits ∧
    hits !! 0%nat = Some h ∧ 0 <= conf h ∧ conf h <= 1.
Proof.
  eexists _, _. split; [vm_compute; reflexivity|]. split; [reflexivity|].
  eapply (run_detection_conf_unit (λ _, 1) 640 (3 # 10) (5 # 10000)
           {["fedex"]} {[0%nat := "fedex"]} const_exp_nonneg 640 640
           [T3 [two_trucks]] two_trucks _ _ eq_refl).
  - left. split; simpl;
      repeat (constructor; [split; intro; discriminate|]); constructor.
  - vm_compute; reflexivity.
  - by left.
Defined.

End DetectorMoreExamples.

(** ** ProposalCascade: proposals, hits and brand-stage runs *)

Section CascadeMore.
Import ProposalCascade CascadeTerms.
Variable brand_predict : Crop → option (list RawDet).

Lemma two_stage_hits_fields H W det_runs allow area_min_frac max_vehicle_crops :
  let r := two_stage_hits brand_predict H W det_runs allow area_min_frac
             max_vehicle_crops in
  let s := stage2 brand_predict H W (allow_or_default allow) area_min_frac
             (slice_to (proposals_or_fallback H W det_runs) max_vehicle_crops) in
  hits r = s.1 ∧ proposals_used r = proposals_or_fallback H W det_runs ∧
  brand_runs r = s.2.
Proof.
  cbv zeta. unfold two_stage_hits, allow_or_default, proposals_or_fallback.
  destruct (_collect_proposals H W det_runs) as [|p ps];
    by destruct (stage2 _ _ _ _ _ _) as [hs rs].
Qed.

Lemma proposal_of_spec H W b p :
  proposal_of H W b = Some p →
  (0 <= p_x1 p)%Z ∧ (p_x2 p <= W)%Z ∧ (0 <= p_y1 p)%Z ∧ (p_y2 p <= H)%Z ∧
  (12 <= p_x2 p - p_x1 p)%Z ∧ (12 <= p_y2 p - p_y1 p)%Z ∧
  0 <= p_conf p ∧ p_conf p <= 1 ∧ _veh_label_ok (p_via p) = true ∧
  p_via p = r_lbl b ∧ p_conf p = r_conf b.
Proof.
  unfold proposal_of.
  destruct (Qle_bool 0 (r_conf b)) eqn:E0; simpl; [|done].
  destruct (Qle_bool (r_conf b) 1) eqn:E1; simpl; [|done].
  destruct (_veh_label_ok (r_lbl b)) eqn:Ev; simpl; [|done].
  destruct (Z.leb_spec 12 (Z.min W (r_x2 b + py_int ((15 # 100) *
              inject_Z (Z.max (r_x2 b - r_x1 b) (r_y2 b - r_y1 b))))
            - Z.max 0 (r_x1 b - py_int ((15 # 100) *
              inject_Z (Z.max (r_x2 b - r_x1 b) (r_y2 b - r_y1 b)))))) as [Hx|];
    simpl; [|done].
  destruct (Z.leb_spec 12 (Z.min H (r_y2 b + py_int ((15 # 100) *
              inject_Z (Z.max (r_x2 b - r_x1 b) (r_y2 b - r_y1 b))))
            - Z.max 0 (r_y1 b - py_int ((15 # 100) *
              inject_Z (Z.max (r_x2 b - r_x1 b) (r_y2 b - r_y1 b)))))) as [Hy|];
    simpl; [|done].
  intros [= <-]. simpl.
  apply Qle_bool_iff in E0. apply Qle_bool_iff in E1.
  repeat split; try done; lia.
Qed.

Lemma collect_proposals_cases H W det_runs :
  (_collect_proposals H W det_runs = [] ∧ Forall (no_proposal H W) det_runs) ∨
  (∃ pre boxes post,
     det_runs = pre ++ Some boxes :: post ∧ Forall (no_proposal H W) pre ∧
     omap (proposal_of H W) boxes ≠ [] ∧
     _collect_proposals H W det_runs = omap (proposal_of H W) boxes).
Proof.
  induction det_runs as [|[boxes|] more IH]; simpl.
  - left. split; [done | constructor].
  - destruct (omap (proposal_of H W) boxes) as [|p ps] eqn:E.
    + destruct IH as [[E0 HF] | (pre & boxes' & post & -> & HF & Hne & E')].
      * left. split; [done|]. constructor; [|done].
        intros boxes0 [= <-]. done.
      * right. exists (Some boxes :: pre), boxes', post.
        split; [done|]. split; [|done]. constructor; [|done].
        intros boxes0 [= <-]. done.
    + right. exists [], boxes, more. rewrite E. done.
  - destruct IH as [[E0 HF] | (pre & boxes' & post & -> & HF & Hne & E')].
    + left. split; [done|]. constructor; [|done]. intros boxes0 [=].
    + right. exists (None :: pre), boxes', post.
      split; [done|]. split; [|done]. constructor; [|done]. intros boxes0 [=].
Qed.

(** X15.  Every proposal [_collect_proposals] returns is a padded box
    clamped to the frame, at least 12 pixels wide and high, with a
    confidence in [0, 1] and a vehicle label. *)
Theorem collect_proposals_valid (H W : Z)
    (det_runs : list (option (list RawDet))) :
  Forall (λ p, (0 <= p_x1 p)%Z ∧ (p_x2 p <= W)%Z ∧
               (0 <= p_y1 p)%Z ∧ (p_y2 p <= H)%Z ∧
               (12 <= p_x2 p - p_x1 p)%Z ∧ (12 <= p_y2 p - p_y1 p)%Z ∧
               0 <= p_conf p ∧ p_conf p <= 1 ∧
               _veh_label_ok (p_via p) = true)
         (_collect_proposals H W det_runs).
Proof.
  destruct (collect_proposals_cases H W det_runs)
    as [[-> _] | (pre & boxes & post & _ & _ & _ & ->)]; [constructor|].
  apply Forall_forall. intros p (b & Hb & Hp)%list_elem_of_omap.
  apply proposal_of_spec in Hp. tauto.
Qed.

(** X16.  The proposals come from one detector only: the first in the
    list that loads and yields at least one valid proposal supplies all
    of them, in the order of its boxes, and the detectors after it are
    not consulted; the list is empty exactly when no detector yields a
    proposal. *)
Theorem collect_proposals_first_wins (H W : Z)
    (det_runs : list (option (list RawDet))) :
  (_collect_proposals H W det_runs = [] ↔ Forall (no_proposal H W) det_runs) ∧
  ∀ pre boxes post,
    det_runs = pre ++ Some boxes :: post →
    Forall (no_proposal H W) pre →
    omap (proposal_of H W) boxes ≠ [] →
    _collect_proposals H W det_runs = omap (proposal_of H W) boxes.
Proof.
  assert (∀ pre boxes post,
            Forall (no_proposal H W) pre →
            omap (proposal_of H W) boxes ≠ [] →
            _collect_proposals H W (pre ++ Some boxes :: post)
              = omap (proposal_of H W) boxes) as Hfirst.
  { intros pre boxes post HF Hne. induction HF as [|[bs|] pre Hno _ IH]; simpl.
    - by destruct (omap (proposal_of H W) boxes).
    - by rewrite (Hno bs eq_refl).
    - done. }
  split.
  - split.
    + intros E. destruct (collect_proposals_cases H W det_runs)
        as [[_ HF] | (pre & boxes & post & _ & _ & Hne & E')]; [done|].
      rewrite E in E'. by rewrite <- E' in Hne.
    + intros HF. induction HF as [|[bs|] more Hno _ IH]; simpl; [done | | done].
      by rewrite (Hno bs eq_refl).
  - intros pre boxes post -> HF Hne. by apply Hfirst.
Qed.

Lemma stage2_hits_elem H W allow amf props h :
  h ∈ (stage2 brand_predict H W allow amf props).1 →
  ∃ p boxes b, p ∈ props ∧ crop_size (crop_of H W p) ≠ 0%Z ∧
    brand_predict (crop_of H W p) = Some boxes ∧ b ∈ boxes ∧
    brand_hit_of H W allow amf (p_x1 p) (p_y1 p) (p_via p) b = Some h.
Proof.
  induction props as [|p more IH]; simpl.
  - intros Hh. by apply elem_of_nil in Hh.
  - destruct (stage2 brand_predict H W allow amf more) as [hs rs]. simpl in IH.
    assert (h ∈ hs → ∃ p0 boxes b, p0 ∈ p :: more ∧
              crop_size (crop_of H W p0) ≠ 0%Z ∧
              brand_predict (crop_of H W p0) = Some boxes ∧ b ∈ boxes ∧
              brand_hit_of H W allow amf (p_x1 p0) (p_y1 p0) (p_via p0) b = Some h)
      as IH'.
    { intros Hh. destruct (IH Hh) as (p0 & boxes & b & Hp0 & ?).
      exists p0, boxes, b. split; [by right | done]. }
    destruct (Z.eqb_spec (crop_size (crop_of H W p)) 0) as [|Hsz]; [done|].
    destruct (brand_predict (crop_of H W p)) as [boxes|] eqn:Eb; simpl; [|done].
    rewrite elem_of_app. intros [Hh | Hh]; [|by apply IH'].
    apply list_elem_of_omap in Hh as (b & Hb & Hhit).
    exists p, boxes, b. split; [by left | done].
Qed.

Lemma brand_hit_of_spec H W allow amf x1 y1 via b h :
  brand_hit_of H W allow amf x1 y1 via b = Some h →
  h_label h = r_lbl b ∧ h_label h ∈ allow ∧ h_conf h = py_round (r_conf b) 3 ∧
  0 <= r_conf b ∧ r_conf b <= 1 ∧ h_via h = via ∧ (W * H ≠ 0)%Z ∧
  h_xyxy h = ((x1 + r_x1 b)%Z, (y1 + r_y1 b)%Z, (x1 + r_x2 b)%Z, (y1 + r_y2 b)%Z) ∧
  amf <= Qmax 0 (inject_Z ((x1 + r_x2 b - (x1 + r_x1 b)) *
                           (y1 + r_y2 b - (y1 + r_y1 b))) / inject_Z (W * H)).
Proof.
  unfold brand_hit_of.
  destruct (Qle_bool 0 (r_conf b)) eqn:E0; simpl; [|done].
  destruct (Qle_bool (r_conf b) 1) eqn:E1; simpl; [|done].
  destruct (bool_decide (r_lbl b ∈ allow)) eqn:Ea; simpl; [|done].
  destruct (Z.eqb_spec (W * H) 0) as [|Hwh]; [done|].
  destruct (Qltb _ amf) eqn:Earea; [done|].
  intros [= <-]. simpl.
  apply Qle_bool_iff in E0. apply Qle_bool_iff in E1.
  apply bool_decide_eq_true in Ea. apply Qltb_false in Earea.
  repeat split; done.
Qed.

Lemma slice_to_sublist {A} (l : list A) n : sublist (slice_to l n) l.
Proof. unfold slice_to. destruct (n <? 0)%Z; apply sublist_take. Qed.

(** X17.  Every hit of [two_stage_hits] is backed by a brand-stage box:
    its label is in the effective allow set, its confidence is the
    rounded confidence of a box with confidence in [0, 1] and so lies in
    [0, 1] itself, its [via] is the label of a proposal that was used,
    its box is the brand box moved by the corner of that proposal, the
    frame is not empty, and the (clamped) area fraction of the box is at
    least [area_min_frac]. *)
Theorem two_stage_hits_sound (H W : Z)
    (det_runs : list (option (list RawDet))) (allow : option (gset string))
    (area_min_frac : Q) (max_vehicle_crops : Z) :
  let r := two_stage_hits brand_predict H W det_runs allow area_min_frac
             max_vehicle_crops in
  Forall (λ h,
    h_label h ∈ allow_or_default allow ∧
    0 <= h_conf h ∧ h_conf h <= 1 ∧ (W * H ≠ 0)%Z ∧
    ∃ p boxes b,
      p ∈ proposals_used r ∧ brand_predict (crop_of H W p) = Some boxes ∧
      b ∈ boxes ∧ h_label h = r_lbl b ∧ h_conf h = py_round (r_conf b) 3 ∧
      h_via h = p_via p ∧
      h_xyxy h = ((p_x1 p + r_x1 b)%Z, (p_y1 p + r_y1 b)%Z,
                  (p_x1 p + r_x2 b)%Z, (p_y1 p + r_y2 b)%Z) ∧
      area_min_frac <=
        Qmax 0 (inject_Z ((r_x2 b - r_x1 b) * (r_y2 b - r_y1 b))
                / inject_Z (W * H))) (hits r).
Proof.
  intros r.
  destruct (two_stage_hits_fields H W det_runs allow area_min_frac
              max_vehicle_crops) as (Hh & Hp & _).
  fold r in Hh, Hp. rewrite Hh, Hp. apply Forall_forall. intros h Hin.
  apply stage2_hits_elem in Hin as (p & boxes & b & Hpin & _ & Hbp & Hb & Hhit).
  apply brand_hit_of_spec in Hhit
    as (Hl & Hallow & Hc & Hc0 & Hc1 & Hvia & Hwh & Hxy & Harea).
  split; [done|].
  destruct (py_round_unit (r_conf b) 3 Hc0 Hc1) as [Hr0 Hr1].
  rewrite Hc. split; [done|]. split; [done|]. split; [done|].
  exists p, boxes, b. split.
  { eapply elem_of_sublist; [exact Hpin | apply slice_to_sublist]. }
  repeat split; try done.
  replace ((r_x2 b - r_x1 b) * (r_y2 b - r_y1 b))%Z
    with ((p_x1 p + r_x2 b - (p_x1 p + r_x1 b)) *
          (p_y1 p + r_y2 b - (p_y1 p + r_y1 b)))%Z by lia.
  done.
Qed.

Lemma stage2_runs_spec H W allow amf props :
  (length (stage2 brand_predict H W allow amf props).2 <= length props)%nat ∧
  Forall (λ c, crop_size c ≠ 0%Z ∧ ∃ p, p ∈ props ∧ c = crop_of H W p)
         (stage2 brand_predict H W allow amf props).2.
Proof.
  induction props as [|p more [IHl IHf]]; simpl.
  - split; [lia | constructor].
  - destruct (stage2 brand_predict H W allow amf more) as [hs rs]. simpl in *.
    assert (Forall (λ c, crop_size c ≠ 0%Z ∧
                         ∃ p0, p0 ∈ p :: more ∧ c = crop_of H W p0) rs) as IHf'.
    { eapply Forall_impl; [exact IHf|]. intros c (Hc & p0 & Hp0 & ->).
      split; [done|]. exists p0. split; [by right | done]. }
    destruct (Z.eqb_spec (crop_size (crop_of H W p)) 0) as [|Hsz].
    { split; [simpl; lia | done]. }
    destruct (brand_predict (crop_of H W p)); simpl.
    all: split; [lia|]; constructor; [|done];
      split; [done|]; exists p; split; [by left | done].
Qed.

Lemma length_slice_to {A} (l : list A) n :
  (length (slice_to l n) <= length l)%nat ∧
  ((0 <= n)%Z → (Z.of_nat (length (slice_to l n)) <= n)%Z).
Proof.
  unfold slice_to. destruct (Z.ltb_spec n 0); rewrite length_take; split; lia.
Qed.

(** X18.  On a frame of at least one pixel the brand-stage detector
    runs at most once per proposal and, for a non-negative
    [max_vehicle_crops], at most [max_vehicle_crops] times; every crop it
    is run on is a non-empty crop of a proposal in use, and at least one
    proposal is in use. *)
Theorem brand_runs_bounded (H W : Z)
    (det_runs : list (option (list RawDet))) (allow : option (gset string))
    (area_min_frac : Q) (max_vehicle_crops : Z) :
  (1 <= H)%Z → (1 <= W)%Z →
  let r := two_stage_hits brand_predict H W det_runs allow area_min_frac
             max_vehicle_crops in
  (1 <= length (proposals_used r))%nat ∧
  (length (brand_runs r) <= length (proposals_used r))%nat ∧
  ((0 <= max_vehicle_crops)%Z →
   (Z.of_nat (length (brand_runs r)) <= max_vehicle_crops)%Z) ∧
  Forall (λ c, crop_size c ≠ 0%Z ∧
               ∃ p, p ∈ proposals_used r ∧ c = crop_of H W p) (brand_runs r).
Proof.
  intros _ _ r.
  destruct (two_stage_hits_fields H W det_runs allow area_min_frac
              max_vehicle_crops) as (_ & Hp & Hr).
  fold r in Hp, Hr. rewrite Hp, Hr.
  destruct (stage2_runs_spec H W (allow_or_default allow) area_min_frac
              (slice_to (proposals_or_fallback H W det_runs) max_vehicle_crops))
    as [Hlen HF].
  destruct (length_slice_to (proposals_or_fallback H W det_runs) max_vehicle_crops)
    as [Hs1 Hs2].
  split; [|split; [lia | split]].
  - unfold proposals_or_fallback.
    destruct (_collect_proposals H W det_runs); simpl; lia.
  - intros Hm. specialize (Hs2 Hm). lia.
  - eapply Forall_impl; [exact HF|]. intros c (Hc & p & Hpin & ->).
    split; [done|]. exists p. split; [|done].
    eapply elem_of_sublist; [exact Hpin | apply slice_to_sublist].
Qed.

End CascadeMore.

Section CascadeMoreExamples.
Import ProposalCascade CascadeTerms.

Lemma collect_proposals_first_wins_witness :
  let truck := mkRawDet "Truck" (8 # 10) 100 100 300 300 in
  let det_runs := [None; Some [mkRawDet "cat" (9 # 10) 0 0 50 50];
                   Some [truck]; Some [mkRawDet "car" (7 # 10) 10 10 90 90]] in
  _collect_proposals 480 640 det_runs
    = [mkProposal 70 70 330 330 "Truck" (8 # 10)].
Proof.
  intros truck det_runs.
  assert (omap (proposal_of 480 640) [truck]
          = [mkProposal 70 70 330 330 "Truck" (8 # 10)]) as E
    by (vm_compute; reflexivity).
  rewrite <- E.
  apply (proj2 (collect_proposals_first_wins 480 640 det_runs)
           [None; Some [mkRawDet "cat" (9 # 10) 0 0 50 50]] [truck]
           [Some [mkRawDet "car" (7 # 10) 10 10 90 90]] eq_refl).
  - repeat constructor.
    + intros boxes H. discriminate H.
    + intros boxes H. injection H as <-. vm_compute. reflexivity.
  - rewrite E. discriminate.
Defined.

Lemma two_stage_hits_sound_witness :
  let r := two_stage_hits (λ _, Some [mkRawDet "ups" (9 # 10) 5 5 100 100;
                                      mkRawDet "cat" (9 # 10) 5 5 100 100])
             480 640 [Some [mkRawDet "truck" (8 # 10) 100 100 300 300]]
             None (3 # 10000) 16 in
  length (hits r) = 1%nat ∧
  Forall (λ h, h_label h ∈ ALLOW_DEFAULT ∧ 0 <= h_conf h ∧ h_conf h <= 1 ∧
               h_via h = "truck") (hits r).
Proof.
  intros r. split; [vm_compute; reflexivity|].
  eapply Forall_impl;
    [apply (two_stage_hits_sound
              (λ _, Some [mkRawDet "ups" (9 # 10) 5 5 100 100;
                          mkRawDet "cat" (9 # 10) 5 5 100 100])
              480 640 [Some [mkRawDet "truck" (8 # 10) 100 100 300 300]]
              None (3 # 10000) 16)|].
  intros h (Hl & H0 & H1 & _ & p & boxes & b & Hp & _ & _ & _ & _ & Hvia & _).
  split; [exact Hl|]. split; [exact H0|]. split; [exact H1|].
  rewrite Hvia. vm_compute in Hp.
  apply elem_of_cons in Hp as [-> | Hp]; [reflexivity|].
  by apply elem_of_nil in Hp.
Defined.

Lemma brand_runs_bounded_witness :
  let r := two_stage_hits (λ _, Some [mkRawDet "ups" (9 # 10) 5 5 100 100])
             480 640 [Some [mkRawDet "truck" (8 # 10) 100 100 300 300;
                            mkRawDet "car" (7 # 10) 400 100 600 300]]
             None (3 # 10000) 1 in
  length (proposals_used r) = 2%nat ∧
  brand_runs r = [mkCrop 70 330 70 330] ∧
  (Z.of_nat (length (brand_runs r)) <= 1)%Z.
Proof.
  intros r.
  destruct (brand_runs_bounded
              (λ _, Some [mkRawDet "ups" (9 # 10) 5 5 100 100])
              480 640 [Some [mkRawDet "truck" (8 # 10) 100 100 300 300;
                             mkRawDet "car" (7 # 10) 400 100 600 300]]
              None (3 # 10000) 1) as (_ & _ & H3 & _); [lia | lia |].
  split; [vm_compute; reflexivity|]. split; [vm_compute; reflexivity|].
  apply H3. lia.
Defined.

End CascadeMoreExamples.

(** ** DailyCarrierTracker over runs of calls *)

Section TrackerMore.
Import DailyCarrierTracker DetectionLoop.

Lemma mark_detected_cases now_ts c ts t :
  (∀ k, is_Some (detections t !! k) ↔ k ∈ carriers t) →
  ∃ b t', mark_detected now_ts c ts t = Some (b, t') ∧
    carriers t' = carriers t ∧ reset_hour t' = reset_hour t ∧
    current_day t' = current_day t ∧
    (∀ k, is_Some (detections t' !! k) ↔ k ∈ carriers t') ∧
    ∀ k, detections t' !! k =
      if bool_decide (k = c) then
        match detections t !! k with
        | Some None => Some (Some (ts_or_now ts now_ts))
        | d => d
        end
      else detections t !! k.
Proof.
  intros Hdom. unfold mark_detected. case_bool_decide as Hc.
  - destruct (proj2 (Hdom c) Hc) as [d Hd]. rewrite Hd. simpl.
    destruct d as [old|].
    + exists false, t. repeat split; try done; try apply Hdom.
      intros k. case_bool_decide as Hk; [|done]. subst k. by rewrite Hd.
    + eexists true, _. split; [done|]. simpl. repeat split; try done.
      * destruct (decide (k = c)) as [->|Hne].
        -- by rewrite lookup_insert_eq.
        -- rewrite lookup_insert_ne by done. apply Hdom.
      * destruct (decide (k = c)) as [->|Hne].
        -- rewrite lookup_insert_eq. intros _. by eexists.
        -- rewrite lookup_insert_ne by done. apply Hdom.
      * intros k. case_bool_decide as Hk.
        -- subst k. by rewrite lookup_insert_eq, Hd.
        -- by rewrite lookup_insert_ne.
  - exists false, t. repeat split; try done; try apply Hdom.
    intros k. case_bool_decide as Hk; [|done]. subst k.
    destruct (detections t !! c) as [d|] eqn:Hd; [|done].
    exfalso. apply Hc, Hdom. by eexists.
Qed.

Lemma track_hits_spec (current_timestamp : Q) (hits : list (Q * string))
    (t : tracker) :
  (∀ k, is_Some (detections t !! k) ↔ k ∈ carriers t) →
  truthy current_timestamp = true →
  ∃ t', track_hits current_timestamp hits t = Some t' ∧
    carriers t' = carriers t ∧ reset_hour t' = reset_hour t ∧
    current_day t' = current_day t ∧
    ∀ c, detections t' !! c =
      match detections t !! c with
      | Some None =>
          if bool_decide (c ∈ hits.*2)
          then Some (Some current_timestamp) else Some None
      | d => d
      end.
Proof.
  intros Hdom Hts. revert t Hdom.
  induction hits as [|[now_ts carrier] more IH]; intros t Hdom; simpl.
  { exists t. repeat split; try done. intros c.
    by destruct (detections t !! c) as [[?|]|]. }
  destruct (mark_detected_cases now_ts carrier (Some current_timestamp) t Hdom)
    as (b & t1 & -> & Hc1 & Hr1 & Hd1 & Hdom1 & Hlook1).
  simpl. destruct (IH t1 Hdom1) as (t' & -> & Hc' & Hr' & Hd' & Hlook').
  exists t'. split; [done|]. rewrite Hc', Hr', Hd'. repeat split; try done.
  intros c. rewrite Hlook', Hlook1.
  assert (ts_or_now (Some current_timestamp) now_ts = current_timestamp) as ->.
  { simpl. by rewrite Hts. }
  case_bool_decide as Hk.
  - subst c. rewrite (bool_decide_eq_true_2 (carrier ∈ carrier :: _)) by left.
    by destruct (detections t !! carrier) as [[?|]|].
  - destruct (detections t !! c) as [[?|]|]; try done.
    apply (f_equal (λ b : bool, if b then _ else _)).
    apply bool_decide_ext. rewrite elem_of_cons. split; [by right | by intros [?|?]].
Qed.

(** X20.  Tracking the hits of a frame marks exactly the tracked carriers
    that were hit and not yet detected: each of them gets the frame's
    timestamp, every earlier detection keeps its own timestamp, carriers
    that were not hit stay as they were, and nothing else of the tracker
    changes. *)
Theorem track_hits_marks (current_timestamp : Q) (hits : list (Q * string))
    (t : tracker) :
  tracker_inv t → truthy current_timestamp = true →
  ∃ t', track_hits current_timestamp hits t = Some t' ∧
    tracker_inv t' ∧
    carriers t' = carriers t ∧ reset_hour t' = reset_hour t ∧
    current_day t' = current_day t ∧
    ∀ c, detections t' !! c =
      match detections t !! c with
      | Some None =>
          if bool_decide (c ∈ hits.*2)
          then Some (Some current_timestamp) else Some None
      | d => d
      end.
Proof.
  intros [Hdom Htruthy] Hts.
  destruct (track_hits_spec current_timestamp hits t Hdom Hts)
    as (t' & Ht' & Hc & Hr & Hd & Hlook).
  exists t'. split; [done|]. split; [|done].
  split.
  - intros c. rewrite Hlook, Hc, <- Hdom.
    destruct (detections t !! c) as [[?|]|]; [done | | done].
    by case_bool_decide.
  - intros c ts. rewrite Hlook.
    destruct (detections t !! c) as [[old|]|] eqn:E.
    + intros [= <-]. by eapply Htruthy.
    + case_bool_decide; [by intros [= <-] | done].
    + done.
Qed.

Lemma is_midnight_get_current_day reset_hour now :
  at_midnight (_get_current_day reset_hour now) = _get_current_day reset_hour now.
Proof. done. Qed.

Lemma reachable_midnight t :
  reachable t → at_midnight (current_day t) = current_day t.
Proof.
  induction 1 as [carriers reset_hour now | c t t' _ IH Hok Hstep].
  - done.
  - destruct c as [now | now_ts carrier timestamp]; simpl in *.
    + injection Hstep as <-. unfold check_and_reset.
      by destruct (dt_gtb _ _).
    + unfold mark_detected in Hstep. case_bool_decide.
      * destruct (detections t !! carrier) as [[?|]|]; simpl in Hstep;
          [by injection Hstep as <- | by injection Hstep as <- | done].
      * by injection Hstep as <-.
Qed.

Lemma step_day t c t' :
  at_midnight (current_day t) = current_day t →
  step c t = Some t' →
  carriers t' = carriers t ∧ reset_hour t' = reset_hour t ∧
  at_midnight (current_day t') = current_day t' ∧
  ((current_day t' = current_day t ∧
    ∀ k ts, detections t !! k = Some (Some ts) →
            detections t' !! k = Some (Some ts)) ∨
   ((ordinal (current_day t) < ordinal (current_day t'))%Z ∧
    ∀ k, is_detected k t' = false)).
Proof.
  intros Hmid Hstep. destruct c as [now | now_ts carrier timestamp]; simpl in *.
  - injection Hstep as <-. unfold check_and_reset.
    destruct (dt_gtb _ _) eqn:E; simpl.
    + repeat split; try done. right.
      rewrite <- Hmid in E. unfold _get_current_day in E.
      rewrite dt_gtb_midnight in E. apply Z.ltb_lt in E. simpl. split; [done|].
      intros k. unfold is_detected. simpl. rewrite cleared_lookup.
      by case_bool_decide.
    + repeat split; try done. by left.
  - unfold mark_detected in Hstep. case_bool_decide as Hc.
    + destruct (detections t !! carrier) as [[old|]|] eqn:E; simpl in Hstep;
        [| |done]; injection Hstep as <-; simpl.
      * repeat split; try done. by left.
      * repeat split; try done. left. split; [done|].
        intros k ts Hk. destruct (decide (k = carrier)) as [->|Hne].
        -- rewrite E in Hk. done.
        -- by rewrite lookup_insert_ne.
    + injection Hstep as <-. repeat split; try done. by left.
Qed.

(** X21.  Over any run of calls on a tracker, whatever the clock does:
    the carrier list and the reset hour never change, the tracker day
    never moves backwards, and while the tracker day is the same every
    recorded detection is still there with its timestamp. *)
Theorem run_calls_day_monotone (t : tracker) (cs : list call) (t' : tracker) :
  reachable t → run_calls cs t = Some t' →
  carriers t' = carriers t ∧ reset_hour t' = reset_hour t ∧
  ((current_day t' = current_day t ∧
    ∀ k ts, detections t !! k = Some (Some ts) →
            detections t' !! k = Some (Some ts)) ∨
   (ordinal (current_day t) < ordinal (current_day t'))%Z).
Proof.
  intros Hreach. apply reachable_midnight in Hreach. revert t Hreach.
  induction cs as [|c more IH]; intros t Hmid; simpl.
  { intros [= <-]. repeat split; try done. by left. }
  destruct (step c t) as [t1|] eqn:E; simpl; [|done]. intros Hrun.
  destruct (step_day t c t1 Hmid E) as (Hc1 & Hr1 & Hmid1 & Hcase1).
  destruct (IH t1 Hmid1 Hrun) as (Hc' & Hr' & Hcase').
  rewrite Hc', Hr'. repeat split; try done.
  destruct Hcase1 as [[Hd1 Hk1] | [Hlt1 _]], Hcase' as [[Hd' Hk'] | Hlt'].
  - left. split; [by rewrite Hd'|]. intros k ts Hk. by apply Hk', Hk1.
  - right. by rewrite <- Hd1.
  - right. by rewrite Hd'.
  - right. lia.
Qed.

End TrackerMore.

Section TrackerLogMore.
Import DailyCarrierTracker TrackerLog.
Variable fromtimestamp_ok : Q → bool.

#[local] Abbreviation mark_detected := (TrackerLog.mark_detected fromtimestamp_ok).
#[local] Abbreviation get_summary := (TrackerLog.get_summary fromtimestamp_ok).
#[local] Abbreviation reachable := (TrackerLog.reachable fromtimestamp_ok).
#[local] Abbreviation recorded_ok := (TrackerLog.recorded_ok fromtimestamp_ok).

(** X22.  After a daily reset every tracked carrier can be detected
    anew: the first [mark_detected] for it, with a truthy timestamp that
    [fromtimestamp] accepts, returns true and records the new timestamp,
    and the carriers not marked since the reset read as not detected. *)
Theorem redetect_after_reset (t t' : tracker) (now : datetime) (now_ts ts : Q)
    (c : string) :
  check_and_reset now t = (true, t') → c ∈ carriers t →
  truthy ts = true → fromtimestamp_ok ts = true →
  ∃ t'', mark_detected now_ts c (Some ts) t' = (Some true, t'') ∧
    detections t'' !! c = Some (Some ts) ∧ is_detected c t'' = true ∧
    ∀ k, k ≠ c → is_detected k t'' = false.
Proof.
  unfold check_and_reset. destruct (dt_gtb _ _); [|done].
  intros [= <-] Hc Hts Hok. unfold TrackerLog.mark_detected. simpl.
  rewrite (bool_decide_eq_true_2 _ Hc), cleared_lookup,
    (bool_decide_eq_true_2 _ Hc). rewrite Hts, Hok.
  eexists. split; [done|]. unfold is_detected. simpl.
  rewrite lookup_insert_eq. repeat split; try done.
  intros k Hk. rewrite lookup_insert_ne by done. rewrite cleared_lookup.
  by case_bool_decide.
Qed.

(** X23.  For a reachable tracker whose recorded timestamps
    [fromtimestamp] accepts, the summary carries the tracker day and one
    entry for each tracked carrier and for nothing else; an entry is
    marked detected exactly when it has a timestamp, and that timestamp is
    the recorded one. *)
Theorem get_summary_entries (t : tracker) :
  reachable t → recorded_ok t →
  ∃ s, get_summary t = Some s ∧ date s = current_day t ∧
    (∀ c, is_Some (s_carriers s !! c) ↔ c ∈ carriers t) ∧
    ∀ c e, s_carriers s !! c = Some e →
      (detected e = true ↔ is_Some (timestamp e)) ∧
      (∀ ts, timestamp e = Some ts → detections t !! c = Some (Some ts)).
Proof.
  intros Hreach Hok. pose proof (reachable_log_inv fromtimestamp_ok t Hreach) as Hinv.
  destruct (get_summary_log fromtimestamp_ok t Hinv) as [Hret Hs].
  apply Hret in Hok as [s Hsum]. destruct (Hs s Hsum) as [Hdate Hlook].
  destruct Hinv as [Hdom Htruthy].
  exists s. split; [done|]. split; [done|]. split.
  - intros c. rewrite Hlook, <- Hdom.
    destruct (detections t !! c) as [[?|]|]; split; 
      try (by intros [? ?]); by eexists.
  - intros c e. rewrite Hlook. destruct (detections t !! c) as [[ts|]|] eqn:E;
      [| |done]; intros [= <-]; simpl.
    + split; [split; [by eexists | done] | by intros ts' [= <-]].
    + split; [|done]. split; [done | by intros [? ?]].
Qed.

End TrackerLogMore.

Section TrackerMoreExamples.
Import DailyCarrierTracker DetectionLoop.

Lemma track_hits_marks_witness :
  let t0 := init ["fedex"; "ups"; "usps"] 3 (mkDatetime 739000 9 30 0 0) in
  ∃ t1 t2,
    mark_detected 1700000000 "ups" (Some 1700000000) t0 = Some (true, t1) ∧
    tracker_inv t1 ∧
    track_hits 1700000900 [(1700000901, "ups"); (1700000902, "fedex");
                           (1700000903, "dhl")] t1 = Some t2 ∧
    detections t2 !! "ups" = Some (Some 1700000000) ∧
    detections t2 !! "fedex" = Some (Some 1700000900) ∧
    detections t2 !! "usps" = Some None ∧
    detections t2 !! "dhl" = None.
Proof.
  intros t0.
  assert (tracker_inv t0) as Hinv0 by apply init_inv.
  destruct (mark_detected 1700000000 "ups" (Some 1700000000) t0) as [[b t1]|] eqn:E;
    [|vm_compute in E; discriminate].
  assert (b = true) as -> by (vm_compute in E; by injection E as <- _).
  assert (tracker_inv t1) as Hinv1.
  { apply (mark_detected_inv 1700000000 "ups" (Some 1700000000) t0 (true, t1));
      [reflexivity | done | done]. }
  assert (detections t1 = <["ups" := Some 1700000000]> (detections t0)) as Hd1.
  { unfold mark_detected in E. rewrite bool_decide_eq_true_2 in E
      by (right; left). unfold t0 at 1 in E. simpl in E.
    rewrite cleared_lookup in E. rewrite bool_decide_eq_true_2 in E by (right; left).
    simpl in E. by injection E as <-. }
  destruct (track_hits_marks 1700000900
              [(1700000901, "ups"); (1700000902, "fedex"); (1700000903, "dhl")]
              t1 Hinv1 eq_refl) as (t2 & Ht2 & _ & _ & _ & _ & Hlook).
  exists t1, t2. split; [done|]. split; [done|]. split; [done|].
  rewrite !Hlook, Hd1. unfold t0. simpl.
  rewrite lookup_insert_eq.
  rewrite !lookup_insert_ne by done. rewrite !cleared_lookup.
  repeat split.
Defined.

Lemma run_calls_day_monotone_witness :
  let t0 := init ["ups"; "usps"] 3 (mkDatetime 739000 9 30 0 0) in
  let cs := [CheckAndReset (mkDatetime 738999 23 0 0 0);
             MarkDetected 1700003600 "ups" None;
             CheckAndReset (mkDatetime 739001 2 59 0 0)] in
  ∃ t1 t',
    step (MarkDetected 1700000000 "ups" None) t0 = Some t1 ∧ reachable t1 ∧
    run_calls cs t1 = Some t' ∧
    current_day t' = current_day t1 ∧
    detections t' !! "ups" = Some (Some 1700000000).
Proof.
  intros t0 cs.
  destruct (step (MarkDetected 1700000000 "ups" None) t0) as [t1|] eqn:E1;
    [|vm_compute in E1; discriminate].
  assert (reachable t1) as Hreach.
  { eapply reach_step; [apply reach_init | | exact E1]. simpl. reflexivity. }
  destruct (run_calls cs t1) as [t'|] eqn:E; [|exfalso].
  - exists t1, t'. split; [done|]. split; [done|]. split; [done|].
    destruct (run_calls_day_monotone t1 cs t' Hreach E)
      as (_ & _ & [[Hday Hkeep] | Hlt]).
    + split; [exact Hday|]. apply Hkeep.
      vm_compute in E1. injection E1 as <-. reflexivity.
    + exfalso. vm_compute in E1. injection E1 as <-.
      vm_compute in E. injection E as <-. simpl in Hlt. lia.
  - vm_compute in E1. injection E1 as <-. vm_compute in E. discriminate.
Defined.

End TrackerMoreExamples.

Section TrackerLogMoreExamples.
Import DailyCarrierTracker TrackerLog.

Lemma redetect_after_reset_witness :
  let t := mkTracker ["ups"; "usps"] 3
             (<["ups" := Some 1700000000]> (cleared ["ups"; "usps"]))
             (mkDatetime 739000 0 0 0 0) in
  let now := mkDatetime 739001 3 0 5 0 in
  ∃ t' t'',
    check_and_reset now t = (true, t') ∧
    mark_detected years_1_to_9999 1700086500 "ups" (Some 1700086400) t'
      = (Some true, t'') ∧
    detections t'' !! "ups" = Some (Some 1700086400) ∧
    is_detected "usps" t'' = false.
Proof.
  intros t now.
  destruct (check_and_reset now t) as [b t'] eqn:E.
  assert (b = true) as -> by (vm_compute in E; by injection E as <- _).
  destruct (redetect_after_reset years_1_to_9999 t t' now 1700086500 1700086400
              "ups" E)
    as (t'' & H1 & H2 & _ & H3); [by left | reflexivity | reflexivity |].
  exists t', t''. split; [done|]. split; [done|]. split; [done|].
  by apply H3.
Defined.

Lemma get_summary_entries_witness :
  let t := step years_1_to_9999 (MarkDetected 1700000000 "ups" None)
             (init ["ups"; "usps"] 3 (mkDatetime 739000 9 30 0 0)) in
  ∃ s, get_summary years_1_to_9999 t = Some s ∧
    s_carriers s !! "ups" = Some (mkEntry true (Some 1700000000)) ∧
    (∀ c, is_Some (s_carriers s !! c) ↔ c ∈ ["ups"; "usps"]).
Proof.
  intros t.
  assert (reachable years_1_to_9999 t) as Hreach.
  { apply reach_step; [apply reach_init | split; reflexivity]. }
  assert (recorded_ok years_1_to_9999 t) as Hok.
  { apply (proj1 (get_summary_log years_1_to_9999 t
                    (reachable_log_inv years_1_to_9999 t Hreach))).
    destruct (get_summary years_1_to_9999 t) eqn:E;
      [by eexists | vm_compute in E; discriminate]. }
  destruct (get_summary_entries years_1_to_9999 t Hreach Hok)
    as (s & Hs & _ & Hkeys & _).
  exists s. split; [exact Hs|]. split; [|exact Hkeys].
  vm_compute in Hs. injection Hs as <-. reflexivity.
Defined.

End TrackerLogMoreExamples.

(** ** StateReconciler: dropped messages, resets and the state file *)

Section SidecarMore.
Import Sidecar Persistence.

Lemma not_accepted_iff clk p :
  ¬ accepted clk p ↔
  (¬ event_shaped p ∧ p_services p = None) ∨ (event_shaped p ∧ p_ts p = Some None).
Proof.
  unfold accepted, _coerce_services, event_shaped.
  destruct (p_entered p) as [en|], (p_current p) as [cu|], (p_today p) as [td|];
    simpl.
  8: { destruct (p_services p) as [sv|]; simpl.
       - split; [intros H; exfalso; apply H; by eexists|].
         intros [[_ ?]|[[[? ?]|[[? ?]|[? ?]]] _]]; done.
       - split; [intros _; left; split; [|done] | by intros _ [? ?]].
         intros [[? ?]|[[? ?]|[? ?]]]; done. }
  all: destruct (p_ts p) as [[ts|]|]; simpl;
    (split;
     [ intros H; try (exfalso; apply H; by eexists);
       right; (split; [|done]); eauto
     | intros [[Hne _]|[_ Hts]] Hs; try done;
       exfalso; apply Hne; eauto ]).
Qed.

(** X24.  The handler drops a message, leaving the state as it was and
    writing nothing, exactly when the payload has none of the keys
    [entered], [current], [today], [services], or has one of the first
    three together with ["ts": null]; a due reset is then not performed
    either.  An accepted message whose arrays are all empty performs the
    reset if one is due and writes nothing. *)
Theorem on_message_dropped (RESET_H : Z) (clk : clock) (p : payload) (s : state) :
  (¬ accepted clk p ↔
   (¬ event_shaped p ∧ p_services p = None) ∨
   (event_shaped p ∧ p_ts p = Some None)) ∧
  (¬ accepted clk p → on_message RESET_H clk p s = (s, false)) ∧
  (accepted clk p → (on_message RESET_H clk p s).2 = false →
   (on_message RESET_H clk p s).1 = _ensure_reset_if_needed RESET_H clk s).
Proof.
  split; [apply not_accepted_iff|]. split.
  - unfold accepted, on_message.
    destruct (_coerce_services clk p) as [[[e c] td] [ts|]]; simpl; [|done].
    intros H. exfalso. apply H. by eexists.
  - unfold accepted.
    destruct (_coerce_services clk p) as [[[e c] td] [ts|]] eqn:Hco; simpl;
      [|by intros [? ?]].
    intros _. rewrite (on_message_accepted RESET_H clk p s e c td ts Hco). simpl.
    intros H. apply orb_false_iff in H as [H Htd].
    apply orb_false_iff in H as [He Hc]. rewrite He, Hc, Htd.
    by destruct (_ensure_reset_if_needed RESET_H clk s).
Qed.

Lemma lower_ascii_char (c : ascii) :
  (nat_of_ascii c < 128)%nat →
  (nat_of_ascii (lower_ascii c) < 128)%nat ∧
  ¬ (65 <= nat_of_ascii (lower_ascii c) <= 90)%nat.
Proof.
  intros H.
  assert ((nat_of_ascii c <? 128)%nat = true →
          ((nat_of_ascii (lower_ascii c) <? 128)%nat &&
           negb ((65 <=? nat_of_ascii (lower_ascii c))%nat &&
                 (nat_of_ascii (lower_ascii c) <=? 90)%nat)) = true) as Hb.
  { clear H. destruct c as [[] [] [] [] [] [] [] []]; vm_compute; done. }
  apply Nat.ltb_lt in H. apply Hb in H.
  apply andb_true_iff in H as [H1 H2]. apply Nat.ltb_lt in H1.
  split; [done|]. intros [H3 H4].
  apply Nat.leb_le in H3, H4. by rewrite H3, H4 in H2.
Qed.

Lemma lower_ascii_lower (x : string) : is_ascii x → ascii_lower (lower x).
Proof.
  unfold is_ascii, ascii_lower. induction x as [|c x IH]; simpl; [done|].
  intros [Hc Hx]%Forall_cons. constructor; [by apply lower_ascii_char | by apply IH].
Qed.

Lemma lower_set_names (field : option (list string)) x :
  Forall is_ascii (default [] field) → x ∈ lower_set field → ascii_lower x.
Proof.
  intros HF. unfold lower_set. rewrite elem_of_list_to_set.
  intros (y & -> & Hy)%list_elem_of_fmap. apply lower_ascii_lower.
  rewrite Forall_forall in HF. by apply HF.
Qed.

Lemma coerce_names clk p e c td ts x :
  Forall is_ascii (payload_names p) →
  _coerce_services clk p = (e, c, td, ts) → x ∈ e ∪ c ∪ td → ascii_lower x.
Proof.
  unfold payload_names. rewrite !Forall_app. intros (He & Hc & Ht & Hs).
  unfold _coerce_services.
  destruct (_ || _); [|destruct (has_key (p_services p))]; intros [= <- <- <- <-];
    rewrite !elem_of_union; intros [[H|H]|H];
    try (by apply elem_of_empty in H);
    (eapply lower_set_names; [|exact H]); done.
Qed.

Lemma on_message_names RESET_H clk p s :
  Forall is_ascii (payload_names p) →
  (∀ x, x ∈ CURR s ∪ TODAY s → ascii_lower x) →
  ∀ x, x ∈ CURR (on_message RESET_H clk p s).1 ∪ TODAY (on_message RESET_H clk p s).1 →
       ascii_lower x.
Proof.
  intros Hp Hs.
  destruct (_coerce_services clk p) as [[[e c] td] [ts|]] eqn:Hco.
  2: { unfold on_message. by rewrite Hco. }
  rewrite (on_message_accepted RESET_H clk p s e c td ts Hco). simpl.
  assert (∀ x, x ∈ e ∪ c ∪ td → ascii_lower x) as Hl
    by (intros x; by eapply coerce_names).
  assert (∀ x, x ∈ CURR (_ensure_reset_if_needed RESET_H clk s) → ascii_lower x) as HC.
  { intros x Hx. apply Hs. rewrite ensure_reset_CURR in Hx.
    apply elem_of_union. by left. }
  assert (∀ x, x ∈ TODAY (_ensure_reset_if_needed RESET_H clk s) → ascii_lower x) as HT.
  { intros x. unfold _ensure_reset_if_needed. destruct (reset_due _ _ _); simpl.
    - by intros ?%elem_of_empty.
    - intros Hx. apply Hs. apply elem_of_union. by right. }
  set (s0 := _ensure_reset_if_needed RESET_H clk s) in *. clearbody s0.
  assert (∀ x, x ∈ e → ascii_lower x) as He.
  { intros x Hx. apply Hl. rewrite !elem_of_union. by left; left. }
  assert (∀ x, x ∈ c → ascii_lower x) as Hc.
  { intros x Hx. apply Hl. rewrite !elem_of_union. by left; right. }
  assert (∀ x, x ∈ td → ascii_lower x) as Htd.
  { intros x Hx. apply Hl. rewrite !elem_of_union. by right. }
  intros x. rewrite elem_of_union.
  destruct (nonempty c), (nonempty td), (nonempty e);
    rewrite ?elem_of_union; intros H; repeat destruct H as [H|H]; eauto.
Qed.

Lemma is_ascii_check (x : string) :
  forallb (λ c, (nat_of_ascii c <? 128)%nat) (list_ascii_of_string x) = true ↔
  is_ascii x.
Proof.
  unfold is_ascii. rewrite forallb_forall, Forall_forall.
  split; intros H c Hc.
  - apply Nat.ltb_lt, H. by apply list_elem_of_In.
  - apply Nat.ltb_lt, H. by apply list_elem_of_In.
Qed.

Lemma ascii_lower_check (x : string) :
  forallb (λ c, (nat_of_ascii c <? 128)%nat &&
                negb ((65 <=? nat_of_ascii c)%nat && (nat_of_ascii c <=? 90)%nat))
          (list_ascii_of_string x) = true ↔
  ascii_lower x.
Proof.
  unfold ascii_lower. rewrite forallb_forall, Forall_forall.
  assert (∀ c, ((nat_of_ascii c <? 128)%nat &&
                negb ((65 <=? nat_of_ascii c)%nat && (nat_of_ascii c <=? 90)%nat))
               = true ↔
               (nat_of_ascii c < 128)%nat ∧ ¬ (65 <= nat_of_ascii c <= 90)%nat) as E.
  { intros c. rewrite andb_true_iff, negb_true_iff, andb_false_iff,
      Nat.ltb_lt, !Nat.leb_gt. lia. }
  split; intros H c Hc; apply E, H; by apply list_elem_of_In.
Qed.

(** X25.  The stored names are in lower case: when the names of the
    state are ASCII names without upper-case letters and every name the
    messages carry is ASCII, handling any run of messages keeps every
    name in [current] and [today] an ASCII name without upper-case
    letters. *)
Theorem handle_all_lowercase (RESET_H : Z) (msgs : list (clock * payload))
    (s : state) :
  Forall (λ m, Forall is_ascii (payload_names m.2)) msgs →
  (∀ x, x ∈ CURR s ∪ TODAY s → ascii_lower x) →
  ∀ x, x ∈ CURR (handle_all RESET_H msgs s) ∪ TODAY (handle_all RESET_H msgs s) →
       ascii_lower x.
Proof.
  revert s. induction msgs as [|[clk p] msgs IH]; intros s HF Hs; simpl; [done|].
  apply Forall_cons in HF as [Hp HF]. apply IH; [done|].
  by apply on_message_names.
Qed.
Lemma on_message_last_reset RESET_H clk p s :
  LAST_RESET_DAY (on_message RESET_H clk p s).1 = LAST_RESET_DAY s ∨
  LAST_RESET_DAY (on_message RESET_H clk p s).1 = Some (yday clk).
Proof.
  destruct (_coerce_services clk p) as [[[e c] td] [ts|]] eqn:Hco.
  2: { unfold on_message. rewrite Hco. by left. }
  rewrite (on_message_accepted RESET_H clk p s e c td ts Hco). simpl.
  unfold _ensure_reset_if_needed. destruct (reset_due _ _ _); [by right | by left].
Qed.

Lemma reset_not_due_same_day RESET_H clk s :
  LAST_RESET_DAY s = Some (yday clk) → reset_due RESET_H clk s = false.
Proof. intros H. unfold reset_due. by rewrite bool_decide_eq_true_2. Qed.

Lemma handle_all_last_reset RESET_H msgs s d :
  LAST_RESET_DAY s = Some d → Forall (λ m, yday m.1 = d) msgs →
  LAST_RESET_DAY (handle_all RESET_H msgs s) = Some d.
Proof.
  revert s. induction msgs as [|[clk p] msgs IH]; intros s Hs HF; simpl; [done|].
  apply Forall_cons in HF as [Hd HF]. simpl in Hd. apply IH; [|done].
  destruct (on_message_last_reset RESET_H clk p s) as [-> | ->]; [done | by rewrite Hd].
Qed.

(** X26.  The daily reset happens at most once per day: once a reset has
    been performed, [today] is empty, [current] is untouched, and after
    any run of messages handled on that day of the year no reset is due
    for a clock reading of that day. *)
Theorem reset_once_per_day (RESET_H : Z) (clk clk' : clock) (s : state)
    (msgs : list (clock * payload)) :
  reset_due RESET_H clk s = true →
  Forall (λ m, yday m.1 = yday clk) msgs → yday clk' = yday clk →
  let s1 := _ensure_reset_if_needed RESET_H clk s in
  TODAY s1 = ∅ ∧ CURR s1 = CURR s ∧
  reset_due RESET_H clk' (handle_all RESET_H msgs s1) = false.
Proof.
  intros Hdue HF Hday s1.
  assert (s1 = mkState (CURR s) ∅ (Some (yday clk))) as Hs1.
  { unfold s1, _ensure_reset_if_needed. by rewrite Hdue. }
  rewrite Hs1. split; [done|]. split; [done|].
  apply reset_not_due_same_day. rewrite Hday.
  by apply handle_all_last_reset.
Qed.

#[local] Instance str_le_total : Total str_le.
Proof.
  intros a b. unfold str_le. rewrite !Is_true_true. apply String.leb_total.
Qed.

Lemma sorted_spec (x : gset string) :
  Sorted str_le (sorted x) ∧ NoDup (sorted x) ∧ list_to_set (sorted x) = x.
Proof.
  unfold sorted. split; [apply Sorted_merge_sort, _|]. split.
  - rewrite merge_sort_Permutation. apply NoDup_elements.
  - apply set_eq. intros y.
    rewrite elem_of_list_to_set, merge_sort_Permutation. apply elem_of_elements.
Qed.

Lemma load_write (clk clk' : clock) (s : state) :
  _load_state clk' (Some (_write_state clk s))
    = mkState (CURR s) (TODAY s) (Some (yday clk')).
Proof.
  destruct (sorted_spec (CURR s)) as (_ & _ & He1).
  destruct (sorted_spec (TODAY s)) as (_ & _ & He2).
  unfold _load_state, _write_state. simpl. by rewrite He1, He2.
Qed.

(** X27.  What [_write_state] writes is what [_load_state] reads back:
    the two lists of the file are sorted and free of duplicates, and
    loading the file restores [current] and [today] exactly; the day of
    the last reset is not stored and is set to the day of loading. *)
Theorem write_load_roundtrip (clk clk' : clock) (s : state) :
  let f := _write_state clk s in
  (∃ cur tod, f_current f = Some cur ∧ f_today f = Some tod ∧
     Sorted str_le cur ∧ NoDup cur ∧ Sorted str_le tod ∧ NoDup tod) ∧
  f_ts f = Some (now_ts clk) ∧
  _load_state clk' (Some f) = mkState (CURR s) (TODAY s) (Some (yday clk')).
Proof.
  intros f.
  destruct (sorted_spec (CURR s)) as (Hs1 & Hn1 & He1).
  destruct (sorted_spec (TODAY s)) as (Hs2 & Hn2 & He2).
  split; [|split; [done|]].
  - exists (sorted (CURR s)), (sorted (TODAY s)). done.
  - apply load_write.
Qed.

(** X28.  Start-up never performs the daily reset: [_load_state] has
    just set the day of the last reset to today, so when the clock does
    not pass midnight between the two calls the state [main] starts from
    is the loaded one, whatever day the file was written on; no reset is
    due for the rest of that day, and the file written back holds the
    same two sets. *)
Theorem main_keeps_today (RESET_H : Z) (clk_load clk_reset clk_write clk : clock)
    (file : option state_file) :
  yday clk_reset = yday clk_load → yday clk = yday clk_load →
  let r := main RESET_H clk_load clk_reset clk_write file in
  r.1 = _load_state clk_load file ∧
  reset_due RESET_H clk r.1 = false ∧
  _load_state clk (Some r.2) = mkState (CURR r.1) (TODAY r.1) (Some (yday clk)) ∧
  (∀ f tod, file = Some f → f_today f = Some tod → TODAY r.1 = list_to_set tod).
Proof.
  intros Hr Hc r.
  assert (r.1 = _load_state clk_load file) as H1.
  { unfold r, main. simpl. apply ensure_reset_not_due, reset_not_due_same_day.
    rewrite Hr. by destruct file. }
  split; [done|]. split; [|split].
  - apply reset_not_due_same_day. rewrite H1, Hc. by destruct file.
  - exact (load_write clk_write clk r.1).
  - intros f tod -> Htod. rewrite H1. simpl. by rewrite Htod.
Qed.

Lemma ensure_reset_settled RESET_H clk s :
  reset_due RESET_H clk (_ensure_reset_if_needed RESET_H clk s) = false.
Proof.
  unfold _ensure_reset_if_needed. destruct (reset_due RESET_H clk s) eqn:E; [|done].
  by apply reset_not_due_same_day.
Qed.

Lemma reset_due_ext RESET_H clk s s' :
  LAST_RESET_DAY s = LAST_RESET_DAY s' →
  reset_due RESET_H clk s = reset_due RESET_H clk s'.
Proof. intros H. unfold reset_due. by rewrite H. Qed.

(** X29.  Handling a message is idempotent: delivered twice in a row at
    the same clock reading, a message leaves the state it left the first
    time, so a duplicate delivery changes nothing. *)
Theorem on_message_idempotent (RESET_H : Z) (clk : clock) (p : payload)
    (s : state) :
  (on_message RESET_H clk p (on_message RESET_H clk p s).1).1
    = (on_message RESET_H clk p s).1.
Proof.
  destruct (_coerce_services clk p) as [[[e c] td] [ts|]] eqn:Hco.
  2: { unfold on_message. rewrite Hco. simpl. by rewrite ?Hco. }
  rewrite (on_message_accepted RESET_H clk p s e c td ts Hco). simpl.
  set (s0 := _ensure_reset_if_needed RESET_H clk s).
  set (s3 := mkState _ _ _).
  rewrite (on_message_accepted RESET_H clk p s3 e c td ts Hco). simpl.
  assert (_ensure_reset_if_needed RESET_H clk s3 = s3) as ->.
  { apply ensure_reset_not_due.
    rewrite (reset_due_ext RESET_H clk s3 s0) by done.
    apply ensure_reset_settled. }
  unfold s3. simpl.
  destruct (nonempty c), (nonempty td), (nonempty e); try done;
    f_equal; by rewrite <- (assoc_L (∪)), (idemp_L (∪)).
Qed.

End SidecarMore.

Section SidecarMoreExamples.
Import Sidecar Persistence.

Lemma handle_all_lowercase_witness :
  let s := mkState {["usps"]} {["usps"]} (Some 100%Z) in
  let msgs := [(mkClock 100 12 1700000005,
                mkPayload None None None None (Some ["FedEx"]));
               (mkClock 101 4 1700050000,
                mkPayload (Some ["DHL"]) (Some ["UPS"]) None None None)] in
  CURR (handle_all 3 msgs s) = {["ups"]} ∧
  TODAY (handle_all 3 msgs s) = {["dhl"]} ∧
  ascii_lower "ups" ∧ ascii_lower "dhl" ∧ ¬ ascii_lower "DHL".
Proof.
  intros s msgs.
  assert (∀ x, x ∈ CURR s ∪ TODAY s → ascii_lower x) as Hs.
  { intros x. unfold s. simpl. rewrite elem_of_union, !elem_of_singleton.
    intros [-> | ->]; by apply ascii_lower_check. }
  assert (Forall (λ m, Forall is_ascii (payload_names m.2)) msgs) as Hm.
  { repeat constructor; by apply is_ascii_check. }
  pose proof (handle_all_lowercase 3 msgs s Hm Hs) as H.
  assert (CURR (handle_all 3 msgs s) = {["ups"]}) as EC by (by vm_compute).
  assert (TODAY (handle_all 3 msgs s) = {["dhl"]}) as ET by (by vm_compute).
  split; [exact EC|]. split; [exact ET|]. split; [|split].
  - apply H. rewrite EC. apply elem_of_union. left. by apply elem_of_singleton.
  - apply H. rewrite ET. apply elem_of_union. right. by apply elem_of_singleton.
  - intros HF%ascii_lower_check. vm_compute in HF. discriminate.
Defined.
Lemma reset_once_per_day_witness :
  let s := mkState {["ups"]} {["ups"]} (Some 100%Z) in
  let clk := mkClock 101 4 1700050000 in
  let clk' := mkClock 101 23 1700120000 in
  let msgs := [(mkClock 101 5 1700053600,
                mkPayload None None None None (Some ["FedEx"]))] in
  reset_due 3 clk s = true ∧
  TODAY (_ensure_reset_if_needed 3 clk s) = ∅ ∧
  reset_due 3 clk' (handle_all 3 msgs (_ensure_reset_if_needed 3 clk s)) = false.
Proof.
  intros s clk clk' msgs.
  assert (reset_due 3 clk s = true) as Hdue by (vm_compute; reflexivity).
  split; [exact Hdue|].
  destruct (reset_once_per_day 3 clk clk' s msgs Hdue) as (H1 & _ & H3).
  - repeat constructor.
  - reflexivity.
  - split; [exact H1 | exact H3].
Defined.

Lemma main_keeps_today_witness :
  let file := Some (mkStateFile (Some 1700000000%Z) (Some ["ups"])
                                (Some ["fedex"; "ups"])) in
  let clk0 := mkClock 101 9 1700060000 in
  let r := main 3 clk0 clk0 clk0 file in
  TODAY r.1 = list_to_set ["fedex"; "ups"] ∧
  reset_due 3 (mkClock 101 23 1700110000) r.1 = false.
Proof.
  intros file clk0 r.
  destruct (main_keeps_today 3 clk0 clk0 clk0 (mkClock 101 23 1700110000) file)
    as (_ & H2 & _ & H4); [reflexivity | reflexivity |].
  split; [|exact H2].
  by apply (H4 (mkStateFile (Some 1700000000%Z) (Some ["ups"])
                            (Some ["fedex"; "ups"]))).
Defined.

End SidecarMoreExamples.
